(** * ApproxPercentileAggregate: the approx_percentile aggregation operator

  A shallow embedding of
  [velox/functions/prestosql/aggregates/ApproxPercentileAggregate.cpp]:
  the per-group accumulator ([KllSketchAccumulator]), the weight check,
  percentile and accuracy resolution, the raw-input path and the two
  extraction paths.

  The KLL sketch ([velox/functions/lib/KllSketch.h]) and the vector
  classes are used by the file but defined elsewhere; they enter as
  interfaces ([kll.Library], [DecodedVector]) over which every
  definition is parametric.  [SpecKll] is one instance of the sketch
  interface, written after the specification, on which the general
  statements are exercised. *)

From Stdlib Require Import ZArith NArith List String Lia Bool Floats Uint63.
From stdpp Require Import base option numbers list sorting.
Import ListNotations.

Local Open Scope Z_scope.

(** ** Outcomes

  [VELOX_USER_CHECK*] and [VELOX_USER_FAIL] throw a user error,
  [VELOX_CHECK*] a runtime (internal) error.  Either one abandons the
  call, so a failed call yields no state. *)

Inductive VeloxError :=
| UserError (message : string)
| RuntimeError (message : string).

Inductive Result (A : Type) :=
| Ok (a : A)
| Failed (e : VeloxError).

Arguments Ok {A} a.
Arguments Failed {A} e.

#[global] Instance Result_ret : MRet Result := fun _ a => Ok a.
#[global] Instance Result_bind : MBind Result := fun _ _ f m =>
match m with
| Ok a => f a
| Failed e => Failed e
end.

Definition VELOX_USER_CHECK (condition : bool) (message : string) : Result unit :=
if condition then Ok tt else Failed (UserError message).

Definition VELOX_CHECK (condition : bool) (message : string) : Result unit :=
if condition then Ok tt else Failed (RuntimeError message).

Definition isOk {A} (r : Result A) : bool :=
match r with Ok _ => true | Failed _ => false end.

Definition isUserError {A} (r : Result A) : bool :=
match r with Failed (UserError _) => true | _ => false end.

(** ** Machine integers *)

(** Conversion to [int32_t] ([vector_size_t]): two's complement wrap-around. *)
Definition to_int32 (z : Z) : Z := (z + 2 ^ 31) mod 2 ^ 32 - 2 ^ 31.

Definition int32_max : Z := 2 ^ 31 - 1.

(** ** Doubles

  [double] is IEEE 754 binary64, as Rocq's primitive [float]; [>=], [<=],
  [<] and [==] are the IEEE comparisons (false on NaN). *)

Definition double := float.

(** ** Selected rows

  A [SelectivityVector] is read through [applyToSelected], [begin] and
  its size only: it is the ascending list of the selected row numbers. *)

Definition SelectivityVector := list nat.

(** [rows.begin()]: the first selected row. *)
Definition sv_begin (rows : SelectivityVector) : nat := hd 0%nat rows.

(** [rows.applyToSelected(f)]: [f] on every selected row, in order; an
  exception thrown by [f] ends the walk. *)
Fixpoint applyToSelected {S : Type} (rows : SelectivityVector)
  (f : nat -> S -> Result S) (s : S) : Result S :=
match rows with
| [] => Ok s
| row :: rest => s' ← f row s; applyToSelected rest f s'
end.

(** ** Decoded vectors

  What the aggregate asks of a [DecodedVector]: the mapping kind, the
  null bit and the value at a row, and the row's index in the base
  vector.  [valueAt] reads the raw value whether or not the row is null. *)

Record DecodedVector (V : Type) := {
isConstantMapping : bool;
mayHaveNulls : bool;
isNullAt : nat -> bool;
valueAt : nat -> V;
index : nat -> nat
}.

Arguments isConstantMapping {V} _.
Arguments mayHaveNulls {V} _.
Arguments isNullAt {V} _ _.
Arguments valueAt {V} _ _.
Arguments index {V} _ _.

(** A decoded vector that reports no nulls has none. *)
Definition DecodedVector_wf {V} (d : DecodedVector V) : Prop :=
mayHaveNulls d = false -> forall row, isNullAt d row = false.

(** Under a constant mapping every row reads the same cell. *)
Definition DecodedVector_constant_wf {V} (d : DecodedVector V) : Prop :=
  isConstantMapping d = true ->
  forall row, isNullAt d row = isNullAt d 0%nat /\ valueAt d row = valueAt d 0%nat.

(** A flat vector decoded with the identity mapping: one null bit and one
  raw value per row; rows past the end read as non-null [dflt]. *)
Definition decodeFlat {V} (dflt : V) (cells : list (bool * V)) : DecodedVector V := {|
isConstantMapping := false;
mayHaveNulls := existsb fst cells;
isNullAt := fun row => nth row (map fst cells) false;
valueAt := fun row => nth row (map snd cells) dflt;
index := fun row => row
|}.

(** A constant vector decoded: every row reads the one cell. *)
Definition decodeConstant {V} (isNull : bool) (value : V) : DecodedVector V := {|
isConstantMapping := true;
mayHaveNulls := isNull;
isNullAt := fun _ => isNull;
valueAt := fun _ => value;
index := fun _ => 0%nat
|}.

(** ** The KLL sketch library

  [functions::kll]: the sketch class template and its free functions, as
  the aggregate uses them.  The allocator is a template argument of the
  sketch type, so the sketch type is indexed by it.

  The interface gives what a call returns.  The checks the library
  makes on its own arguments, such as those on the level vector of a
  view handed to [mergeViews], are the library's and have no place in
  it: what is stated below about errors concerns the checks of the
  aggregate's own code. *)

Inductive Allocator :=
| StlAllocator     (* StlAllocator<T> over the operator's HashStringAllocator *)
| StdAllocator.    (* std::allocator<T>: the heap *)

Module kll.

(** [kll::detail::View<T>] *)
Record View (T : Type) := {
  view_k : N;
  view_n : N;
  view_minValue : T;
  view_maxValue : T;
  view_items : list T;
  view_levels : list N
}.

Arguments view_k {T} _.
Arguments view_n {T} _.
Arguments view_minValue {T} _.
Arguments view_maxValue {T} _.
Arguments view_items {T} _.
Arguments view_levels {T} _.

Class Library (T : Type) := {
  KllSketch : Allocator -> Type;
  kDefaultK : N;
  kFromEpsilon : double -> N;
  (** [random::getSeed()] *)
  getSeed : N;
  (** [KllSketch(k, allocator, seed)] *)
  create : forall a, N -> N -> KllSketch a;
  k : forall {a}, KllSketch a -> N;
  setK : forall {a}, N -> KllSketch a -> KllSketch a;
  totalCount : forall {a}, KllSketch a -> N;
  insert : forall {a}, T -> KllSketch a -> KllSketch a;
  finish : forall {a}, KllSketch a -> KllSketch a;
  isFinished : forall {a}, KllSketch a -> bool;
  compact : forall {a}, KllSketch a -> KllSketch a;
  merge : forall {a}, KllSketch a -> list (KllSketch a) -> KllSketch a;
  mergeViews : forall {a}, KllSketch a -> list (View T) -> KllSketch a;
  toView : forall {a}, KllSketch a -> View T;
  fromView : View T -> forall a, N -> KllSketch a;
  fromRepeatedValue : T -> Z -> N -> forall a, N -> KllSketch a;
  estimateQuantile : forall {a}, KllSketch a -> double -> T;
  estimateQuantiles : forall {a}, KllSketch a -> list double -> list T
}.

(** [finish()] leaves the sketch finished (specification, 4.1 and 3.1). *)
Definition FinishLaw {T} (L : Library T) : Prop :=
  forall a (s : KllSketch a), isFinished (finish s) = true.

End kll.

(** ** The accumulator *)

Section Accumulator.

Context {T : Type} {L : kll.Library T}.

Definition getRandomSeed (fixedRandomSeed : option N) : N :=
  match fixedRandomSeed with
  | Some seed => seed
  | None => kll.getSeed
  end.

(** Accumulator to buffer large count values in addition to the KLL
    sketch itself. *)
Record KllSketchAccumulator := {
  sketch_ : kll.KllSketch StlAllocator;
  largeCountValues_ : list (T * Z)
}.

Definition newKllSketchAccumulator (fixedRandomSeed : option N)
    : KllSketchAccumulator := {|
  sketch_ := kll.create StlAllocator kll.kDefaultK (getRandomSeed fixedRandomSeed);
  largeCountValues_ := []
|}.

Definition setAccuracy (value : double) (acc : KllSketchAccumulator)
    : KllSketchAccumulator := {|
  sketch_ := kll.setK (kll.kFromEpsilon value) (sketch_ acc);
  largeCountValues_ := largeCountValues_ acc
|}.

Definition append (value : T) (acc : KllSketchAccumulator)
    : KllSketchAccumulator := {|
  sketch_ := kll.insert value (sketch_ acc);
  largeCountValues_ := largeCountValues_ acc
|}.

(** The repeated-value sketches of the buffered pairs, built with
    [allocator] and the accumulator's [k]. *)
Definition repeatedValueSketches (allocator : Allocator)
    (acc : KllSketchAccumulator) (fixedRandomSeed : option N)
    : list (kll.KllSketch allocator) :=
  map (fun xn : T * Z =>
         kll.fromRepeatedValue xn.1 xn.2 (kll.k (sketch_ acc)) allocator
           (getRandomSeed fixedRandomSeed))
      (largeCountValues_ acc).

(** Const on the accumulator; [sketch] is the sketch merged into. *)
Definition mergeLargeCountValuesIntoSketch (allocator : Allocator)
    (acc : KllSketchAccumulator) (sketch : kll.KllSketch allocator)
    (fixedRandomSeed : option N) : kll.KllSketch allocator :=
  match largeCountValues_ acc with
  | [] => sketch
  | _ :: _ =>
      kll.merge sketch (repeatedValueSketches allocator acc fixedRandomSeed)
  end.

(** This must be called before the KllSketch can be used for
    estimateQuantile() or estimateQuantiles(). *)
Definition flush (fixedRandomSeed : option N) (acc : KllSketchAccumulator)
    : KllSketchAccumulator :=
  let merged :=
    mergeLargeCountValuesIntoSketch StlAllocator acc (sketch_ acc) fixedRandomSeed in
  {| sketch_ := kll.finish merged; largeCountValues_ := [] |}.

Definition kMaxBufferSize : nat := 4096.
Definition kMinCountToBuffer : Z := 512.

(** [for (int i = 0; i < count; ++i) sketch_.insert(value)], entered
    with [count < 512]: no iteration for [count <= 0]. *)
Definition insertRepeatedly (value : T) (count : Z)
    (sketch : kll.KllSketch StlAllocator) : kll.KllSketch StlAllocator :=
  Nat.iter (Z.to_nat count) (kll.insert value) sketch.

(** [append(value, count, allocator, fixedRandomSeed)] *)
Definition appendCount (value : T) (count : Z) (fixedRandomSeed : option N)
    (acc : KllSketchAccumulator) : KllSketchAccumulator :=
  if count <? kMinCountToBuffer then
    {| sketch_ := insertRepeatedly value count (sketch_ acc);
       largeCountValues_ := largeCountValues_ acc |}
  else
    let acc' := {| sketch_ := sketch_ acc;
                   largeCountValues_ := largeCountValues_ acc ++ [(value, count)] |} in
    if (kMaxBufferSize <=? length (largeCountValues_ acc'))%nat
    then flush fixedRandomSeed acc'
    else acc'.

Definition appendView (view : kll.View T) (acc : KllSketchAccumulator)
    : KllSketchAccumulator := {|
  sketch_ := kll.mergeViews (sketch_ acc) [view];
  largeCountValues_ := largeCountValues_ acc
|}.

Definition appendViews (views : list (kll.View T)) (acc : KllSketchAccumulator)
    : KllSketchAccumulator := {|
  sketch_ := kll.mergeViews (sketch_ acc) views;
  largeCountValues_ := largeCountValues_ acc
|}.

(** Creates a copy of the KllSketch, merges the largeCountValues_ into
    it, compacts it, and returns it.  A const method: the accumulator is
    handed back as it was received. *)
Definition compact (fixedRandomSeed : option N) (acc : KllSketchAccumulator)
    : kll.KllSketch StdAllocator * KllSketchAccumulator :=
  let newSketch :=
    kll.fromView (kll.toView (sketch_ acc)) StdAllocator
      (getRandomSeed fixedRandomSeed) in
  let newSketch :=
    mergeLargeCountValuesIntoSketch StdAllocator acc newSketch fixedRandomSeed in
  (kll.compact newSketch, acc).

Definition getSketch (acc : KllSketchAccumulator) : kll.KllSketch StlAllocator :=
  sketch_ acc.

(** The spill copy as the specification words it (4.3): a deep copy of
    the sketch using a heap allocator, the buffer merged into the copy,
    the copy finished, then compacted. *)
Definition compact_for_spill (seed : option N) (acc : KllSketchAccumulator)
    : kll.KllSketch StdAllocator :=
  let copy :=
    kll.fromView (kll.toView (sketch_ acc)) StdAllocator (getRandomSeed seed) in
  kll.compact
    (kll.finish (mergeLargeCountValuesIntoSketch StdAllocator acc copy seed)).

(** The large-count buffer holds fewer than [kMaxBufferSize] pairs, each
    with a count of at least [kMinCountToBuffer]. *)
Definition bufferInvariant (acc : KllSketchAccumulator) : Prop :=
  (length (largeCountValues_ acc) < kMaxBufferSize)%nat
  /\ Forall (fun xn : T * Z => kMinCountToBuffer <= xn.2) (largeCountValues_ acc).

End Accumulator.

Arguments KllSketchAccumulator T {L}.

(** ** Vectors written by the extraction paths

    A vector is its nulls buffer and its raw values; an array vector
    keeps an offset and a size per row into one shared elements buffer.
    Offsets and sizes are [vector_size_t] ([int32_t]).

    The nulls buffer is optional: [mayHaveNulls()] tells whether the
    vector has one.  It is kept here as the flags [isNullAt] reads,
    [true] for a null row.  Velox stores the flag of a row as a cleared
    bit ([bits::kNull] is 0, the value [extractAccumulators] fills the
    row nulls with), so [bits::clearBit] on the raw nulls raises the
    flag of the row. *)

Record FlatVector (V : Type) := {
  flat_nulls : option (list bool);
  flat_values : list V
}.

Arguments flat_nulls {V} _.
Arguments flat_values {V} _.

Record ArrayVector (V : Type) := {
  array_nulls : option (list bool);
  array_offsets : list Z;
  array_sizes : list Z;
  array_elements : list V
}.

Arguments array_nulls {V} _.
Arguments array_offsets {V} _.
Arguments array_sizes {V} _.
Arguments array_elements {V} _.

(** [ConstantVector<V>(pool, size, isNull, type, value)]; [None] is the
    null constant of [BaseVector::createNullConstant]. *)
Record ConstantVector (V : Type) := {
  constant_size : nat;
  constant_value : option V
}.

Arguments constant_size {V} _.
Arguments constant_value {V} _.

Definition createNullConstant {V} (size : nat) : ConstantVector V :=
  {| constant_size := size; constant_value := None |}.

Definition makeConstant {V} (size : nat) (isNull : bool) (value : V)
    : ConstantVector V :=
  {| constant_size := size;
     constant_value := if isNull then None else Some value |}.

(** [isNullAt(i)] read in a nulls buffer: no row of a vector without a
    buffer is null. *)
Definition nullAt (nulls : option (list bool)) (i : nat) : bool :=
  match nulls with
  | Some flags => nth i flags false
  | None => false
  end.

(** [BaseVector::resize] on the nulls buffer: a vector without a buffer
    stays without one, the rows added to a buffer are not null. *)
Definition resizeNulls (n : nat) (nulls : option (list bool))
    : option (list bool) :=
  match nulls with
  | Some flags => Some (resize n false flags)
  | None => None
  end.

(** [BaseVector::setNull(i, isNull)] on the nulls buffer of a vector of
    [size] rows: setting a null in a vector without a buffer allocates
    one with no row null; clearing a null there does nothing. *)
Definition setNullAt (size i : nat) (isNull : bool) (nulls : option (list bool))
    : option (list bool) :=
  match nulls with
  | Some flags => Some (<[i := isNull]> flags)
  | None => if isNull then Some (<[i := true]> (replicate size false)) else None
  end.

(** [bits::clearBit(rawNulls, i)], [rawNulls] being the vector's nulls
    buffer: the cleared bit is the flag of a null row. *)
Definition clearBit (i : nat) (nulls : option (list bool)) : option (list bool) :=
  match nulls with
  | Some flags => Some (<[i := true]> flags)
  | None => None
  end.

Section VectorOps.

Context {V : Type} `{!Inhabited V}.

Definition flat_size (v : FlatVector V) : nat := length (flat_values v).

Definition flat_mayHaveNulls (v : FlatVector V) : bool :=
  match flat_nulls v with
  | Some _ => true
  | None => false
  end.

Definition flat_resize (n : nat) (v : FlatVector V) : FlatVector V :=
  {| flat_nulls := resizeNulls n (flat_nulls v);
     flat_values := resize n inhabitant (flat_values v) |}.

Definition flat_setNull (i : nat) (isNull : bool) (v : FlatVector V)
    : FlatVector V :=
  {| flat_nulls := setNullAt (flat_size v) i isNull (flat_nulls v);
     flat_values := flat_values v |}.

Definition flat_clearBit (i : nat) (v : FlatVector V) : FlatVector V :=
  {| flat_nulls := clearBit i (flat_nulls v);
     flat_values := flat_values v |}.

(** [FlatVector::set]: stores the value and, when the vector has a nulls
    buffer, sets the row not null. *)
Definition flat_set (i : nat) (value : V) (v : FlatVector V) : FlatVector V :=
  {| flat_nulls := match flat_nulls v with
                   | Some _ => setNullAt (flat_size v) i false (flat_nulls v)
                   | None => None
                   end;
     flat_values := <[i := value]> (flat_values v) |}.

Definition array_size (v : ArrayVector V) : nat := length (array_offsets v).

Definition array_mayHaveNulls (v : ArrayVector V) : bool :=
  match array_nulls v with
  | Some _ => true
  | None => false
  end.

Definition array_resize (n : nat) (v : ArrayVector V) : ArrayVector V :=
  {| array_nulls := resizeNulls n (array_nulls v);
     array_offsets := resize n 0 (array_offsets v);
     array_sizes := resize n 0 (array_sizes v);
     array_elements := array_elements v |}.

Definition array_setNull (i : nat) (isNull : bool) (v : ArrayVector V)
    : ArrayVector V :=
  {| array_nulls := setNullAt (array_size v) i isNull (array_nulls v);
     array_offsets := array_offsets v;
     array_sizes := array_sizes v;
     array_elements := array_elements v |}.

Definition array_clearBit (i : nat) (v : ArrayVector V) : ArrayVector V :=
  {| array_nulls := clearBit i (array_nulls v);
     array_offsets := array_offsets v;
     array_sizes := array_sizes v;
     array_elements := array_elements v |}.

Definition array_setOffsetAndSize (i : nat) (offset size : Z)
    (v : ArrayVector V) : ArrayVector V :=
  {| array_nulls := array_nulls v;
     array_offsets := <[i := offset]> (array_offsets v);
     array_sizes := <[i := size]> (array_sizes v);
     array_elements := array_elements v |}.

(** [elements()->resize(n)] *)
Definition array_resizeElements (n : nat) (v : ArrayVector V) : ArrayVector V :=
  {| array_nulls := array_nulls v;
     array_offsets := array_offsets v;
     array_sizes := array_sizes v;
     array_elements := resize n inhabitant (array_elements v) |}.

(** Writing [src] into the elements buffer from position [pos] on
    ([std::copy] to [raw + pos], or an output pointer handed to the
    sketch). *)
Definition array_writeElements (pos : nat) (src : list V) (v : ArrayVector V)
    : ArrayVector V :=
  {| array_nulls := array_nulls v;
     array_offsets := array_offsets v;
     array_sizes := array_sizes v;
     array_elements := list_inserts pos src (array_elements v) |}.

(** The writes of a serialization loop on one array child, from row [i]
    and element position [pos] on: a row with a slice gets the slice
    copied at [pos] and its offset and size set; a row without one is
    passed over. *)
Fixpoint writeRows (slices : list (option (list V))) (i pos : nat)
    (v : ArrayVector V) : ArrayVector V :=
  match slices with
  | [] => v
  | None :: rest => writeRows rest (S i) pos v
  | Some src :: rest =>
      writeRows rest (S i) (pos + length src)
        (array_setOffsetAndSize i (to_int32 (Z.of_nat pos))
           (to_int32 (Z.of_nat (length src)))
           (array_writeElements pos src v))
  end.

(** The number of elements of the slices of the rows before row [i]. *)
Fixpoint elementsBefore (slices : list (option (list V))) (i : nat) : nat :=
  match i, slices with
  | S i', Some src :: rest => (length src + elementsBefore rest i')%nat
  | S i', None :: rest => elementsBefore rest i'
  | _, _ => 0%nat
  end.

End VectorOps.

(** ** The percentile argument

    [checkSetPercentile(rows, vec)] decodes the argument, then reads its
    base vector: the type kind, value equality of two base rows and, for
    an array base, the decoded elements vector with each row's offset and
    size. *)

Inductive PercentileBase :=
| DoubleBase
| ArrayBase (elements : DecodedVector double) (offsetAt sizeAt : nat -> nat)
| OtherBase.

Record PercentileVector := {
  pv_decoded : DecodedVector double;
  pv_base : PercentileBase;
  pv_equalValueAt : nat -> nat -> bool
}.

(** ** The aggregate *)

Section Aggregate.

Context {T : Type} `{!Inhabited T} {L : kll.Library T}.

Record Percentiles := {
  values : list double;
  isArray : bool
}.

Definition kMissingNormalizedValue : double := (-1)%float.

Record ApproxPercentileAggregate := {
  hasWeight_ : bool;
  hasAccuracy_ : bool;
  fixedRandomSeed_ : option N;
  percentiles_ : option Percentiles;
  accuracy_ : double;
  decodedValue_ : DecodedVector T;
  decodedWeight_ : DecodedVector Z;
  decodedAccuracy_ : DecodedVector double
}.

Definition newApproxPercentileAggregate (hasWeight hasAccuracy : bool)
    (fixedRandomSeed : option N) : ApproxPercentileAggregate :=
  {| hasWeight_ := hasWeight;
     hasAccuracy_ := hasAccuracy;
     fixedRandomSeed_ := fixedRandomSeed;
     percentiles_ := None;
     accuracy_ := kMissingNormalizedValue;
     decodedValue_ := decodeFlat inhabitant [];
     decodedWeight_ := decodeFlat 0 [];
     decodedAccuracy_ := decodeFlat 0%float [] |}.

Definition set_percentiles_ (p : Percentiles) (this : ApproxPercentileAggregate)
    : ApproxPercentileAggregate :=
  {| hasWeight_ := hasWeight_ this;
     hasAccuracy_ := hasAccuracy_ this;
     fixedRandomSeed_ := fixedRandomSeed_ this;
     percentiles_ := Some p;
     accuracy_ := accuracy_ this;
     decodedValue_ := decodedValue_ this;
     decodedWeight_ := decodedWeight_ this;
     decodedAccuracy_ := decodedAccuracy_ this |}.

Definition set_accuracy_ (accuracy : double) (this : ApproxPercentileAggregate)
    : ApproxPercentileAggregate :=
  {| hasWeight_ := hasWeight_ this;
     hasAccuracy_ := hasAccuracy_ this;
     fixedRandomSeed_ := fixedRandomSeed_ this;
     percentiles_ := percentiles_ this;
     accuracy_ := accuracy;
     decodedValue_ := decodedValue_ this;
     decodedWeight_ := decodedWeight_ this;
     decodedAccuracy_ := decodedAccuracy_ this |}.

Definition set_decoded (value : DecodedVector T) (weight : DecodedVector Z)
    (accuracy : DecodedVector double) (this : ApproxPercentileAggregate)
    : ApproxPercentileAggregate :=
  {| hasWeight_ := hasWeight_ this;
     hasAccuracy_ := hasAccuracy_ this;
     fixedRandomSeed_ := fixedRandomSeed_ this;
     percentiles_ := percentiles_ this;
     accuracy_ := accuracy_ this;
     decodedValue_ := value;
     decodedWeight_ := weight;
     decodedAccuracy_ := accuracy |}.

(** *** Groups

    The accumulators live in the row container; a group pointer is a slot
    of it.  [groups[row]] may name the same slot for several rows. *)

Abbreviation RowContainer := (list (KllSketchAccumulator T)).

(** [value<KllSketchAccumulator<T>>(group)] *)
Definition value (store : RowContainer) (group : nat)
    : Result (KllSketchAccumulator T) :=
  match store !! group with
  | Some accumulator => Ok accumulator
  | None => Failed (RuntimeError "group pointer outside the row container")
  end.

(** [groups[row]] *)
Definition groupAt (groups : list nat) (row : nat) : Result nat :=
  match groups !! row with
  | Some group => Ok group
  | None => Failed (RuntimeError "row outside the groups array")
  end.

(** *** Weights *)

Definition kMaxWeight : Z := Z.shiftl 1 60 - 1.

Definition checkWeight (weight : Z) : Result unit :=
  VELOX_USER_CHECK ((1 <=? weight) && (weight <=? kMaxWeight))
    "approx_percentile: weight must be in range [1, 1152921504606846975]".

(** *** Percentile resolution *)

(** The loop of the branch that sets [percentiles_]: iterations
    [i, i+1, ...], [count] of them.  The null bit is read at [i], the
    value at [offset + i]. *)
Fixpoint readPercentiles (percentiles : DecodedVector double)
    (offset i count : nat) : Result (list double) :=
  match count with
  | O => Ok []
  | S count' =>
      _ ← VELOX_USER_CHECK (negb (isNullAt percentiles i)) "Percentile cannot be null";
      let value := valueAt percentiles (offset + i) in
      _ ← VELOX_USER_CHECK (0 <=? value)%float "Percentile must be between 0 and 1";
      _ ← VELOX_USER_CHECK (value <=? 1)%float "Percentile must be between 0 and 1";
      rest ← readPercentiles percentiles offset (S i) count';
      Ok (value :: rest)
  end.

(** The loop of the branch that compares with [percentiles_]: [stored] is
    [percentiles_->values] from index [i] on. *)
Fixpoint comparePercentiles (percentiles : DecodedVector double)
    (offset i : nat) (stored : list double) : Result unit :=
  match stored with
  | [] => Ok tt
  | v :: stored' =>
      _ ← VELOX_USER_CHECK (valueAt percentiles (offset + i) =? v)%float
            "Percentile argument must be constant for all input rows";
      comparePercentiles percentiles offset (S i) stored'
  end.

(** [checkSetPercentile(isArray, percentiles, offset, len)] *)
Definition checkSetPercentile (isArray' : bool)
    (percentiles : DecodedVector double) (offset len : nat)
    (this : ApproxPercentileAggregate) : Result ApproxPercentileAggregate :=
  match percentiles_ this with
  | None =>
      _ ← VELOX_USER_CHECK (0 <? len)%nat "Percentile cannot be empty";
      vs ← readPercentiles percentiles offset 0 len;
      Ok (set_percentiles_ {| values := vs; isArray := isArray' |} this)
  | Some p =>
      _ ← VELOX_USER_CHECK (Bool.eqb isArray' (isArray p))
            "Percentile argument must be constant for all input rows";
      _ ← VELOX_USER_CHECK (len =? length (values p))%nat
            "Percentile argument must be constant for all input rows";
      _ ← comparePercentiles percentiles offset 0 (values p);
      Ok this
  end.

(** The per-row check of a percentile argument that is not constant-encoded. *)
Definition checkPercentileRow (vec : PercentileVector) (baseFirstRow : nat)
    (row : nat) (u : unit) : Result unit :=
  _ ← VELOX_USER_CHECK (negb (isNullAt (pv_decoded vec) row)) "Percentile cannot be null";
  let baseRow := index (pv_decoded vec) row in
  VELOX_USER_CHECK (pv_equalValueAt vec baseRow baseFirstRow)
    "Percentile argument must be constant for all input rows".

(** [checkSetPercentile(rows, vec)] *)
Definition checkSetPercentileVector (rows : SelectivityVector)
    (vec : PercentileVector) (this : ApproxPercentileAggregate)
    : Result ApproxPercentileAggregate :=
  let decoded := pv_decoded vec in
  let baseFirstRow := index decoded (sv_begin rows) in
  _ ← (if negb (isConstantMapping decoded)
       then applyToSelected rows (checkPercentileRow vec baseFirstRow) tt
       else Ok tt);
  match pv_base vec with
  | DoubleBase => checkSetPercentile false decoded (sv_begin rows) 1 this
  | ArrayBase elements offsetAt sizeAt =>
      checkSetPercentile true elements (offsetAt baseFirstRow) (sizeAt baseFirstRow) this
  | OtherBase => Failed (UserError "Incorrect type for percentile")
  end.

(** *** Accuracy resolution *)

Definition accuracyInRange (accuracy : double) : bool :=
  (0 <? accuracy)%float && (accuracy <=? 1)%float.

(** [checkSetAccuracy(double accuracy)] *)
Definition checkSetAccuracy (accuracy : double)
    (this : ApproxPercentileAggregate) : Result ApproxPercentileAggregate :=
  _ ← VELOX_USER_CHECK (accuracyInRange accuracy) "Accuracy must be between 0 and 1";
  if (accuracy_ this =? kMissingNormalizedValue)%float
  then Ok (set_accuracy_ accuracy this)
  else
    _ ← VELOX_USER_CHECK (accuracy =? accuracy_ this)%float
          "Accuracy argument must be constant for all input rows";
    Ok this.

(** The per-row check of an accuracy argument that is not constant-encoded. *)
Definition checkAccuracyRow (row : nat) (this : ApproxPercentileAggregate)
    : Result ApproxPercentileAggregate :=
  _ ← VELOX_USER_CHECK (negb (isNullAt (decodedAccuracy_ this) row))
        "Accuracy cannot be null";
  let accuracy := valueAt (decodedAccuracy_ this) row in
  this ← (if (accuracy_ this =? kMissingNormalizedValue)%float
          then checkSetAccuracy accuracy this
          else Ok this);
  _ ← VELOX_USER_CHECK (accuracy =? accuracy_ this)%float
        "Accuracy argument must be constant for all input rows";
  Ok this.

(** [checkSetAccuracy(const SelectivityVector& rows)] *)
Definition checkSetAccuracyRows (rows : SelectivityVector)
    (this : ApproxPercentileAggregate) : Result ApproxPercentileAggregate :=
  if negb (hasAccuracy_ this) then Ok this
  else if isConstantMapping (decodedAccuracy_ this) then
    _ ← VELOX_USER_CHECK (negb (isNullAt (decodedAccuracy_ this) 0))
          "Accuracy cannot be null";
    checkSetAccuracy (valueAt (decodedAccuracy_ this) 0) this
  else applyToSelected rows checkAccuracyRow this.

(** [accuracy_] holds a resolved value: it is not the sentinel. *)
Definition accuracyIsSet (this : ApproxPercentileAggregate) : bool :=
  negb (accuracy_ this =? kMissingNormalizedValue)%float.

(** A resolved accuracy lies in (0, 1]. *)
Definition accuracyInvariant (this : ApproxPercentileAggregate) : Prop :=
  accuracyIsSet this = true -> accuracyInRange (accuracy_ this) = true.

(** The accuracy the selected rows are held to: the one resolved before
    or, failing that, the value of the first selected row. *)
Definition resolvedAccuracy (this : ApproxPercentileAggregate)
    (rows : SelectivityVector) : double :=
  if accuracyIsSet this then accuracy_ this
  else valueAt (decodedAccuracy_ this) (sv_begin rows).

(** The row's accuracy is null, lies outside (0, 1] or differs from
    [resolved]. *)
Definition accuracyViolationAt (this : ApproxPercentileAggregate)
    (resolved : double) (row : nat) : bool :=
  isNullAt (decodedAccuracy_ this) row
  || negb (accuracyInRange (valueAt (decodedAccuracy_ this) row))
  || negb (valueAt (decodedAccuracy_ this) row =? resolved)%float.

(** *** Raw input *)

(** An argument vector, by the column it carries; the payload is what
    decoding it over the selected rows yields. *)
Inductive VectorPtr :=
| ValueVector (decoded : DecodedVector T)
| WeightVector (decoded : DecodedVector Z)
| PercentileArgument (vec : PercentileVector)
| AccuracyVector (decoded : DecodedVector double).

Definition decodeArguments (rows : SelectivityVector) (args : list VectorPtr)
    (this : ApproxPercentileAggregate) : Result ApproxPercentileAggregate :=
  let argIndex := 0%nat in
  decodedValue ← match args !! argIndex with
                 | Some (ValueVector d) => Ok d
                 | _ => Failed (RuntimeError "args: value column expected")
                 end;
  let argIndex := S argIndex in
  '(decodedWeight, argIndex) ←
    (if hasWeight_ this
     then match args !! argIndex with
          | Some (WeightVector d) => Ok (d, S argIndex)
          | _ => Failed (RuntimeError "args: weight column expected")
          end
     else Ok (decodedWeight_ this, argIndex));
  let this := set_decoded decodedValue decodedWeight (decodedAccuracy_ this) this in
  vec ← match args !! argIndex with
        | Some (PercentileArgument vec) => Ok vec
        | _ => Failed (RuntimeError "args: percentile column expected")
        end;
  this ← checkSetPercentileVector rows vec this;
  let argIndex := S argIndex in
  '(this, argIndex) ←
    (if hasAccuracy_ this
     then match args !! argIndex with
          | Some (AccuracyVector d) =>
              let this := set_decoded (decodedValue_ this) (decodedWeight_ this) d this in
              this ← checkSetAccuracyRows rows this;
              Ok (this, S argIndex)
          | _ => Failed (RuntimeError "args: accuracy column expected")
          end
     else Ok (this, argIndex));
  _ ← VELOX_CHECK (argIndex =? length args)%nat "argIndex == args.size()";
  Ok this.

Definition initRawAccumulator (this : ApproxPercentileAggregate)
    (group : nat) (store : RowContainer) : Result RowContainer :=
  accumulator ← value store group;
  if negb (accuracy_ this =? kMissingNormalizedValue)%float
  then Ok (<[group := setAccuracy (accuracy_ this) accumulator]> store)
  else Ok store.

(** The row lambda of [addRawInput] when [hasWeight_]. *)
Definition addRawInputWeightedRow (this : ApproxPercentileAggregate)
    (groups : list nat) (row : nat) (store : RowContainer) : Result RowContainer :=
  if isNullAt (decodedValue_ this) row || isNullAt (decodedWeight_ this) row
  then Ok store
  else
    group ← groupAt groups row;
    store ← initRawAccumulator this group store;
    accumulator ← value store group;
    let value := valueAt (decodedValue_ this) row in
    let weight := valueAt (decodedWeight_ this) row in
    _ ← checkWeight weight;
    Ok (<[group := appendCount value weight (fixedRandomSeed_ this) accumulator]> store).

(** The row lambda without weights, for a value column that may have nulls. *)
Definition addRawInputNullableRow (this : ApproxPercentileAggregate)
    (groups : list nat) (row : nat) (store : RowContainer) : Result RowContainer :=
  if isNullAt (decodedValue_ this) row
  then Ok store
  else
    group ← groupAt groups row;
    store ← initRawAccumulator this group store;
    accumulator ← value store group;
    Ok (<[group := append (valueAt (decodedValue_ this) row) accumulator]> store).

(** The row lambda without weights, for a value column without nulls. *)
Definition addRawInputRow (this : ApproxPercentileAggregate)
    (groups : list nat) (row : nat) (store : RowContainer) : Result RowContainer :=
  group ← groupAt groups row;
  store ← initRawAccumulator this group store;
  accumulator ← value store group;
  Ok (<[group := append (valueAt (decodedValue_ this) row) accumulator]> store).

(** The row walk of [addRawInput], after [decodeArguments]. *)
Definition addRawInputRows (this : ApproxPercentileAggregate)
    (groups : list nat) (rows : SelectivityVector) (store : RowContainer)
    : Result RowContainer :=
  if hasWeight_ this then
    applyToSelected rows (addRawInputWeightedRow this groups) store
  else if mayHaveNulls (decodedValue_ this) then
    applyToSelected rows (addRawInputNullableRow this groups) store
  else
    applyToSelected rows (addRawInputRow this groups) store.

Definition addRawInput (groups : list nat) (rows : SelectivityVector)
    (args : list VectorPtr) (this : ApproxPercentileAggregate)
    (store : RowContainer) : Result (ApproxPercentileAggregate * RowContainer) :=
  this ← decodeArguments rows args this;
  store ← addRawInputRows this groups rows store;
  Ok (this, store).

(** The row lambda that [addRawInput] runs. *)
Definition rawInputRow (this : ApproxPercentileAggregate)
    (groups : list nat) : nat -> RowContainer -> Result RowContainer :=
  if hasWeight_ this then addRawInputWeightedRow this groups
  else if mayHaveNulls (decodedValue_ this) then addRawInputNullableRow this groups
  else addRawInputRow this groups.

(** The row's value is null or, with weights, its weight is. *)
Definition rowIsNull (this : ApproxPercentileAggregate) (row : nat) : bool :=
  isNullAt (decodedValue_ this) row
  || (hasWeight_ this && isNullAt (decodedWeight_ this) row).

(** Every selected row has a group pointer, and it points into the row
    container. *)
Definition validGroups (groups : list nat) (rows : SelectivityVector)
    (store : RowContainer) : bool :=
  forallb (fun row => match groups !! row with
                      | Some group => (group <? length store)%nat
                      | None => false
                      end) rows.

(** The row is not null and its weight lies outside [1, 2^60 - 1]. *)
Definition weightOutOfRangeAt (this : ApproxPercentileAggregate) (row : nat) : Prop :=
  isNullAt (decodedValue_ this) row = false
  /\ isNullAt (decodedWeight_ this) row = false
  /\ ~ (1 <= valueAt (decodedWeight_ this) row <= 2 ^ 60 - 1).

(** *** Raw input for a single group *)

(** The row lambda of [addSingleGroupRawInput] when [hasWeight_]; the
    state is the accumulator the [accumulator] pointer names. *)
Definition addSingleGroupWeightedRow (this : ApproxPercentileAggregate)
    (row : nat) (accumulator : KllSketchAccumulator T)
    : Result (KllSketchAccumulator T) :=
  if isNullAt (decodedValue_ this) row || isNullAt (decodedWeight_ this) row
  then Ok accumulator
  else
    let value := valueAt (decodedValue_ this) row in
    let weight := valueAt (decodedWeight_ this) row in
    _ ← checkWeight weight;
    Ok (appendCount value weight (fixedRandomSeed_ this) accumulator).

(** The row lambda without weights, for a value column that may have nulls. *)
Definition addSingleGroupNullableRow (this : ApproxPercentileAggregate)
    (row : nat) (accumulator : KllSketchAccumulator T)
    : Result (KllSketchAccumulator T) :=
  if isNullAt (decodedValue_ this) row
  then Ok accumulator
  else Ok (append (valueAt (decodedValue_ this) row) accumulator).

(** The row lambda without weights, for a value column without nulls. *)
Definition addSingleGroupRow (this : ApproxPercentileAggregate)
    (row : nat) (accumulator : KllSketchAccumulator T)
    : Result (KllSketchAccumulator T) :=
  Ok (append (valueAt (decodedValue_ this) row) accumulator).

(** [addSingleGroupRawInput] after [decodeArguments]: the accumulator is
    initialized once, before the rows are walked. *)
Definition addSingleGroupRawInputRows (this : ApproxPercentileAggregate)
    (group : nat) (rows : SelectivityVector) (store : RowContainer)
    : Result RowContainer :=
  store ← initRawAccumulator this group store;
  accumulator ← value store group;
  accumulator ←
    (if hasWeight_ this then
       applyToSelected rows (addSingleGroupWeightedRow this) accumulator
     else if mayHaveNulls (decodedValue_ this) then
       applyToSelected rows (addSingleGroupNullableRow this) accumulator
     else
       applyToSelected rows (addSingleGroupRow this) accumulator);
  Ok (<[group := accumulator]> store).

Definition addSingleGroupRawInput (group : nat) (rows : SelectivityVector)
    (args : list VectorPtr) (this : ApproxPercentileAggregate)
    (store : RowContainer) : Result (ApproxPercentileAggregate * RowContainer) :=
  this ← decodeArguments rows args this;
  store ← addSingleGroupRawInputRows this group rows store;
  Ok (this, store).

(** The row lambda that [addSingleGroupRawInput] runs. *)
Definition singleGroupRow (this : ApproxPercentileAggregate)
    : nat -> KllSketchAccumulator T -> Result (KllSketchAccumulator T) :=
  if hasWeight_ this then addSingleGroupWeightedRow this
  else if mayHaveNulls (decodedValue_ this) then addSingleGroupNullableRow this
  else addSingleGroupRow this.

(** What a row that is not null does to the accumulator of its group in
    [addRawInput]: the accuracy is applied when one is bound, then the
    value is appended. *)
Definition rowUpdate (this : ApproxPercentileAggregate) (row : nat)
    (accumulator : KllSketchAccumulator T) : KllSketchAccumulator T :=
  let accumulator :=
    if accuracyIsSet this then setAccuracy (accuracy_ this) accumulator
    else accumulator in
  if hasWeight_ this then
    appendCount (valueAt (decodedValue_ this) row)
      (valueAt (decodedWeight_ this) row) (fixedRandomSeed_ this) accumulator
  else append (valueAt (decodedValue_ this) row) accumulator.

(** The selected rows of a group that are not null, in row order. *)
Definition rowsOfGroup (this : ApproxPercentileAggregate) (groups : list nat)
    (rows : SelectivityVector) (group : nat) : list nat :=
  List.filter
    (fun row =>
       negb (rowIsNull this row)
       && match groups !! row with
          | Some group' => (group' =? group)%nat
          | None => false
          end)
    rows.

(** A percentile within [0, 1]. *)
Definition percentileInRange (percentile : double) : bool :=
  (0 <=? percentile)%float && (percentile <=? 1)%float.

(** Bound percentiles are not empty and lie in [0, 1]. *)
Definition percentilesInvariant (this : ApproxPercentileAggregate) : Prop :=
  forall p, percentiles_ this = Some p ->
    values p <> []
    /\ Forall (fun percentile => percentileInRange percentile = true) (values p).

(** What one step of resolution may do to the operator: nothing, or
    bind an accuracy of (0, 1] where none was bound. *)
Definition accuracyStep (this this' : ApproxPercentileAggregate) : Prop :=
  this' = this
  \/ (accuracyIsSet this = false
      /\ exists accuracy,
           accuracyInRange accuracy = true /\ this' = set_accuracy_ accuracy this).

(** The fields resolution never writes. *)
Definition sameConfiguration (this this' : ApproxPercentileAggregate) : Prop :=
  hasWeight_ this' = hasWeight_ this
  /\ hasAccuracy_ this' = hasAccuracy_ this
  /\ fixedRandomSeed_ this' = fixedRandomSeed_ this.

(** What a call may do to the query-scope constants: bound percentiles
    and a bound accuracy stay as they are; what gets bound satisfies the
    range invariants. *)
Definition constantsPreserved (this this' : ApproxPercentileAggregate) : Prop :=
  sameConfiguration this this'
  /\ (forall p, percentiles_ this = Some p -> percentiles_ this' = Some p)
  /\ (accuracyIsSet this = true ->
      accuracy_ this' = accuracy_ this)
  /\ (percentilesInvariant this -> percentilesInvariant this')
  /\ (accuracyInvariant this -> accuracyInvariant this').

(** [initializeNewGroupsInternal]: a fresh accumulator in every slot named. *)
Definition initializeNewGroups (this : ApproxPercentileAggregate)
    (indices : list nat) (store : RowContainer) : RowContainer :=
  fold_left
    (fun store group =>
       <[group := newKllSketchAccumulator (fixedRandomSeed_ this)]> store)
    indices store.

(** *** Extraction of the final values *)

(** The calls made on the sketches while extracting, in order. *)
Inductive QuantileCall :=
| EstimateQuantile (digest : kll.KllSketch StlAllocator) (percentile : double)
| EstimateQuantiles (digest : kll.KllSketch StlAllocator) (percentiles : list double).

Definition callDigest (call : QuantileCall) : kll.KllSketch StlAllocator :=
  match call with
  | EstimateQuantile digest _ => digest
  | EstimateQuantiles digest _ => digest
  end.

(** The result vector handed to [extractValues]. *)
Inductive ResultVector :=
| NullConstantResult (size : nat)
| FlatResult (v : FlatVector T)
| ArrayResult (v : ArrayVector T).

(** The first loop of [extractValues]. *)
Fixpoint flushGroups (fixedRandomSeed : option N) (groups : list nat)
    (store : RowContainer) : Result RowContainer :=
  match groups with
  | [] => Ok store
  | group :: rest =>
      accumulator ← value store group;
      flushGroups fixedRandomSeed rest (<[group := flush fixedRandomSeed accumulator]> store)
  end.

(** The loop of [extract], from group number [i] on.  [R] is the result
    vector together with what the extract function captures by
    reference; [rawNulls] tells whether the pointer taken before the
    loop is set, [clearBit] is [bits::clearBit] on it. *)
Fixpoint extractLoop {R : Type} (setNull : nat -> R -> R)
    (rawNulls : bool) (clearBit : nat -> R -> R)
    (extractFunction : kll.KllSketch StlAllocator -> nat -> R -> R)
    (store : RowContainer) (groups : list nat) (i : nat) (result : R) : Result R :=
  match groups with
  | [] => Ok result
  | group :: rest =>
      accumulator ← value store group;
      if (kll.totalCount (getSketch accumulator) =? 0)%N
      then extractLoop setNull rawNulls clearBit extractFunction store rest (S i)
             (setNull i result)
      else extractLoop setNull rawNulls clearBit extractFunction store rest (S i)
             (extractFunction (getSketch accumulator) i
                (if rawNulls then clearBit i result else result))
  end.

Definition extract {R : Type} (resize : nat -> R -> R)
    (mayHaveNulls : R -> bool)
    (setNull : nat -> R -> R) (clearBit : nat -> R -> R)
    (extractFunction : kll.KllSketch StlAllocator -> nat -> R -> R)
    (store : RowContainer) (groups : list nat) (result : R) : Result R :=
  let result := resize (length groups) result in
  let rawNulls := mayHaveNulls result in
  extractLoop setNull rawNulls clearBit extractFunction store groups 0 result.

(** The array result with the captures of its extract function:
    [elementsCount] and the calls made so far. *)
Record ArrayExtract := {
  ae_result : ArrayVector T;
  ae_elementsCount : Z;
  ae_calls : list QuantileCall
}.

Definition ae_map (f : ArrayVector T -> ArrayVector T) (r : ArrayExtract)
    : ArrayExtract :=
  {| ae_result := f (ae_result r);
     ae_elementsCount := ae_elementsCount r;
     ae_calls := ae_calls r |}.

Definition arrayExtractFunction (percentiles : list double)
    (digest : kll.KllSketch StlAllocator) (index : nat) (r : ArrayExtract)
    : ArrayExtract :=
  let size := Z.of_nat (length percentiles) in
  let result :=
    array_writeElements (Z.to_nat (ae_elementsCount r))
      (kll.estimateQuantiles digest percentiles) (ae_result r) in
  let result := array_setOffsetAndSize index (ae_elementsCount r) (to_int32 size) result in
  let result := array_setNull index false result in
  {| ae_result := result;
     ae_elementsCount := to_int32 (ae_elementsCount r + size);
     ae_calls := ae_calls r ++ [EstimateQuantiles digest percentiles] |}.

(** The flat result with the calls made so far. *)
Record FlatExtract := {
  fe_result : FlatVector T;
  fe_calls : list QuantileCall
}.

Definition fe_map (f : FlatVector T -> FlatVector T) (r : FlatExtract)
    : FlatExtract :=
  {| fe_result := f (fe_result r); fe_calls := fe_calls r |}.

Definition flatExtractFunction (percentiles : list double)
    (digest : kll.KllSketch StlAllocator) (index : nat) (r : FlatExtract)
    : FlatExtract :=
  let percentile := List.last percentiles 0%float in
  {| fe_result := flat_set index (kll.estimateQuantile digest percentile) (fe_result r);
     fe_calls := fe_calls r ++ [EstimateQuantile digest percentile] |}.

(** The counting loop of the array branch. *)
Fixpoint countElements (store : RowContainer) (groups : list nat)
    (size : Z) (elementsCount : Z) : Result Z :=
  match groups with
  | [] => Ok elementsCount
  | group :: rest =>
      accumulator ← value store group;
      if (0 <? kll.totalCount (getSketch accumulator))%N
      then countElements store rest size (to_int32 (elementsCount + size))
      else countElements store rest size elementsCount
  end.

Definition extractValues (groups : list nat) (result : ResultVector)
    (this : ApproxPercentileAggregate) (store : RowContainer)
    : Result (RowContainer * ResultVector * list QuantileCall) :=
  store ← flushGroups (fixedRandomSeed_ this) groups store;
  match percentiles_ this with
  | None => Ok (store, NullConstantResult (length groups), [])
  | Some p =>
      if isArray p then
        match result with
        | ArrayResult arrayResult =>
            elementsCount ← countElements store groups (Z.of_nat (length (values p))) 0;
            let arrayResult := array_resizeElements (Z.to_nat elementsCount) arrayResult in
            r ← extract (fun n => ae_map (array_resize n))
                  (fun r => array_mayHaveNulls (ae_result r))
                  (fun i => ae_map (array_setNull i true))
                  (fun i => ae_map (array_clearBit i))
                  (arrayExtractFunction (values p)) store groups
                  {| ae_result := arrayResult; ae_elementsCount := 0; ae_calls := [] |};
            Ok (store, ArrayResult (ae_result r), ae_calls r)
        | _ => Failed (RuntimeError "result is not an ArrayVector")
        end
      else
        match result with
        | FlatResult flatResult =>
            r ← extract (fun n => fe_map (flat_resize n))
                  (fun r => flat_mayHaveNulls (fe_result r))
                  (fun i => fe_map (flat_setNull i true))
                  (fun i => fe_map (flat_clearBit i))
                  (flatExtractFunction (values p)) store groups
                  {| fe_result := flatResult; fe_calls := [] |};
            Ok (store, FlatResult (fe_result r), fe_calls r)
        | _ => Failed (RuntimeError "result is not a FlatVector")
        end
  end.

(** The null bit of row [i] of an extracted result. *)
Definition resultIsNullAt (result : ResultVector) (i : nat) : option bool :=
  match result with
  | NullConstantResult size => if (i <? size)%nat then Some true else None
  | FlatResult v =>
      if (i <? flat_size v)%nat then Some (nullAt (flat_nulls v) i) else None
  | ArrayResult v =>
      if (i <? array_size v)%nat then Some (nullAt (array_nulls v) i) else None
  end.

(** Every group pointer points into the row container. *)
Definition groupsInContainer (groups : list nat) (store : RowContainer) : bool :=
  forallb (fun group => (group <? length store)%nat) groups.

(** The result vector has the class the branch of [extractValues] casts
    it to. *)
Definition resultFitsPercentiles (this : ApproxPercentileAggregate)
    (result : ResultVector) : bool :=
  match percentiles_ this with
  | None => true
  | Some p =>
      match result with
      | ArrayResult _ => isArray p
      | FlatResult _ => negb (isArray p)
      | NullConstantResult _ => false
      end
  end.

(** The call the extract function makes on a digest. *)
Definition quantileCall (p : Percentiles) (digest : kll.KllSketch StlAllocator)
    : QuantileCall :=
  if isArray p then EstimateQuantiles digest (values p)
  else EstimateQuantile digest (List.last (values p) 0%float).

(** One call per group with a positive total count, in group order. *)
Fixpoint quantileCalls (p : Percentiles) (store : RowContainer)
    (groups : list nat) : list QuantileCall :=
  match groups with
  | [] => []
  | group :: rest =>
      match store !! group with
      | Some accumulator =>
          if (kll.totalCount (sketch_ accumulator) =? 0)%N
          then quantileCalls p store rest
          else quantileCall p (sketch_ accumulator) :: quantileCalls p store rest
      | None => []
      end
  end.

(** *** Extraction of the intermediate rows *)

(** Conversion to [int64_t]. *)
Definition to_int64 (z : Z) : Z := (z + 2 ^ 63) mod 2 ^ 64 - 2 ^ 63.

(** The row vector of the intermediate type, by its children
    [kPercentiles] ... [kLevels]; its size is the length of [row_nulls]. *)
Record RowVector := {
  row_nulls : list bool;
  child_kPercentiles : ConstantVector (list double);
  child_kPercentilesIsArray : ConstantVector bool;
  child_kAccuracy : ConstantVector double;
  child_kK : FlatVector Z;
  child_kN : FlatVector Z;
  child_kMinValue : FlatVector T;
  child_kMaxValue : FlatVector T;
  child_kItems : ArrayVector T;
  child_kLevels : ArrayVector Z
}.

Definition row_size (r : RowVector) : nat := length (row_nulls r).

Definition row_setNull (i : nat) (isNull : bool) (r : RowVector) : RowVector :=
  {| row_nulls := <[i := isNull]> (row_nulls r);
     child_kPercentiles := child_kPercentiles r;
     child_kPercentilesIsArray := child_kPercentilesIsArray r;
     child_kAccuracy := child_kAccuracy r;
     child_kK := child_kK r;
     child_kN := child_kN r;
     child_kMinValue := child_kMinValue r;
     child_kMaxValue := child_kMaxValue r;
     child_kItems := child_kItems r;
     child_kLevels := child_kLevels r |}.

(** [rowResult->ensureWritable(SelectivityVector{numGroups})] belongs to
    the vector classes; it is taken as given. *)
Variable ensureWritable : nat -> RowVector -> RowVector.

(** The loop that fills [sketches]: [compact] on every group, in order. *)
Fixpoint compactGroups (fixedRandomSeed : option N) (groups : list nat)
    (store : RowContainer)
    : Result (list (kll.KllSketch StdAllocator) * RowContainer) :=
  match groups with
  | [] => Ok ([], store)
  | group :: rest =>
      accumulator ← value store group;
      let '(sketch, accumulator) := compact fixedRandomSeed accumulator in
      '(sketches, store) ← compactGroups fixedRandomSeed rest (<[group := accumulator]> store);
      Ok (sketch :: sketches, store)
  end.

(** The counting loop: [itemsCount] is a [size_t], [levelsCount] a
    [vector_size_t]. *)
Fixpoint countItemsAndLevels (sketches : list (kll.KllSketch StdAllocator))
    (itemsCount : nat) (levelsCount : Z) : nat * Z :=
  match sketches with
  | [] => (itemsCount, levelsCount)
  | sketch :: rest =>
      let v := kll.toView sketch in
      countItemsAndLevels rest
        (itemsCount + length (kll.view_items v))%nat
        (to_int32 (levelsCount + Z.of_nat (length (kll.view_levels v))))
  end.

(** The row vector under construction with the two running counters. *)
Record Serialization := {
  ser_rowResult : RowVector;
  ser_itemsCount : nat;
  ser_levelsCount : Z
}.

(** One iteration of the serialization loop. *)
Definition serializeSketch (i : nat) (v : kll.View T) (s : Serialization)
    : Serialization :=
  let r := ser_rowResult s in
  if (kll.view_n v =? 0)%N then
    {| ser_rowResult := row_setNull i true r;
       ser_itemsCount := ser_itemsCount s;
       ser_levelsCount := ser_levelsCount s |}
  else
    let itemsCount := ser_itemsCount s in
    let levelsCount := ser_levelsCount s in
    let itemsSize := length (kll.view_items v) in
    let levelsSize := length (kll.view_levels v) in
    let items := array_writeElements itemsCount (kll.view_items v) (child_kItems r) in
    let items :=
      array_setOffsetAndSize i (to_int32 (Z.of_nat itemsCount))
        (to_int32 (Z.of_nat itemsSize)) items in
    let levels :=
      array_writeElements (Z.to_nat levelsCount)
        (map (fun l => to_int32 (Z.of_N l)) (kll.view_levels v)) (child_kLevels r) in
    let levels :=
      array_setOffsetAndSize i levelsCount (to_int32 (Z.of_nat levelsSize)) levels in
    {| ser_rowResult :=
         {| row_nulls := <[i := false]> (row_nulls r);
            child_kPercentiles := child_kPercentiles r;
            child_kPercentilesIsArray := child_kPercentilesIsArray r;
            child_kAccuracy := child_kAccuracy r;
            child_kK := flat_set i (to_int32 (Z.of_N (kll.view_k v))) (child_kK r);
            child_kN := flat_set i (to_int64 (Z.of_N (kll.view_n v))) (child_kN r);
            child_kMinValue := flat_set i (kll.view_minValue v) (child_kMinValue r);
            child_kMaxValue := flat_set i (kll.view_maxValue v) (child_kMaxValue r);
            child_kItems := items;
            child_kLevels := levels |};
       ser_itemsCount := (itemsCount + itemsSize)%nat;
       ser_levelsCount := to_int32 (levelsCount + Z.of_nat levelsSize) |}.

(** The serialization loop, from sketch number [i] on. *)
Fixpoint serializeSketches (sketches : list (kll.KllSketch StdAllocator))
    (i : nat) (s : Serialization) : Serialization :=
  match sketches with
  | [] => s
  | sketch :: rest =>
      serializeSketches rest (S i) (serializeSketch i (kll.toView sketch) s)
  end.

(** The branch taken when [percentiles_] is unset. *)
Definition extractNullAccumulators (numGroups : nat) (rowResult : RowVector)
    : RowVector :=
  let r := ensureWritable numGroups rowResult in
  {| row_nulls := replicate (row_size r) true;
     child_kPercentiles := createNullConstant numGroups;
     child_kPercentilesIsArray := createNullConstant numGroups;
     child_kAccuracy := createNullConstant numGroups;
     child_kK := child_kK r;
     child_kN := child_kN r;
     child_kMinValue := child_kMinValue r;
     child_kMaxValue := child_kMaxValue r;
     child_kItems := child_kItems r;
     child_kLevels := child_kLevels r |}.

(** The row vector before the serialization loop: the three constant
    children set, every child resized to [numGroups], the element buffers
    resized to the two counts. *)
Definition prepareRowResult (this : ApproxPercentileAggregate) (p : Percentiles)
    (numGroups itemsCount : nat) (levelsCount : Z) (rowResult : RowVector)
    : RowVector :=
  {| row_nulls := resize numGroups false (row_nulls rowResult);
     child_kPercentiles := makeConstant numGroups false (values p);
     child_kPercentilesIsArray := makeConstant numGroups false (isArray p);
     child_kAccuracy :=
       makeConstant numGroups (accuracy_ this =? kMissingNormalizedValue)%float
         (accuracy_ this);
     child_kK := flat_resize numGroups (child_kK rowResult);
     child_kN := flat_resize numGroups (child_kN rowResult);
     child_kMinValue := flat_resize numGroups (child_kMinValue rowResult);
     child_kMaxValue := flat_resize numGroups (child_kMaxValue rowResult);
     child_kItems :=
       array_resizeElements itemsCount
         (array_resize numGroups (child_kItems rowResult));
     child_kLevels :=
       array_resizeElements (Z.to_nat levelsCount)
         (array_resize numGroups (child_kLevels rowResult)) |}.

Definition extractAccumulators (groups : list nat) (rowResult : RowVector)
    (this : ApproxPercentileAggregate) (store : RowContainer)
    : Result (RowContainer * RowVector) :=
  let numGroups := length groups in
  '(sketches, store) ← compactGroups (fixedRandomSeed_ this) groups store;
  match percentiles_ this with
  | None => Ok (store, extractNullAccumulators numGroups rowResult)
  | Some p =>
      let '(itemsCount, levelsCount) := countItemsAndLevels sketches 0 0 in
      _ ← VELOX_CHECK (Z.of_nat itemsCount <=? int32_max) "itemsCount <= max";
      let r := prepareRowResult this p numGroups itemsCount levelsCount rowResult in
      let s := serializeSketches sketches 0
                 {| ser_rowResult := r; ser_itemsCount := 0; ser_levelsCount := 0 |} in
      Ok (store, ser_rowResult s)
  end.

(** The views the serialization loop reads: the view of the compacted
    copy of every group, in group order. *)
Definition compactedViews (fixedRandomSeed : option N) (groups : list nat)
    (store : RowContainer) : list (kll.View T) :=
  omap (fun group =>
          (fun accumulator => kll.toView (compact fixedRandomSeed accumulator).1)
            <$> store !! group)
       groups.

(** What a row contributes to the items and to the levels elements: the
    view's items (levels, converted to [int32_t]) unless [n = 0]. *)
Definition itemsSlices (views : list (kll.View T)) : list (option (list T)) :=
  map (fun v => if (kll.view_n v =? 0)%N then None else Some (kll.view_items v))
      views.

Definition levelsSlices (views : list (kll.View T)) : list (option (list Z)) :=
  map (fun v => if (kll.view_n v =? 0)%N then None
                else Some (map (fun l => to_int32 (Z.of_N l)) (kll.view_levels v)))
      views.

(** The totals of the counting loop, over all views. *)
Definition allItems (views : list (kll.View T)) : nat :=
  sum_list (map (fun v => length (kll.view_items v)) views).

Definition allLevels (views : list (kll.View T)) : nat :=
  sum_list (map (fun v => length (kll.view_levels v)) views).

End Aggregate.

Arguments ApproxPercentileAggregate : clear implicits.
Arguments RowVector : clear implicits.
Arguments ResultVector : clear implicits.
Arguments VectorPtr : clear implicits.
Abbreviation RowContainer T := (list (KllSketchAccumulator T)).
Arguments QuantileCall T {L}.

(** ** A sketch after the specification *)

Module SpecKll.

(** Modelled from the spec: the KLL sketch of
    [velox/functions/lib/KllSketch.h], which is not among the sources.
    The record follows the data model (3.1): [k], [n], the extremes, the
    stored items by level (level [i] holds items of weight [2^i]) and the
    finished flag.  Level capacities and the randomized compaction of 4.1
    are not modelled: the record describes a sketch whose levels stay
    below capacity, where no compaction takes place. *)
Record Sketch := {
  sk_k : N;
  sk_n : N;
  sk_minValue : Z;
  sk_maxValue : Z;
  sk_levels : list (list Z);
  sk_isFinished : bool;
  sk_seed : N
}.

(** Modelled from the spec: [new(k, seed)] returns an empty sketch
    ([n = 0], one empty level 0, not finished). *)
Definition create (k seed : N) : Sketch :=
  {| sk_k := k; sk_n := 0; sk_minValue := 0; sk_maxValue := 0;
     sk_levels := [[]]; sk_isFinished := false; sk_seed := seed |}.

Definition setK (k : N) (s : Sketch) : Sketch :=
  {| sk_k := k; sk_n := sk_n s; sk_minValue := sk_minValue s;
     sk_maxValue := sk_maxValue s; sk_levels := sk_levels s;
     sk_isFinished := sk_isFinished s; sk_seed := sk_seed s |}.

(** Modelled from the spec: [Insert(v)] appends [v] to level 0, updates
    the extremes, increments [n] and marks the sketch not finished. *)
Definition insert (v : Z) (s : Sketch) : Sketch :=
  {| sk_k := sk_k s;
     sk_n := sk_n s + 1;
     sk_minValue := if (sk_n s =? 0)%N then v else Z.min (sk_minValue s) v;
     sk_maxValue := if (sk_n s =? 0)%N then v else Z.max (sk_maxValue s) v;
     sk_levels := match sk_levels s with
                  | [] => [[v]]
                  | level0 :: higher => (level0 ++ [v]) :: higher
                  end;
     sk_isFinished := false;
     sk_seed := sk_seed s |}.

(** Modelled from the spec: [Finish()] sorts level 0 ascending. *)
Definition finish (s : Sketch) : Sketch :=
  {| sk_k := sk_k s; sk_n := sk_n s; sk_minValue := sk_minValue s;
     sk_maxValue := sk_maxValue s;
     sk_levels := match sk_levels s with
                  | [] => []
                  | level0 :: higher => merge_sort Z.le level0 :: higher
                  end;
     sk_isFinished := true;
     sk_seed := sk_seed s |}.

(** The offsets of the levels in the items sequence, from [start] on. *)
Fixpoint levelOffsets (start : N) (levels : list (list Z)) : list N :=
  match levels with
  | [] => [start]
  | level :: higher => start :: levelOffsets (start + N.of_nat (length level)) higher
  end.

(** Modelled from the spec: [to_view()] exposes
    [(k, n, min, max, items, levels)]. *)
Definition toView (s : Sketch) : kll.View Z :=
  {| kll.view_k := sk_k s;
     kll.view_n := sk_n s;
     kll.view_minValue := sk_minValue s;
     kll.view_maxValue := sk_maxValue s;
     kll.view_items := concat (sk_levels s);
     kll.view_levels := levelOffsets 0 (sk_levels s) |}.

(** The items cut at consecutive offsets. *)
Fixpoint splitLevels (items : list Z) (offsets : list N) : list (list Z) :=
  match offsets with
  | from :: ((to :: _) as rest) =>
      take (N.to_nat (to - from)) (drop (N.to_nat from) items) :: splitLevels items rest
  | _ => []
  end.

(** Modelled from the spec: [from_view(view, allocator, seed)] copies the
    view's fields into a fresh owned sketch; a fresh sketch is not
    finished. *)
Definition fromView (v : kll.View Z) (seed : N) : Sketch :=
  {| sk_k := kll.view_k v;
     sk_n := kll.view_n v;
     sk_minValue := kll.view_minValue v;
     sk_maxValue := kll.view_maxValue v;
     sk_levels := splitLevels (kll.view_items v) (kll.view_levels v);
     sk_isFinished := false;
     sk_seed := seed |}.

(** Bit [i] of [count] contributes one copy of [v] at level [i]. *)
Fixpoint repeatedLevels (v : Z) (bits : nat) (i : Z) (count : Z) : list (list Z) :=
  match bits with
  | O => []
  | S bits' => (if Z.testbit count i then [v] else []) :: repeatedLevels v bits' (i + 1) count
  end.

(** Modelled from the spec: [from_repeated_value(v, count, k, seed)] has
    [min = max = v], [n = count] and a level structure that encodes
    [count] as a sum of powers of two.  Level 0 holds at most one item. *)
Definition fromRepeatedValue (v : Z) (count : Z) (k seed : N) : Sketch :=
  {| sk_k := k;
     sk_n := Z.to_N count;
     sk_minValue := v;
     sk_maxValue := v;
     sk_levels := repeatedLevels v (Z.to_nat (Z.log2 count + 1)) 0 count;
     sk_isFinished := true;
     sk_seed := seed |}.

(** Sorted merge of two ascending lists, [fuel] steps at most. *)
Fixpoint sortedMerge (fuel : nat) (xs ys : list Z) : list Z :=
  match fuel with
  | O => xs ++ ys
  | S fuel' =>
      match xs, ys with
      | [], _ => ys
      | _, [] => xs
      | x :: xs', y :: ys' =>
          if x <=? y then x :: sortedMerge fuel' xs' ys
          else y :: sortedMerge fuel' xs ys'
      end
  end.

Fixpoint mergeLevels (xss yss : list (list Z)) : list (list Z) :=
  match xss, yss with
  | [], _ => yss
  | _, [] => xss
  | xs :: xss', ys :: yss' =>
      sortedMerge (length xs + length ys) xs ys :: mergeLevels xss' yss'
  end.

(** Modelled from the spec: [Merge(other)] absorbs the other sketch level
    by level with a sorted merge; [k] becomes the minimum, the extremes
    and [n] are combined; if either side is empty the result is the
    other. *)
Definition mergeOne (s other : Sketch) : Sketch :=
  if (sk_n other =? 0)%N then s
  else if (sk_n s =? 0)%N then
    {| sk_k := N.min (sk_k s) (sk_k other); sk_n := sk_n other;
       sk_minValue := sk_minValue other; sk_maxValue := sk_maxValue other;
       sk_levels := sk_levels other; sk_isFinished := sk_isFinished other;
       sk_seed := sk_seed s |}
  else
    {| sk_k := N.min (sk_k s) (sk_k other);
       sk_n := sk_n s + sk_n other;
       sk_minValue := Z.min (sk_minValue s) (sk_minValue other);
       sk_maxValue := Z.max (sk_maxValue s) (sk_maxValue other);
       sk_levels := mergeLevels (sk_levels s) (sk_levels other);
       sk_isFinished := sk_isFinished s && sk_isFinished other;
       sk_seed := sk_seed s |}.

Definition merge (s : Sketch) (others : list Sketch) : Sketch :=
  fold_left mergeOne others s.

(** Modelled from the spec: [Merge(views)] has the semantics of repeated
    pairwise merge. *)
Definition mergeViews (s : Sketch) (views : list (kll.View Z)) : Sketch :=
  merge s (map (fun v => fromView v (sk_seed s)) views).

(** Modelled from the spec: [compact()] shrinks the internal buffers to
    fit the level structure; the record has no slack, so nothing changes. *)
Definition compact (s : Sketch) : Sketch := s.

Fixpoint insertByValue (a : Z * Z) (sorted : list (Z * Z)) : list (Z * Z) :=
  match sorted with
  | [] => [a]
  | b :: rest => if a.1 <=? b.1 then a :: sorted else b :: insertByValue a rest
  end.

(** The stored items with their weights, ascending by value. *)
Definition weightedItems (s : Sketch) : list (Z * Z) :=
  foldr insertByValue []
    (concat (imap (fun i level => map (fun x => (x, 2 ^ Z.of_nat i)) level) (sk_levels s))).

Definition Z_to_double (z : Z) : double := PrimFloat.of_uint63 (Uint63.of_Z z).

(** The first value whose cumulative weight reaches [target]. *)
Fixpoint scanQuantile (target : double) (cumulative : Z) (items : list (Z * Z))
    (last : Z) : Z :=
  match items with
  | [] => last
  | (x, w) :: rest =>
      if (target <=? Z_to_double (cumulative + w))%float then x
      else scanQuantile target (cumulative + w) rest last
  end.

(** Modelled from the spec: [estimate_quantile(p)] returns the smallest
    stored [x] whose weighted rank is at least [p * n]. *)
Definition estimateQuantile (s : Sketch) (p : double) : Z :=
  scanQuantile (p * Z_to_double (Z.of_N (sk_n s)))%float 0 (weightedItems s)
    (sk_maxValue s).

Definition estimateQuantiles (s : Sketch) (ps : list double) : list Z :=
  map (estimateQuantile s) ps.

(** The least integer not below a positive finite double; 0 otherwise. *)
Definition ceiling (x : double) : Z :=
  match Prim2SF x with
  | S754_finite false m e =>
      if 0 <=? e then Z.pos m * 2 ^ e
      else (Z.pos m + 2 ^ (- e) - 1) / 2 ^ (- e)
  | _ => 0
  end.

(** Modelled from the spec: the error of a sketch is about
    [1.65 / k^0.9] (3.1); [kFromEpsilon] is not given, and the instance
    takes the [k] of the bound [1.65 / k]. *)
Definition kFromEpsilon (epsilon : double) : N :=
  Z.to_N (ceiling (Z_to_double 165 / (Z_to_double 100 * epsilon))%float).

(** The instance; both allocators carry the same record. *)
Definition library (processSeed : N) : kll.Library Z :=
  {| kll.KllSketch := fun _ => Sketch;
     kll.kDefaultK := 200;
     kll.kFromEpsilon := kFromEpsilon;
     kll.getSeed := processSeed;
     kll.create := fun _ => create;
     kll.k := fun _ => sk_k;
     kll.setK := fun _ => setK;
     kll.totalCount := fun _ => sk_n;
     kll.insert := fun _ => insert;
     kll.finish := fun _ => finish;
     kll.isFinished := fun _ => sk_isFinished;
     kll.compact := fun _ => compact;
     kll.merge := fun _ => merge;
     kll.mergeViews := fun _ => mergeViews;
     kll.toView := fun _ => toView;
     kll.fromView := fun v _ seed => fromView v seed;
     kll.fromRepeatedValue := fun v count k _ seed => fromRepeatedValue v count k seed;
     kll.estimateQuantile := fun _ => estimateQuantile;
     kll.estimateQuantiles := fun _ => estimateQuantiles |}.

End SpecKll.

(** ** Registration

    [registerApproxPercentileAggregate] registers the signatures built
    by [addSignatures] together with a factory.  Types ([Type],
    [TypeKind]), the aggregation step and the signature builder belong
    to other files; they are modelled as far as the factory looks at
    them. *)

Module TypeKind.

Inductive t :=
| BOOLEAN | TINYINT | SMALLINT | INTEGER | BIGINT | REAL | DOUBLE
| VARCHAR | VARBINARY | TIMESTAMP | HUGEINT
| ARRAY | MAP | ROW | UNKNOWN | FUNCTION | OPAQUE | INVALID.

(** The position of a kind in the enumeration. *)
Definition ordinal (k : t) : nat :=
  match k with
  | BOOLEAN => 0 | TINYINT => 1 | SMALLINT => 2 | INTEGER => 3 | BIGINT => 4
  | REAL => 5 | DOUBLE => 6 | VARCHAR => 7 | VARBINARY => 8 | TIMESTAMP => 9
  | HUGEINT => 10 | ARRAY => 11 | MAP => 12 | ROW => 13 | UNKNOWN => 14
  | FUNCTION => 15 | OPAQUE => 16 | INVALID => 17
  end%nat.

Definition eqb (a b : t) : bool := (ordinal a =? ordinal b)%nat.

End TypeKind.

(** A type, as built by [BOOLEAN()], ..., [ARRAY(elementType)],
    [MAP(keyType, valueType)], [ROW(children)]. *)
#[warnings="-register-all"]
Inductive TypePtr :=
| BOOLEAN | TINYINT | SMALLINT | INTEGER | BIGINT | REAL | DOUBLE
| VARCHAR | VARBINARY | TIMESTAMP | HUGEINT | UNKNOWN
| ARRAY (elementType : TypePtr)
| MAP (keyType valueType : TypePtr)
| ROW (children : list TypePtr).

Definition kind (type : TypePtr) : TypeKind.t :=
  match type with
  | BOOLEAN => TypeKind.BOOLEAN
  | TINYINT => TypeKind.TINYINT
  | SMALLINT => TypeKind.SMALLINT
  | INTEGER => TypeKind.INTEGER
  | BIGINT => TypeKind.BIGINT
  | REAL => TypeKind.REAL
  | DOUBLE => TypeKind.DOUBLE
  | VARCHAR => TypeKind.VARCHAR
  | VARBINARY => TypeKind.VARBINARY
  | TIMESTAMP => TypeKind.TIMESTAMP
  | HUGEINT => TypeKind.HUGEINT
  | UNKNOWN => TypeKind.UNKNOWN
  | ARRAY _ => TypeKind.ARRAY
  | MAP _ _ => TypeKind.MAP
  | ROW _ => TypeKind.ROW
  end.

(** [type->isArray()] *)
Definition isArrayType (type : TypePtr) : bool :=
  TypeKind.eqb (kind type) TypeKind.ARRAY.

(** [argTypes[i]]; the factory checks the size before it reads. *)
Definition typeAt (argTypes : list TypePtr) (i : nat) : Result TypePtr :=
  match argTypes !! i with
  | Some type => Ok type
  | None => Failed (RuntimeError "argTypes: index out of range")
  end.

(** [type->asRow().childAt(i)] *)
Definition childAt (type : TypePtr) (i : nat) : Result TypePtr :=
  match type with
  | ROW children =>
      match children !! i with
      | Some child => Ok child
      | None => Failed (RuntimeError "childAt: index out of range")
      end
  | _ => Failed (RuntimeError "asRow: not a row type")
  end.

(** [type->as<TypeKind::ARRAY>().elementType()] *)
Definition elementTypeOf (type : TypePtr) : Result TypePtr :=
  match type with
  | ARRAY elementType => Ok elementType
  | _ => Failed (RuntimeError "as<ARRAY>: not an array type")
  end.

Definition validPercentileType (type : TypePtr) : bool :=
  if TypeKind.eqb (kind type) TypeKind.DOUBLE then true
  else if negb (TypeKind.eqb (kind type) TypeKind.ARRAY) then false
  else match type with
       | ARRAY elementType => TypeKind.eqb (kind elementType) TypeKind.DOUBLE
       | _ => false
       end.

Record AggregateFunctionSignature := {
  sig_returnType : string;
  sig_intermediateType : string;
  sig_argumentTypes : list string
}.

Definition addSignatures (inputType percentileType returnType : string)
    (signatures : list AggregateFunctionSignature)
    : list AggregateFunctionSignature :=
  let intermediateType :=
    ("row(array(double), boolean, double, integer, bigint, " ++ inputType
     ++ ", " ++ inputType ++ ", array(" ++ inputType
     ++ "), array(integer))")%string in
  let signatures :=
    signatures ++ [{| sig_returnType := returnType;
                      sig_intermediateType := intermediateType;
                      sig_argumentTypes := [inputType; percentileType] |}] in
  let signatures :=
    signatures ++ [{| sig_returnType := returnType;
                      sig_intermediateType := intermediateType;
                      sig_argumentTypes :=
                        [inputType; "bigint"%string; percentileType] |}] in
  let signatures :=
    signatures ++ [{| sig_returnType := returnType;
                      sig_intermediateType := intermediateType;
                      sig_argumentTypes :=
                        [inputType; percentileType; "double"%string] |}] in
  signatures ++ [{| sig_returnType := returnType;
                    sig_intermediateType := intermediateType;
                    sig_argumentTypes :=
                      [inputType; "bigint"%string; percentileType;
                       "double"%string] |}].

(** The signatures [registerApproxPercentileAggregate] hands to
    [registerAggregateFunction]. *)
Definition registeredSignatures : list AggregateFunctionSignature :=
  fold_left
    (fun signatures inputType =>
       let signatures :=
         addSignatures inputType "double" inputType signatures in
       addSignatures inputType "array(double)"
         ("array(" ++ inputType ++ ")")%string signatures)
    ["tinyint"; "smallint"; "integer"; "bigint"; "real"; "double"]%string
    [].

(** The aggregation step of [core::AggregationNode]. *)
Module Step.

Inductive t := kPartial | kFinal | kIntermediate | kSingle.

End Step.

(** The element type the operator template is instantiated with. *)
Inductive ElementType :=
| int8_t | int16_t | int32_t | int64_t | float_t | double_t.

(** What the factory returns: the instantiation chosen and the
    constructor arguments. *)
Record CreatedAggregate := {
  created_T : ElementType;
  created_hasWeight : bool;
  created_hasAccuracy : bool;
  created_resultType : TypePtr;
  created_fixedRandomSeed : option N
}.

(** The index of the minimum value in the intermediate row, the first
    field of element type in the row type of [addSignatures]. *)
Definition kMinValue : nat := 5.

Section Factory.

(** [exec::isRawInput] and [exec::isPartialOutput] belong to the
    execution framework; they are taken as given. *)
Variables isRawInput isPartialOutput : Step.t -> bool.

(** The checks on the argument types. *)
Definition checkArgumentTypes (rawInput hasWeight hasAccuracy : bool)
    (argTypes : list TypePtr) : Result unit :=
  if rawInput then
    _ ← VELOX_USER_CHECK
          (length argTypes =? 2 + Nat.b2n hasWeight + Nat.b2n hasAccuracy)%nat
          "Wrong number of arguments passed to {}";
    _ ← (if hasWeight then
           weightType ← typeAt argTypes 1;
           VELOX_USER_CHECK (TypeKind.eqb (kind weightType) TypeKind.BIGINT)
             "The type of the weight argument of {} must be BIGINT"
         else Ok tt);
    _ ← (if hasAccuracy then
           accuracyType ← typeAt argTypes (length argTypes - 1);
           VELOX_USER_CHECK (TypeKind.eqb (kind accuracyType) TypeKind.DOUBLE)
             "The type of the accuracy argument of {} must be DOUBLE"
         else Ok tt);
    percentileType ← typeAt argTypes (length argTypes - 1 - Nat.b2n hasAccuracy);
    VELOX_USER_CHECK (validPercentileType percentileType)
      "The type of the percentile argument of {} must be DOUBLE or ARRAY(DOUBLE)"
  else
    _ ← VELOX_USER_CHECK (length argTypes =? 1)%nat
          "The type of partial result for {} must be ROW";
    partialType ← typeAt argTypes 0;
    VELOX_USER_CHECK (TypeKind.eqb (kind partialType) TypeKind.ROW)
      "The type of partial result for {} must be ROW".

(** The type the template is chosen by. *)
Definition elementTypeFor (rawInput : bool) (step : Step.t)
    (argTypes : list TypePtr) (resultType : TypePtr) : Result TypePtr :=
  if negb rawInput && isPartialOutput step then
    partialType ← typeAt argTypes 0;
    childAt partialType kMinValue
  else if rawInput then typeAt argTypes 0
  else if isArrayType resultType then elementTypeOf resultType
  else Ok resultType.

(** The factory lambda registered for the function. *)
Definition createAggregate (step : Step.t) (argTypes : list TypePtr)
    (resultType : TypePtr) (fixedRandomSeed : option N)
    : Result CreatedAggregate :=
  let rawInput := isRawInput step in
  let hasWeight :=
    match argTypes !! 1%nat with
    | Some weightType => TypeKind.eqb (kind weightType) TypeKind.BIGINT
    | None => false
    end in
  let hasAccuracy :=
    (length argTypes =? (if hasWeight then 4 else 3))%nat in
  _ ← checkArgumentTypes rawInput hasWeight hasAccuracy argTypes;
  type ← elementTypeFor rawInput step argTypes resultType;
  let create (T : ElementType) :=
    Ok {| created_T := T;
          created_hasWeight := hasWeight;
          created_hasAccuracy := hasAccuracy;
          created_resultType := resultType;
          created_fixedRandomSeed := fixedRandomSeed |} in
  match kind type with
  | TypeKind.TINYINT => create int8_t
  | TypeKind.SMALLINT => create int16_t
  | TypeKind.INTEGER => create int32_t
  | TypeKind.BIGINT => create int64_t
  | TypeKind.REAL => create float_t
  | TypeKind.DOUBLE => create double_t
  | _ => Failed (UserError "Unsupported input type for {} aggregation {}")
  end.

End Factory.

(** The element type of an input type the function is registered for. *)
Definition elementTypeOfInput (type : TypePtr) : option ElementType :=
  match type with
  | TINYINT => Some int8_t
  | SMALLINT => Some int16_t
  | INTEGER => Some int32_t
  | BIGINT => Some int64_t
  | REAL => Some float_t
  | DOUBLE => Some double_t
  | _ => None
  end.

(** The spelling of a type in a signature: the kind in lower case, the
    parameters in parentheses. *)
Fixpoint typeSignature (type : TypePtr) : string :=
  match type with
  | BOOLEAN => "boolean"
  | TINYINT => "tinyint"
  | SMALLINT => "smallint"
  | INTEGER => "integer"
  | BIGINT => "bigint"
  | REAL => "real"
  | DOUBLE => "double"
  | VARCHAR => "varchar"
  | VARBINARY => "varbinary"
  | TIMESTAMP => "timestamp"
  | HUGEINT => "hugeint"
  | UNKNOWN => "unknown"
  | ARRAY elementType => "array(" ++ typeSignature elementType ++ ")"
  | MAP keyType valueType =>
      "map(" ++ typeSignature keyType ++ ", " ++ typeSignature valueType ++ ")"
  | ROW children =>
      "row(" ++ String.concat ", " (map typeSignature children) ++ ")"
  end%string.

(** The intermediate type of an aggregation over [inputType]. *)
Definition intermediateTypeOf (inputType : TypePtr) : TypePtr :=
  ROW [ARRAY DOUBLE; BOOLEAN; DOUBLE; INTEGER; BIGINT;
       inputType; inputType; ARRAY inputType; ARRAY INTEGER].

(** ** Intermediate input

    [addIntermediateResults] and [addSingleGroupIntermediateResults]
    read one argument, a vector of intermediate rows.  The vector
    classes are not part of the file: the argument enters by what the
    code asks of it. *)

Module VectorEncoding.

Inductive Simple :=
| BIASED | CONSTANT | DICTIONARY | FLAT | SEQUENCE | ROW | MAP | ARRAY | LAZY
| FUNCTION.

Definition isConstant (encoding : Simple) : bool :=
  match encoding with CONSTANT => true | _ => false end.

Definition isFlat (encoding : Simple) : bool :=
  match encoding with FLAT => true | _ => false end.

Definition isArray (encoding : Simple) : bool :=
  match encoding with ARRAY => true | _ => false end.

End VectorEncoding.

(** [SimpleVector<V>]: a null bit and a raw value per row. *)
Record SimpleVector (V : Type) := {
  simple_isNullAt : nat -> bool;
  simple_valueAt : nat -> V
}.

Arguments simple_isNullAt {V} _ _.
Arguments simple_valueAt {V} _ _.

(** An [ArrayVector] child as it is read: null bits, offsets and sizes,
    and the raw values of the elements, absent when
    [elements()->asFlatVector<V>()] is null. *)
Record ArrayReader (V : Type) := {
  reader_isNullAt : nat -> bool;
  reader_offsetAt : nat -> nat;
  reader_sizeAt : nat -> nat;
  reader_rawValues : option (list V)
}.

Arguments reader_isNullAt {V} _ _.
Arguments reader_offsetAt {V} _ _.
Arguments reader_sizeAt {V} _ _.
Arguments reader_rawValues {V} _.

(** [{raw + offset, size}]: a range of the raw values. *)
Definition rangeOf {V} (raw : list V) (offset size : nat) : list V :=
  take size (drop offset raw).

(** The indices of the children of an intermediate row. *)
Definition kPercentiles : nat := 0.
Definition kPercentilesIsArray : nat := 1.
Definition kAccuracy : nat := 2.
Definition kK : nat := 3.
Definition kN : nat := 4.
Definition kMaxValue : nat := 6.
Definition kItems : nat := 7.
Definition kLevels : nat := 8.

(** [static_cast<uint32_t>] and [static_cast<size_t>] *)
Definition to_uint32 (z : Z) : N := Z.to_N (z mod 2 ^ 32).
Definition to_size_t (z : Z) : N := Z.to_N (z mod 2 ^ 64).

Section Intermediate.

Context {T : Type} `{!Inhabited T} {L : kll.Library T}.

(** The argument of [addIntermediate], decoded over the selected rows:
    [input_isNullAt] and [input_index] are those of [decoded],
    [input_isRowVector] tells whether [decoded.base()] is a row vector,
    [input_encoding] is the encoding of each child;
    [input_percentilesIndex] is the index mapping of the decoded
    percentiles child, [input_percentilesBase] its base with
    [input_percentileElements] the decoded elements of the base. *)
Record IntermediateInput := {
  input_isRowVector : bool;
  input_isNullAt : nat -> bool;
  input_index : nat -> nat;
  input_encoding : nat -> VectorEncoding.Simple;
  input_percentilesIndex : nat -> nat;
  input_percentilesBase : ArrayReader double;
  input_percentileElements : DecodedVector double;
  input_percentileIsArray : SimpleVector bool;
  input_accuracy : SimpleVector double;
  input_k : SimpleVector Z;
  input_n : SimpleVector Z;
  input_minValue : SimpleVector T;
  input_maxValue : SimpleVector T;
  input_items : ArrayReader T;
  input_levels : ArrayReader Z
}.

(** [char* group] or [char** group], by [kSingleGroup]. *)
Inductive GroupArgument :=
| SingleGroup (group : nat)
| Groups (groups : list nat).

Definition kSingleGroup (group : GroupArgument) : bool :=
  match group with SingleGroup _ => true | Groups _ => false end.

(** What the row lambda captures by reference: the operator, the row
    container, the [accumulator] pointer and the [views]. *)
Record IntermediateState := {
  state_this : ApproxPercentileAggregate T;
  state_store : RowContainer T;
  state_accumulator : option nat;
  state_views : list (kll.View T)
}.

(** The checks on the children of the row vector. *)
Definition checkEncodings (input : IntermediateInput) : Result unit :=
  _ ← VELOX_USER_CHECK
        (forallb (fun i => VectorEncoding.isConstant (input_encoding input i))
           (seq kPercentiles (S kAccuracy - kPercentiles)))
        "rowVec->childAt(i)->isConstantEncoding()";
  _ ← VELOX_USER_CHECK
        (forallb (fun i => VectorEncoding.isFlat (input_encoding input i))
           (seq kK (S kMaxValue - kK)))
        "rowVec->childAt(i)->isFlatEncoding()";
  VELOX_USER_CHECK
    (forallb (fun i => VectorEncoding.isArray (input_encoding input i))
       (seq kItems (S kLevels - kItems)))
    "rowVec->childAt(i)->encoding() == VectorEncoding::Simple::ARRAY".

(** The block entered while [accumulator] is null: the percentiles and
    the accuracy of base row [i] are checked against the operator's, or
    bound. *)
Definition resolveIntermediateRow (checkIntermediateInputs : bool)
    (input : IntermediateInput) (i : nat) (this : ApproxPercentileAggregate T)
    : Result (ApproxPercentileAggregate T) :=
  let indexInBaseVector := input_percentilesIndex input i in
  let percentilesBase := input_percentilesBase input in
  _ ← (if checkIntermediateInputs then
         _ ← VELOX_USER_CHECK
               (match reader_rawValues percentilesBase with
                | Some _ => true
                | None => false
                end) "percentileBaseElements";
         VELOX_USER_CHECK
           (negb (reader_isNullAt percentilesBase indexInBaseVector))
           "!percentilesBase->isNullAt(indexInBaseVector)"
       else Ok tt);
  let isArray' := simple_valueAt (input_percentileIsArray input) i in
  this ← checkSetPercentile isArray' (input_percentileElements input)
           (reader_offsetAt percentilesBase indexInBaseVector)
           (reader_sizeAt percentilesBase indexInBaseVector) this;
  if negb (simple_isNullAt (input_accuracy input) i)
  then checkSetAccuracy (simple_valueAt (input_accuracy input) i) this
  else Ok this.

(** One of the serialized fields of base row [i] is null. *)
Definition sketchFieldIsNull (input : IntermediateInput) (i : nat) : bool :=
  simple_isNullAt (input_k input) i || simple_isNullAt (input_n input) i
  || simple_isNullAt (input_minValue input) i
  || simple_isNullAt (input_maxValue input) i
  || reader_isNullAt (input_items input) i
  || reader_isNullAt (input_levels input) i.

(** The view [v] built from base row [i]. *)
Definition viewAt (input : IntermediateInput) (rawItems : list T)
    (rawLevels : list Z) (i : nat) : kll.View T :=
  {| kll.view_k := to_uint32 (simple_valueAt (input_k input) i);
     kll.view_n := to_size_t (simple_valueAt (input_n input) i);
     kll.view_minValue := simple_valueAt (input_minValue input) i;
     kll.view_maxValue := simple_valueAt (input_maxValue input) i;
     kll.view_items :=
       rangeOf rawItems (reader_offsetAt (input_items input) i)
         (reader_sizeAt (input_items input) i);
     kll.view_levels :=
       map to_uint32
         (rangeOf rawLevels (reader_offsetAt (input_levels input) i)
            (reader_sizeAt (input_levels input) i)) |}.

(** The row lambda of [addIntermediateImpl]. *)
Definition addIntermediateRow (checkIntermediateInputs : bool)
    (group : GroupArgument) (input : IntermediateInput) (rawItems : list T)
    (rawLevels : list Z) (row : nat) (s : IntermediateState)
    : Result IntermediateState :=
  if input_isNullAt input row then Ok s
  else
    let i := input_index input row in
    if simple_isNullAt (input_percentileIsArray input) i then Ok s
    else
      this ← match state_accumulator s with
             | None =>
                 resolveIntermediateRow checkIntermediateInputs input i
                   (state_this s)
             | Some _ => Ok (state_this s)
             end;
      '(store, accumulator) ←
        match group with
        | SingleGroup group =>
            match state_accumulator s with
            | None =>
                store ← initRawAccumulator this group (state_store s);
                Ok (store, group)
            | Some accumulator => Ok (state_store s, accumulator)
            end
        | Groups groups =>
            group ← groupAt groups row;
            store ← initRawAccumulator this group (state_store s);
            Ok (store, group)
        end;
      _ ← (if checkIntermediateInputs
           then VELOX_USER_CHECK (negb (sketchFieldIsNull input i))
                  "!(k->isNullAt(i) || ... || levels->isNullAt(i))"
           else Ok tt);
      let v := viewAt input rawItems rawLevels i in
      match group with
      | SingleGroup _ =>
          Ok {| state_this := this;
                state_store := store;
                state_accumulator := Some accumulator;
                state_views := state_views s ++ [v] |}
      | Groups _ =>
          target ← value store accumulator;
          Ok {| state_this := this;
                state_store := <[accumulator := appendView v target]> store;
                state_accumulator := Some accumulator;
                state_views := state_views s |}
      end.

(** What follows the row walk: for a single group the collected views
    are appended at once. *)
Definition appendCollectedViews (group : GroupArgument) (s : IntermediateState)
    : Result (RowContainer T) :=
  match group, state_views s, state_accumulator s with
  | SingleGroup _, _ :: _, Some accumulator =>
      target ← value (state_store s) accumulator;
      Ok (<[accumulator := appendViews (state_views s) target]> (state_store s))
  | SingleGroup _, _ :: _, None =>
      Failed (RuntimeError "accumulator is null")
  | _, _, _ => Ok (state_store s)
  end.

(** The elements of an array child as a flat vector of raw values; the
    null check is a user check under [checkIntermediateInputs]. *)
Definition rawValuesOf {V} (checkIntermediateInputs : bool)
    (reader : ArrayReader V) (message : string) : Result (list V) :=
  match reader_rawValues reader with
  | Some raw => Ok raw
  | None =>
      if checkIntermediateInputs then Failed (UserError message)
      else Failed (RuntimeError message)
  end.

Definition addIntermediateImpl (checkIntermediateInputs : bool)
    (group : GroupArgument) (rows : SelectivityVector)
    (args : list IntermediateInput) (this : ApproxPercentileAggregate T)
    (store : RowContainer T)
    : Result (ApproxPercentileAggregate T * RowContainer T) :=
  match args with
  | [input] =>
      _ ← (if checkIntermediateInputs then
             _ ← VELOX_USER_CHECK (input_isRowVector input) "rowVec";
             checkEncodings input
           else VELOX_CHECK (input_isRowVector input) "rowVec");
      rawItems ← rawValuesOf checkIntermediateInputs (input_items input)
                   "itemsElements";
      rawLevels ← rawValuesOf checkIntermediateInputs (input_levels input)
                    "levelElements";
      s ← applyToSelected rows
            (addIntermediateRow checkIntermediateInputs group input rawItems
               rawLevels)
            {| state_this := this;
               state_store := store;
               state_accumulator := None;
               state_views := [] |};
      store ← appendCollectedViews group s;
      Ok (state_this s, store)
  | _ => Failed (RuntimeError "args.size() == 1")
  end.

(** [addIntermediate<kSingleGroup>]: the variant is chosen by
    [validateIntermediateInputs_]. *)
Definition addIntermediate (validateIntermediateInputs_ : bool)
    (group : GroupArgument) (rows : SelectivityVector)
    (args : list IntermediateInput) (this : ApproxPercentileAggregate T)
    (store : RowContainer T)
    : Result (ApproxPercentileAggregate T * RowContainer T) :=
  if validateIntermediateInputs_
  then addIntermediateImpl true group rows args this store
  else addIntermediateImpl false group rows args this store.

Definition addIntermediateResults (validateIntermediateInputs_ : bool)
    (groups : list nat) (rows : SelectivityVector)
    (args : list IntermediateInput) (this : ApproxPercentileAggregate T)
    (store : RowContainer T)
    : Result (ApproxPercentileAggregate T * RowContainer T) :=
  addIntermediate validateIntermediateInputs_ (Groups groups) rows args this store.

Definition addSingleGroupIntermediateResults (validateIntermediateInputs_ : bool)
    (group : nat) (rows : SelectivityVector)
    (args : list IntermediateInput) (this : ApproxPercentileAggregate T)
    (store : RowContainer T)
    : Result (ApproxPercentileAggregate T * RowContainer T) :=
  addIntermediate validateIntermediateInputs_ (SingleGroup group) rows args this
    store.

(** The selected row carries a sketch: neither the row nor its
    percentile flag is null. *)
Definition carriesSketch (input : IntermediateInput) (row : nat) : bool :=
  negb (input_isNullAt input row)
  && negb (simple_isNullAt (input_percentileIsArray input)
             (input_index input row)).

(** The accumulator [initRawAccumulator] leaves behind. *)
Definition withAccuracy (this : ApproxPercentileAggregate T)
    (accumulator : KllSketchAccumulator T) : KllSketchAccumulator T :=
  if accuracyIsSet this then setAccuracy (accuracy_ this) accumulator
  else accumulator.

(** The selected rows of a group that carry a sketch, in row order. *)
Definition sketchRowsOfGroup (input : IntermediateInput) (groups : list nat)
    (rows : SelectivityVector) (group : nat) : list nat :=
  List.filter
    (fun row =>
       carriesSketch input row
       && match groups !! row with
          | Some group' => (group' =? group)%nat
          | None => false
          end)
    rows.

(** The operator a row that carries a sketch goes on with. *)
Definition resolvedBy (check : bool) (input : IntermediateInput) (row : nat)
    (s : IntermediateState) (this' : ApproxPercentileAggregate T) : Prop :=
  match state_accumulator s with
  | None =>
      resolveIntermediateRow check input (input_index input row) (state_this s)
      = Ok this'
  | Some _ => this' = state_this s
  end.

(** The operator the walk ends with: resolved by the first row that
    carries a sketch when [accumulator] is still null, else unchanged. *)
Definition resolvedByFirst (check : bool) (input : IntermediateInput)
    (rows : list nat) (s : IntermediateState)
    (this' : ApproxPercentileAggregate T) : Prop :=
  match state_accumulator s, List.find (carriesSketch input) rows with
  | None, Some row =>
      resolveIntermediateRow check input (input_index input row) (state_this s)
      = Ok this'
  | _, _ => this' = state_this s
  end.

(** The argument has the shape of the intermediate type: a row vector
    whose children [kPercentiles] to [kAccuracy] are constant-encoded,
    [kK] to [kMaxValue] flat and [kItems], [kLevels] arrays. *)
Definition intermediateShape (input : IntermediateInput) : Prop :=
  input_isRowVector input = true
  /\ Forall (fun i => input_encoding input i = VectorEncoding.CONSTANT)
       [kPercentiles; kPercentilesIsArray; kAccuracy]
  /\ Forall (fun i => input_encoding input i = VectorEncoding.FLAT)
       [kK; kN; kMinValue; kMaxValue]
  /\ Forall (fun i => input_encoding input i = VectorEncoding.ARRAY)
       [kItems; kLevels].

(** No selected row that carries a sketch has a null sketch field. *)
Definition sketchFieldsPresent (input : IntermediateInput) (rows : list nat)
    : Prop :=
  Forall (fun row => carriesSketch input row = true ->
                     sketchFieldIsNull input (input_index input row) = false)
         rows.

(** The accumulator of a group after the views of its rows were
    appended one by one, the accuracy applied before each. *)
Definition appendSketchRows (input : IntermediateInput) (rawItems : list T)
    (rawLevels : list Z) (this : ApproxPercentileAggregate T)
    (sketchRows : list nat) (accumulator : KllSketchAccumulator T)
    : KllSketchAccumulator T :=
  fold_left
    (fun accumulator row =>
       appendView (viewAt input rawItems rawLevels (input_index input row))
         (withAccuracy this accumulator))
    sketchRows accumulator.

(** *** Reading back what [extractAccumulators] wrote *)

(** A flat vector read as a [SimpleVector]; rows past the end read as
    non-null [dflt]. *)
Definition flatAsSimple {V} (dflt : V) (v : FlatVector V) : SimpleVector V :=
  {| simple_isNullAt := fun i => nullAt (flat_nulls v) i;
     simple_valueAt := fun i => nth i (flat_values v) dflt |}.

(** A constant vector read as a [SimpleVector]; the null constant holds
    the raw value [dflt]. *)
Definition constantAsSimple {V} (dflt : V) (v : ConstantVector V)
    : SimpleVector V :=
  {| simple_isNullAt := fun _ => match constant_value v with
                                 | Some _ => false
                                 | None => true
                                 end;
     simple_valueAt := fun _ => match constant_value v with
                                | Some value => value
                                | None => dflt
                                end |}.

(** An array vector with flat elements, as it is read. *)
Definition arrayAsReader {V} (v : ArrayVector V) : ArrayReader V :=
  {| reader_isNullAt := fun i => nullAt (array_nulls v) i;
     reader_offsetAt := fun i => Z.to_nat (nth i (array_offsets v) 0);
     reader_sizeAt := fun i => Z.to_nat (nth i (array_sizes v) 0);
     reader_rawValues := Some (array_elements v) |}.

(** The values of the constant percentiles child. *)
Definition percentileValues (v : ConstantVector (list double)) : list double :=
  match constant_value v with
  | Some values => values
  | None => []
  end.

(** The constant percentiles child: one array row, the values from
    offset 0, wrapped in a constant; the null constant has a null row. *)
Definition percentilesAsReader (v : ConstantVector (list double))
    : ArrayReader double :=
  {| reader_isNullAt := fun _ => match constant_value v with
                                 | Some _ => false
                                 | None => true
                                 end;
     reader_offsetAt := fun _ => 0%nat;
     reader_sizeAt := fun _ => length (percentileValues v);
     reader_rawValues := Some (percentileValues v) |}.

(** The row vector [extractAccumulators] wrote, handed to
    [addIntermediate] as it is: the rows decoded with the identity
    mapping, every child in the encoding it was written in. *)
Definition readBack (r : RowVector T) : IntermediateInput :=
  {| input_isRowVector := true;
     input_isNullAt := fun row => nth row (row_nulls r) false;
     input_index := fun row => row;
     input_encoding := fun i =>
       if (i <=? kAccuracy)%nat then VectorEncoding.CONSTANT
       else if (i <=? kMaxValue)%nat then VectorEncoding.FLAT
       else VectorEncoding.ARRAY;
     input_percentilesIndex := fun _ => 0%nat;
     input_percentilesBase := percentilesAsReader (child_kPercentiles r);
     input_percentileElements :=
       decodeFlat 0%float
         (map (fun percentile => (false, percentile))
            (percentileValues (child_kPercentiles r)));
     input_percentileIsArray := constantAsSimple false (child_kPercentilesIsArray r);
     input_accuracy := constantAsSimple 0%float (child_kAccuracy r);
     input_k := flatAsSimple 0 (child_kK r);
     input_n := flatAsSimple 0 (child_kN r);
     input_minValue := flatAsSimple inhabitant (child_kMinValue r);
     input_maxValue := flatAsSimple inhabitant (child_kMaxValue r);
     input_items := arrayAsReader (child_kItems r);
     input_levels := arrayAsReader (child_kLevels r) |}.

(** The fields of a view fit their types: [k] and the levels are
    [uint32_t], [n] is a [size_t]. *)
Definition viewInRange (v : kll.View T) : Prop :=
  (kll.view_k v < 2 ^ 32)%N
  /\ (kll.view_n v < 2 ^ 64)%N
  /\ Forall (fun level => (level < 2 ^ 32)%N) (kll.view_levels v).

End Intermediate.

Arguments IntermediateInput : clear implicits.
Arguments IntermediateState T {L}.

(** ** The layout of extracted values *)

Section ExtractedValues.

Context {T : Type} `{!Inhabited T} {L : kll.Library T}.

(** What [extractValues] writes for each group under array percentiles:
    the estimates of a group with input, nothing for a group without. *)
Definition estimateSlices (percentiles : list double) (store : RowContainer T)
    (groups : list nat) : list (option (list T)) :=
  map (fun group =>
         match store !! group with
         | Some accumulator =>
             if (kll.totalCount (sketch_ accumulator) =? 0)%N then None
             else Some (kll.estimateQuantiles (sketch_ accumulator) percentiles)
         | None => None
         end)
      groups.

(** Two array vectors with the same offsets, sizes and elements; the
    null bits may differ. *)
Definition sameLayout {V} (a b : ArrayVector V) : Prop :=
  array_offsets a = array_offsets b
  /\ array_sizes a = array_sizes b
  /\ array_elements a = array_elements b.

(** A nulls buffer, when there is one, has a flag for each of the
    [size] rows of its vector. *)
Definition nullsSized (size : nat) (nulls : option (list bool)) : Prop :=
  forall flags, nulls = Some flags -> length flags = size.

(** The estimates a sketch is asked for under the percentiles [p]: one
    by [estimateQuantile] for a scalar percentile, one per percentile by
    [estimateQuantiles] for an array. *)
Definition estimatesOf (p : Percentiles) (digest : kll.KllSketch StlAllocator)
    : list T :=
  if isArray p then kll.estimateQuantiles digest (values p)
  else [kll.estimateQuantile digest (List.last (values p) 0%float)].

(** What the array branch of [extractValues] relies on to lay the
    estimates out: the library writes one estimate per percentile, and
    the estimates of all groups number no more than the largest
    [vector_size_t].  A scalar percentile needs neither. *)
Definition estimatesFit (p : Percentiles) (groups : list nat) : Prop :=
  isArray p = true ->
  (forall digest : kll.KllSketch StlAllocator,
     length (kll.estimateQuantiles digest (values p)) = length (values p))
  /\ Z.of_nat (length groups * length (values p)) <= int32_max.

(** The estimates row [i] of an extracted result holds: the value of a
    flat result, the elements of the row of an array result. *)
Definition resultEstimatesAt (result : ResultVector T) (i : nat)
    : option (list T) :=
  match result with
  | NullConstantResult _ => None
  | FlatResult v =>
      match flat_values v !! i with
      | Some x => Some [x]
      | None => None
      end
  | ArrayResult v =>
      match array_offsets v !! i, array_sizes v !! i with
      | Some offset, Some size =>
          Some (rangeOf (array_elements v) (Z.to_nat offset) (Z.to_nat size))
      | _, _ => None
      end
  end.

(** *** New groups *)

(** [initializeNewGroupsInternal(groups, indices)]: the accumulator of
    [groups[i]] is constructed anew for every [i] of [indices].  The
    null flags [setAllNulls] sets in the rows belong to the row
    container and are not modelled. *)
Definition initializeNewGroupsInternal (this : ApproxPercentileAggregate T)
    (groups indices : list nat) (store : RowContainer T)
    : Result (RowContainer T) :=
  applyToSelected indices
    (fun i store =>
       group ← groupAt groups i;
       _ ← value store group;
       Ok (<[group := newKllSketchAccumulator (fixedRandomSeed_ this)]> store))
    store.

(** The groups of the indices, in their order. *)
Definition groupsAt (groups indices : list nat) : list nat :=
  omap (fun i => groups !! i) indices.

(** An accumulator without input: no value counted, nothing buffered. *)
Definition withoutInput (accumulator : KllSketchAccumulator T) : Prop :=
  kll.totalCount (sketch_ accumulator) = 0%N
  /\ largeCountValues_ accumulator = [].

End ExtractedValues.

(** ** The shuffle *)

(** The views that reach a target group when the rows written for the
    source groups are merged: the views with [n > 0] of the selected
    rows that point to the target, in row order. *)
Definition shuffledViews {T} (views : list (kll.View T)) (targets : list nat)
    (rows : list nat) (group : nat) : list (kll.View T) :=
  omap (fun row =>
          match views !! row with
          | Some v =>
              if negb (kll.view_n v =? 0)%N
                 && match targets !! row with
                    | Some group' => (group' =? group)%nat
                    | None => false
                    end
              then Some v
              else None
          | None => None
          end)
       rows.


(** ** Sample inputs

    Inputs over [int64_t] values and the sketch of [SpecKll], on which
    the statements below are exercised. *)

Module Examples.

Definition library : kll.Library Z := SpecKll.library 0.

#[local] Existing Instance library.

Definition seed : option N := Some 1%N.

(** A group that received 5 and then 2 through the unweighted path. *)
Definition unsortedAccumulator : KllSketchAccumulator Z :=
  append 2 (append 5 (newKllSketchAccumulator seed)).

(** A buffer of 4095 large-count pairs. *)
Definition nearlyFullAccumulator : KllSketchAccumulator Z :=
  {| sketch_ := sketch_ (newKllSketchAccumulator seed);
     largeCountValues_ := repeat (3, 512) 4095 |}.

(** Four rows: values [10, 20, null, 30], weights [1, 0, 0, null]. *)
Definition weightedAggregate : ApproxPercentileAggregate Z :=
  set_decoded
    (decodeFlat 0 [(false, 10); (false, 20); (true, 0); (false, 30)])
    (decodeFlat 0 [(false, 1); (false, 0); (false, 0); (true, 0)])
    (decodeFlat 0%float [])
    (newApproxPercentileAggregate true false seed).

Definition twoGroups : RowContainer Z :=
  [newKllSketchAccumulator seed; newKllSketchAccumulator seed].

(** An [array(double)] percentile column of two rows, [[0.25]] and
    [[0.5, null]], over the elements [0.25, 0.5, null]; the null element
    holds the raw value 0.  Row 0 is masked out: only row 1 is selected. *)
Definition arrayElements : DecodedVector double :=
  decodeFlat 0%float [(false, 0.25%float); (false, 0.5%float); (true, 0%float)].

Definition arrayPercentileColumn : PercentileVector :=
  {| pv_decoded := decodeFlat 0%float [(false, 0%float); (false, 0%float)];
     pv_base := ArrayBase arrayElements
                  (fun row => nth row [0; 1]%nat 0%nat)
                  (fun row => nth row [1; 2]%nat 0%nat);
     pv_equalValueAt := Nat.eqb |}.

(** A [double] percentile column of two rows, [null] and [0.5]; only
    row 1 is selected. *)
Definition scalarCells : list (bool * double) :=
  [(true, 0%float); (false, 0.5%float)].

Definition scalarPercentileColumn : PercentileVector :=
  {| pv_decoded := decodeFlat 0%float scalarCells;
     pv_base := DoubleBase;
     pv_equalValueAt := fun i j =>
       (nth i (map snd scalarCells) 0 =? nth j (map snd scalarCells) 0)%float |}.

Definition rowOneSelected : SelectivityVector := [1%nat].

Definition freshAggregate : ApproxPercentileAggregate Z :=
  newApproxPercentileAggregate false false seed.

(** An accuracy column of two rows, 0.5 and 0.25. *)
Definition accuracyAggregate : ApproxPercentileAggregate Z :=
  set_decoded (decodeFlat 0 []) (decodeFlat 0 [])
    (decodeFlat 0%float [(false, 0.5%float); (false, 0.25%float)])
    (newApproxPercentileAggregate false true seed).

(** An operator whose percentile resolved to the scalar 0.5. *)
Definition resolvedAggregate : ApproxPercentileAggregate Z :=
  set_percentiles_ {| values := [0.5%float]; isArray := false |} freshAggregate.

(** Three groups: one that received 5 and 2, one without input, one that
    received 7. *)
Definition threeGroups : RowContainer Z :=
  [unsortedAccumulator; newKllSketchAccumulator seed;
   append 7 (newKllSketchAccumulator seed)].

(** Two groups: one that received 9 with weight 600, which is buffered,
    and then 4; one without input. *)
Definition bufferedGroups : RowContainer Z :=
  [append 4 (appendCount 9 600 seed (newKllSketchAccumulator seed));
   newKllSketchAccumulator seed].

(** An array result vector of three rows reused from an earlier batch:
    it has a nulls buffer, with every row null. *)
Definition reusedArrayResult : ResultVector Z :=
  ArrayResult {| array_nulls := Some [true; true; true];
                 array_offsets := [0; 0; 0]; array_sizes := [0; 0; 0];
                 array_elements := [] |}.

Definition emptyFlatResult : ResultVector Z :=
  FlatResult {| flat_nulls := None; flat_values := [] |}.

Definition emptyArray {V} : ArrayVector V :=
  {| array_nulls := None; array_offsets := []; array_sizes := [];
     array_elements := [] |}.

Definition emptyRowVector : RowVector Z :=
  {| row_nulls := [];
     child_kPercentiles := createNullConstant 0;
     child_kPercentilesIsArray := createNullConstant 0;
     child_kAccuracy := createNullConstant 0;
     child_kK := {| flat_nulls := None; flat_values := [] |};
     child_kN := {| flat_nulls := None; flat_values := [] |};
     child_kMinValue := {| flat_nulls := None; flat_values := [] |};
     child_kMaxValue := {| flat_nulls := None; flat_values := [] |};
     child_kItems := emptyArray;
     child_kLevels := emptyArray |}.

(** An [ensureWritable] that grows the row vector to hold the rows asked
    for. *)
Definition ensureWritable (n : nat) (r : RowVector Z) : RowVector Z :=
  {| row_nulls := resize (Nat.max n (length (row_nulls r))) false (row_nulls r);
     child_kPercentiles := child_kPercentiles r;
     child_kPercentilesIsArray := child_kPercentilesIsArray r;
     child_kAccuracy := child_kAccuracy r;
     child_kK := child_kK r;
     child_kN := child_kN r;
     child_kMinValue := child_kMinValue r;
     child_kMaxValue := child_kMaxValue r;
     child_kItems := child_kItems r;
     child_kLevels := child_kLevels r |}.

(** Two rows with the weights 600 and 700, both of group 0. *)
Definition heavyAggregate : ApproxPercentileAggregate Z :=
  set_decoded
    (decodeFlat 0 [(false, 10); (false, 20)])
    (decodeFlat 0 [(false, 600); (false, 700)])
    (decodeFlat 0%float [])
    (newApproxPercentileAggregate true false seed).

(** The arguments of an unweighted call without accuracy: a value column
    [10, 20] and a [double] percentile column that holds 0.5 in both
    rows. *)
Definition constantCells : list (bool * double) :=
  [(false, 0.5%float); (false, 0.5%float)].

Definition constantPercentileColumn : PercentileVector :=
  {| pv_decoded := decodeFlat 0%float constantCells;
     pv_base := DoubleBase;
     pv_equalValueAt := fun i j =>
       (nth i (map snd constantCells) 0 =? nth j (map snd constantCells) 0)%float |}.

Definition scalarArguments : list (VectorPtr Z) :=
  [ValueVector (decodeFlat 0 [(false, 10); (false, 20)]);
   PercentileArgument constantPercentileColumn].

(** The steps that read raw input, and those that write partial output. *)
Definition isRawInput (step : Step.t) : bool :=
  match step with
  | Step.kPartial | Step.kSingle => true
  | _ => false
  end.

Definition isPartialOutput (step : Step.t) : bool :=
  match step with
  | Step.kPartial | Step.kIntermediate => true
  | _ => false
  end.

(** Two intermediate rows: a sketch of the single value 7 under the
    percentile 0.5 without accuracy, and a null row. *)
Definition intermediateRows : RowVector Z :=
  {| row_nulls := [false; true];
     child_kPercentiles := makeConstant 2 false [0.5%float];
     child_kPercentilesIsArray := makeConstant 2 false false;
     child_kAccuracy := createNullConstant 2;
     child_kK := {| flat_nulls := Some [false; false]; flat_values := [200; 0] |};
     child_kN := {| flat_nulls := Some [false; false]; flat_values := [1; 0] |};
     child_kMinValue := {| flat_nulls := Some [false; false]; flat_values := [7; 0] |};
     child_kMaxValue := {| flat_nulls := Some [false; false]; flat_values := [7; 0] |};
     child_kItems := {| array_nulls := Some [false; false];
                        array_offsets := [0; 0];
                        array_sizes := [1; 0];
                        array_elements := [7] |};
     child_kLevels := {| array_nulls := Some [false; false];
                         array_offsets := [0; 0];
                         array_sizes := [2; 0];
                         array_elements := [0; 1] |} |}.

Definition intermediateInput : IntermediateInput Z := readBack intermediateRows.

(** The same argument with a dictionary-encoded [k] child. *)
Definition dictionaryKInput : IntermediateInput Z :=
  {| input_isRowVector := input_isRowVector intermediateInput;
     input_isNullAt := input_isNullAt intermediateInput;
     input_index := input_index intermediateInput;
     input_encoding := fun i =>
       if (i =? kK)%nat then VectorEncoding.DICTIONARY
       else input_encoding intermediateInput i;
     input_percentilesIndex := input_percentilesIndex intermediateInput;
     input_percentilesBase := input_percentilesBase intermediateInput;
     input_percentileElements := input_percentileElements intermediateInput;
     input_percentileIsArray := input_percentileIsArray intermediateInput;
     input_accuracy := input_accuracy intermediateInput;
     input_k := input_k intermediateInput;
     input_n := input_n intermediateInput;
     input_minValue := input_minValue intermediateInput;
     input_maxValue := input_maxValue intermediateInput;
     input_items := input_items intermediateInput;
     input_levels := input_levels intermediateInput |}.

(** The view of the sketch row. *)
Definition sketchRowView : kll.View Z :=
  {| kll.view_k := 200;
     kll.view_n := 1;
     kll.view_minValue := 7;
     kll.view_maxValue := 7;
     kll.view_items := [7];
     kll.view_levels := [0; 1]%N |}.

(** An operator whose percentiles resolved to the array [0.25, 0.5]. *)
Definition arrayAggregate : ApproxPercentileAggregate Z :=
  set_percentiles_ {| values := [0.25%float; 0.5%float]; isArray := true |}
    freshAggregate.

(** The rows [extractAccumulators] writes for [threeGroups]. *)
Definition threeGroupsRows : RowVector Z :=
  match extractAccumulators ensureWritable [0; 1; 2]%nat emptyRowVector
          resolvedAggregate threeGroups with
  | Ok (_, out) => out
  | Failed _ => emptyRowVector
  end.

End Examples.

(** * Properties *)

(** ** Comparisons of doubles *)

Lemma SFcompare_Eq (x y : spec_float) :
  SFcompare x y = Some Eq ->
  (exists s s', x = S754_zero s /\ y = S754_zero s') \/ x = y.
Proof.
  destruct x as [s| s | |s m e], y as [s'|s'| |s' m' e']; simpl;
    try discriminate; try (destruct s; discriminate); try (destruct s'; discriminate).
  - intros _. left. eauto.
  - destruct s, s'; try discriminate; intros _; right; reflexivity.
  - destruct s, s'; try discriminate.
    + destruct (Z.compare_spec e e') as [->| |]; try discriminate.
      change (PosDef.Pos.compare_cont Eq m m') with (Pos.compare m m').
      destruct (Pos.compare_spec m m') as [->| |]; try discriminate.
      intros _. right. reflexivity.
    + destruct (Z.compare_spec e e') as [->| |]; try discriminate.
      change (PosDef.Pos.compare_cont Eq m m') with (Pos.compare m m').
      destruct (Pos.compare_spec m m') as [->| |]; try discriminate.
      intros _. right. reflexivity.
Qed.

Lemma SFcompare_zero_sign_l (s s' : bool) (z : spec_float) :
  SFcompare (S754_zero s) z = SFcompare (S754_zero s') z.
Proof. destruct z; reflexivity. Qed.

Lemma SFcompare_zero_sign_r (s s' : bool) (z : spec_float) :
  SFcompare z (S754_zero s) = SFcompare z (S754_zero s').
Proof. destruct z; reflexivity. Qed.

(** Doubles that compare equal compare alike with any third double. *)
Lemma double_eqb_compare (a b c : double) :
  (a =? b)%float = true ->
  (c <? a)%float = (c <? b)%float
  /\ (a <=? c)%float = (b <=? c)%float
  /\ (c =? a)%float = (c =? b)%float.
Proof.
  rewrite !FloatAxioms.ltb_spec, !FloatAxioms.leb_spec, !FloatAxioms.eqb_spec.
  unfold SFeqb at 1.
  destruct (SFcompare (Prim2SF a) (Prim2SF b)) as [[]|] eqn:Hcmp; try discriminate.
  intros _. unfold SFltb, SFleb, SFeqb.
  destruct (SFcompare_Eq _ _ Hcmp) as [(s & s' & -> & ->)| ->]; [|auto].
  rewrite (SFcompare_zero_sign_r s s'), (SFcompare_zero_sign_l s s'). auto.
Qed.

(** A positive double is not a NaN: it equals itself. *)
Lemma double_positive_eqb_refl (a : double) :
  (0 <? a)%float = true -> (a =? a)%float = true.
Proof.
  rewrite FloatAxioms.ltb_spec, FloatAxioms.eqb_spec.
  change (Prim2SF 0) with (S754_zero false).
  unfold SFltb, SFeqb.
  destruct (Prim2SF a) as [s|s| |s m e]; simpl; try discriminate.
  - destruct s; [discriminate | reflexivity].
  - destruct s; [discriminate|]. intros _.
    rewrite Z.compare_refl.
    change (PosDef.Pos.compare_cont Eq m m) with (Pos.compare m m).
    rewrite Pos.compare_refl. reflexivity.
Qed.

Lemma SFeqb_positive_negative (x : spec_float) (m : positive) (e : Z) :
  SFltb (S754_zero false) x = true -> SFeqb x (S754_finite true m e) = false.
Proof.
  unfold SFltb, SFeqb.
  destruct x as [s|s| |s m' e']; try discriminate;
    destruct s; try discriminate; reflexivity.
Qed.

(** A positive double is not the sentinel -1. *)
Lemma double_positive_not_missing (a : double) :
  (0 <? a)%float = true -> (a =? -1)%float = false.
Proof.
  rewrite FloatAxioms.ltb_spec, FloatAxioms.eqb_spec.
  assert (Hzero : Prim2SF 0 = S754_zero false) by reflexivity.
  assert (Hminus : exists m e, Prim2SF (-1) = S754_finite true m e)
    by (do 2 eexists; vm_compute; reflexivity).
  destruct Hminus as (m & e & ->). rewrite Hzero.
  apply SFeqb_positive_negative.
Qed.

(** ** The monad of outcomes *)

Lemma bind_Ok {A B} (a : A) (f : A -> Result B) : (Ok a ≫= f) = f a.
Proof. reflexivity. Qed.

Lemma bind_Failed {A B} (e : VeloxError) (f : A -> Result B) :
  (Failed e ≫= f) = Failed e.
Proof. reflexivity. Qed.

Lemma user_check_true (message : string) :
  VELOX_USER_CHECK true message = Ok tt.
Proof. reflexivity. Qed.

Lemma user_check_false (message : string) :
  VELOX_USER_CHECK false message = Failed (UserError message).
Proof. reflexivity. Qed.

Lemma applyToSelected_app {S} (f : nat -> S -> Result S) (rows rows' : list nat) (s : S) :
  applyToSelected (rows ++ rows') f s =
  (applyToSelected rows f s ≫= applyToSelected rows' f).
Proof.
  revert s. induction rows as [|row rows IH]; intros s; simpl; [reflexivity|].
  destruct (f row s) as [s'|e]; simpl; [apply IH | reflexivity].
Qed.

(** Rows on which the step does nothing can be left out of the walk. *)
Lemma applyToSelected_filter {S} (f : nat -> S -> Result S) (keep : nat -> bool)
    (rows : list nat) :
  (forall row s, keep row = false -> f row s = Ok s) ->
  forall s, applyToSelected rows f s = applyToSelected (List.filter keep rows) f s.
Proof.
  intros Hskip. induction rows as [|row rows IH]; intros s; simpl; [reflexivity|].
  destruct (keep row) eqn:Hkeep; simpl.
  - destruct (f row s); simpl; [apply IH | reflexivity].
  - rewrite (Hskip row s Hkeep). simpl. apply IH.
Qed.

(** ** The accumulator *)

Section AccumulatorFacts.

Context {T : Type} {L : kll.Library T}.

Lemma flush_buffer (seed : option N) (acc : KllSketchAccumulator T) :
  largeCountValues_ (flush seed acc) = [].
Proof. reflexivity. Qed.

Lemma flush_sketch (seed : option N) (acc : KllSketchAccumulator T) :
  sketch_ (flush seed acc) =
  kll.finish (mergeLargeCountValuesIntoSketch StlAllocator acc (sketch_ acc) seed).
Proof. reflexivity. Qed.

Lemma flush_finished (seed : option N) (acc : KllSketchAccumulator T) :
  kll.FinishLaw L -> kll.isFinished (sketch_ (flush seed acc)) = true.
Proof. intros law. rewrite flush_sketch. apply law. Qed.

Lemma merge_nonempty_buffer (a : Allocator) (acc : KllSketchAccumulator T)
    (sketch : kll.KllSketch a) (seed : option N) :
  largeCountValues_ acc <> [] ->
  mergeLargeCountValuesIntoSketch a acc sketch seed =
  kll.merge sketch (repeatedValueSketches a acc seed).
Proof.
  unfold mergeLargeCountValuesIntoSketch.
  destruct (largeCountValues_ acc); [congruence | reflexivity].
Qed.

(** C6: a weighted append with [count < 512] inserts the value
    [count] times and leaves the buffer alone; with [count >= 512] it
    appends the pair to the buffer and leaves the sketch alone, unless the
    buffer thereby holds 4096 pairs or more, in which case the accumulator
    is flushed: the buffer, new pair included, is merged into the sketch
    as repeated-value sketches, the sketch is finished and the buffer is
    empty. *)
Theorem appendCount_small_inserts_large_buffers (value : T) (count : Z)
    (seed : option N) (acc : KllSketchAccumulator T) :
  let buffered := {| sketch_ := sketch_ acc;
                     largeCountValues_ := largeCountValues_ acc ++ [(value, count)] |} in
  (count < 512 ->
     appendCount value count seed acc =
     {| sketch_ := Nat.iter (Z.to_nat count) (kll.insert value) (sketch_ acc);
        largeCountValues_ := largeCountValues_ acc |})
  /\ (512 <= count -> (length (largeCountValues_ acc) + 1 < 4096)%nat ->
     appendCount value count seed acc = buffered)
  /\ (512 <= count -> (4096 <= length (largeCountValues_ acc) + 1)%nat ->
     appendCount value count seed acc = flush seed buffered
     /\ largeCountValues_ (appendCount value count seed acc) = []
     /\ sketch_ (appendCount value count seed acc) =
        kll.finish
          (kll.merge (sketch_ acc)
             (map (fun xn : T * Z =>
                     kll.fromRepeatedValue xn.1 xn.2 (kll.k (sketch_ acc))
                       StlAllocator (getRandomSeed seed))
                  (largeCountValues_ acc ++ [(value, count)])))).
Proof.
  intros buffered.
  assert (Hlen : length (largeCountValues_ buffered)
                 = (length (largeCountValues_ acc) + 1)%nat).
  { simpl. rewrite length_app. reflexivity. }
  assert (Hbuf : largeCountValues_ buffered <> []).
  { simpl. destruct (largeCountValues_ acc); discriminate. }
  unfold appendCount, kMinCountToBuffer, kMaxBufferSize. fold buffered.
  split; [|split].
  - intros Hsmall. destruct (Z.ltb_spec count 512); [reflexivity | lia].
  - intros Hlarge Hroom. destruct (Z.ltb_spec count 512); [lia|].
    destruct (Nat.leb_spec 4096 (length (largeCountValues_ buffered)));
      [lia | reflexivity].
  - intros Hlarge Hfull. destruct (Z.ltb_spec count 512); [lia|].
    destruct (Nat.leb_spec 4096 (length (largeCountValues_ buffered))); [|lia].
    split; [reflexivity|]. split; [reflexivity|].
    rewrite flush_sketch, merge_nonempty_buffer by exact Hbuf. reflexivity.
Qed.

(** C1 (amended): [compact] hands the accumulator back unchanged, sketch
    and buffer alike, and returns a sketch over the heap allocator: the
    copy of the sketch's view, into which the repeated-value sketches of
    all buffered pairs (built over the heap allocator too) have been
    merged when the buffer is not empty, and which has then been
    compacted.  No finish step is applied to the copy. *)
Theorem compact_copies_merges_compacts (seed : option N)
    (acc : KllSketchAccumulator T) :
  let copy : kll.KllSketch StdAllocator :=
    kll.fromView (kll.toView (sketch_ acc)) StdAllocator (getRandomSeed seed) in
  (compact seed acc).2 = acc
  /\ (compact seed acc).1 =
     kll.compact
       (match largeCountValues_ acc with
        | [] => copy
        | _ :: _ =>
            kll.merge copy
              (map (fun xn : T * Z =>
                      kll.fromRepeatedValue xn.1 xn.2 (kll.k (sketch_ acc))
                        StdAllocator (getRandomSeed seed))
                   (largeCountValues_ acc))
        end).
Proof.
  intros copy. split; [reflexivity|].
  unfold compact, mergeLargeCountValuesIntoSketch, repeatedValueSketches. simpl.
  fold copy. destruct (largeCountValues_ acc); reflexivity.
Qed.

End AccumulatorFacts.

(** ** The raw-input path *)

Section RawInputFacts.

Context {T : Type} `{!Inhabited T} {L : kll.Library T}.

Implicit Types (this : ApproxPercentileAggregate T) (store : RowContainer T).

Lemma checkWeight_in_range (weight : Z) :
  1 <= weight <= 2 ^ 60 - 1 -> checkWeight weight = Ok tt.
Proof.
  intros [Hlow Hhigh]. unfold checkWeight, kMaxWeight.
  change (Z.shiftl 1 60 - 1) with (2 ^ 60 - 1).
  destruct (Z.leb_spec 1 weight); [|lia].
  destruct (Z.leb_spec weight (2 ^ 60 - 1)); [reflexivity | lia].
Qed.

Lemma checkWeight_out_of_range (weight : Z) :
  ~ (1 <= weight <= 2 ^ 60 - 1) ->
  exists message, checkWeight weight = Failed (UserError message).
Proof.
  intros Hout. unfold checkWeight, kMaxWeight.
  change (Z.shiftl 1 60 - 1) with (2 ^ 60 - 1).
  destruct (Z.leb_spec 1 weight); simpl; [|eauto].
  destruct (Z.leb_spec weight (2 ^ 60 - 1)); simpl; [lia | eauto].
Qed.

Lemma value_in_container store (group : nat) :
  (group < length store)%nat -> exists accumulator, value store group = Ok accumulator.
Proof.
  intros Hlt. unfold value.
  destruct (lookup_lt_is_Some_2 store group Hlt) as [accumulator ->]. eauto.
Qed.

Lemma initRawAccumulator_in_container this store (group : nat) :
  (group < length store)%nat ->
  exists store', initRawAccumulator this group store = Ok store'
                 /\ length store' = length store.
Proof.
  intros Hlt. unfold initRawAccumulator.
  destruct (value_in_container store group Hlt) as [accumulator ->]. simpl.
  destruct (negb _); eexists; split; try reflexivity.
  apply length_insert.
Qed.

Lemma validGroups_cons (groups : list nat) (row : nat) (rows : list nat) store :
  validGroups groups (row :: rows) store = true ->
  (exists group, groups !! row = Some group /\ (group < length store)%nat)
  /\ validGroups groups rows store = true.
Proof.
  unfold validGroups. simpl. intros [Hrow Hrows]%andb_prop. split; [|exact Hrows].
  destruct (groups !! row) as [group|]; [|discriminate].
  exists group. split; [reflexivity|]. apply Nat.ltb_lt. exact Hrow.
Qed.

Lemma validGroups_length (groups rows : list nat) store store' :
  length store' = length store ->
  validGroups groups rows store' = validGroups groups rows store.
Proof. intros Hlen. unfold validGroups. rewrite Hlen. reflexivity. Qed.

(** The weighted row lambda on a row that is not null: it fails exactly
    on the weight check. *)
Lemma weighted_row_not_null this (groups : list nat) (row group : nat) store :
  groups !! row = Some group -> (group < length store)%nat ->
  isNullAt (decodedValue_ this) row = false ->
  isNullAt (decodedWeight_ this) row = false ->
  (1 <= valueAt (decodedWeight_ this) row <= 2 ^ 60 - 1 ->
     exists store', addRawInputWeightedRow this groups row store = Ok store'
                    /\ length store' = length store)
  /\ (~ (1 <= valueAt (decodedWeight_ this) row <= 2 ^ 60 - 1) ->
     exists message,
       addRawInputWeightedRow this groups row store = Failed (UserError message)).
Proof.
  intros Hgroup Hlt Hvalue Hweight.
  unfold addRawInputWeightedRow, groupAt. rewrite Hvalue, Hweight, Hgroup. simpl.
  destruct (initRawAccumulator_in_container this store group Hlt)
    as (store1 & -> & Hlen1). simpl.
  destruct (value_in_container store1 group) as [accumulator ->]; [lia|]. simpl.
  split.
  - intros Hin. rewrite (checkWeight_in_range _ Hin). simpl.
    eexists. split; [reflexivity|]. rewrite length_insert. exact Hlen1.
  - intros Hout. destruct (checkWeight_out_of_range _ Hout) as [message ->].
    simpl. eauto.
Qed.

Lemma weighted_row_null this (groups : list nat) (row : nat) store :
  isNullAt (decodedValue_ this) row || isNullAt (decodedWeight_ this) row = true ->
  addRawInputWeightedRow this groups row store = Ok store.
Proof. intros Hnull. unfold addRawInputWeightedRow. rewrite Hnull. reflexivity. Qed.

Lemma weightOutOfRangeAt_dec this (row : nat) :
  {weightOutOfRangeAt this row} + {~ weightOutOfRangeAt this row}.
Proof.
  unfold weightOutOfRangeAt.
  destruct (isNullAt (decodedValue_ this) row);
    [right; intros (? & _); discriminate|].
  destruct (isNullAt (decodedWeight_ this) row);
    [right; intros (_ & ? & _); discriminate|].
  destruct (Z_le_dec 1 (valueAt (decodedWeight_ this) row));
    [destruct (Z_le_dec (valueAt (decodedWeight_ this) row) (2 ^ 60 - 1))|].
  - right. intros (_ & _ & Hbad). lia.
  - left. repeat split. lia.
  - left. repeat split. lia.
Qed.

Lemma weighted_rows_outcome this (groups : list nat) (rows : list nat) :
  forall store, validGroups groups rows store = true ->
  (Exists (weightOutOfRangeAt this) rows ->
     exists message,
       applyToSelected rows (addRawInputWeightedRow this groups) store
       = Failed (UserError message))
  /\ (~ Exists (weightOutOfRangeAt this) rows ->
     exists store',
       applyToSelected rows (addRawInputWeightedRow this groups) store = Ok store').
Proof.
  induction rows as [|row rows IH]; intros store Hvalid.
  - split; [intros Hex; inversion Hex | intros _; simpl; eauto].
  - apply validGroups_cons in Hvalid as [(group & Hgroup & Hlt) Hvalid].
    simpl.
    destruct (isNullAt (decodedValue_ this) row || isNullAt (decodedWeight_ this) row)
      eqn:Hnull.
    + rewrite (weighted_row_null this groups row store Hnull). simpl.
      destruct (IH store Hvalid) as [IHbad IHgood]. split.
      * intros Hex. apply IHbad. inversion Hex as [? ? Hhere|]; subst; [|assumption].
        destruct Hhere as (Hv & Hw & _). rewrite Hv, Hw in Hnull. discriminate.
      * intros Hnone. apply IHgood. intros Hex. apply Hnone. right. exact Hex.
    + apply orb_false_elim in Hnull as [Hv Hw].
      destruct (weighted_row_not_null this groups row group store Hgroup Hlt Hv Hw)
        as [Hin Hout].
      destruct (Z_le_dec 1 (valueAt (decodedWeight_ this) row)) as [Hlow|Hlow];
        [destruct (Z_le_dec (valueAt (decodedWeight_ this) row) (2 ^ 60 - 1))
           as [Hhigh|Hhigh]|].
      * destruct Hin as (store' & -> & Hlen); [lia|]. simpl.
        rewrite <- (validGroups_length groups rows store store' Hlen) in Hvalid.
        destruct (IH store' Hvalid) as [IHbad IHgood]. split.
        -- intros Hex. apply IHbad. inversion Hex as [? ? Hhere|]; subst; [|assumption].
           destruct Hhere as (_ & _ & Hbad). lia.
        -- intros Hnone. apply IHgood. intros Hex. apply Hnone. right. exact Hex.
      * destruct Hout as (message & ->); [lia|]. simpl. split; [eauto|].
        intros Hnone. exfalso. apply Hnone. left. repeat split; [assumption..|lia].
      * destruct Hout as (message & ->); [lia|]. simpl. split; [eauto|].
        intros Hnone. exfalso. apply Hnone. left. repeat split; [assumption..|lia].
Qed.

(** C2: on the weighted raw-input path, a selected row whose value and
    weight are both non-null raises a user error if and only if its
    weight lies outside [1, 2^60 - 1]; the walk over the selected rows
    raises a user error if and only if some such row has a weight outside
    the range, and fails in no other way; 0 and 2^60 are rejected and
    every weight of the range is accepted. *)
Theorem addRawInput_weight_error_iff_out_of_range this (groups : list nat)
    (rows : SelectivityVector) store :
  hasWeight_ this = true ->
  validGroups groups rows store = true ->
  (forall row group store',
      groups !! row = Some group -> (group < length store')%nat ->
      isNullAt (decodedValue_ this) row = false ->
      isNullAt (decodedWeight_ this) row = false ->
      (isUserError (addRawInputWeightedRow this groups row store') = true
       <-> ~ (1 <= valueAt (decodedWeight_ this) row <= 2 ^ 60 - 1))
      /\ (isOk (addRawInputWeightedRow this groups row store') = true
          <-> 1 <= valueAt (decodedWeight_ this) row <= 2 ^ 60 - 1))
  /\ (isUserError (addRawInputRows this groups rows store) = true
      <-> Exists (weightOutOfRangeAt this) rows)
  /\ (isOk (addRawInputRows this groups rows store) = true
      <-> ~ Exists (weightOutOfRangeAt this) rows)
  /\ isUserError (checkWeight 0) = true
  /\ isUserError (checkWeight (2 ^ 60)) = true
  /\ (forall weight, 1 <= weight <= 2 ^ 60 - 1 -> checkWeight weight = Ok tt).
Proof.
  intros HhasWeight Hvalid. split; [|split; [|split]].
  - intros row group store' Hgroup Hlt Hv Hw.
    destruct (weighted_row_not_null this groups row group store' Hgroup Hlt Hv Hw)
      as [Hin Hout].
    destruct (Z_le_dec 1 (valueAt (decodedWeight_ this) row)) as [Hlow|Hlow];
      [destruct (Z_le_dec (valueAt (decodedWeight_ this) row) (2 ^ 60 - 1))
         as [Hhigh|Hhigh]|].
    + destruct Hin as (store'' & -> & _); [lia|]. simpl.
      split; split; intros; try discriminate; try lia; try reflexivity.
    + destruct Hout as (message & ->); [lia|]. simpl.
      split; split; intros; try discriminate; try lia; try reflexivity.
    + destruct Hout as (message & ->); [lia|]. simpl.
      split; split; intros; try discriminate; try lia; try reflexivity.
  - unfold addRawInputRows. rewrite HhasWeight.
    destruct (weighted_rows_outcome this groups rows store Hvalid) as [Hbad Hgood].
    split.
    + intros Herr.
      destruct (List.Exists_dec (weightOutOfRangeAt this) rows
                  (weightOutOfRangeAt_dec this)) as [Hex|Hnone]; [exact Hex|].
      destruct (Hgood Hnone) as [store' Hok]. rewrite Hok in Herr. discriminate.
    + intros Hex. destruct (Hbad Hex) as [message ->]. reflexivity.
  - unfold addRawInputRows. rewrite HhasWeight.
    destruct (weighted_rows_outcome this groups rows store Hvalid) as [Hbad Hgood].
    split.
    + intros Hok Hex. destruct (Hbad Hex) as [message Herr]. rewrite Herr in Hok.
      discriminate.
    + intros Hnone. destruct (Hgood Hnone) as [store' ->]. reflexivity.
  - split; [reflexivity|]. split; [reflexivity|]. apply checkWeight_in_range.
Qed.

(** C8: the row lambda of the raw-input path returns at once on a row
    whose value is null or, with weights, whose weight is null: the row
    container is left as it was and no error is raised, whatever the
    row's weight; the walk over the selected rows is the walk over the
    rows that are not null. *)
Theorem addRawInput_skips_null_rows this (groups : list nat) :
  DecodedVector_wf (decodedValue_ this) ->
  (forall rows store,
      addRawInputRows this groups rows store
      = applyToSelected rows (rawInputRow this groups) store)
  /\ (forall row store,
        rowIsNull this row = true -> rawInputRow this groups row store = Ok store)
  /\ (forall rows store,
        addRawInputRows this groups rows store
        = addRawInputRows this groups
            (List.filter (fun row => negb (rowIsNull this row)) rows) store).
Proof.
  intros Hwf.
  assert (Hrows : forall rows store,
             addRawInputRows this groups rows store
             = applyToSelected rows (rawInputRow this groups) store).
  { intros rows store. unfold addRawInputRows, rawInputRow.
    destruct (hasWeight_ this); [reflexivity|].
    destruct (mayHaveNulls (decodedValue_ this)); reflexivity. }
  assert (Hskip : forall row store,
             rowIsNull this row = true -> rawInputRow this groups row store = Ok store).
  { intros row store. unfold rowIsNull, rawInputRow.
    destruct (hasWeight_ this); simpl.
    - apply weighted_row_null.
    - rewrite orb_false_r. intros Hnull.
      destruct (mayHaveNulls (decodedValue_ this)) eqn:Hmay.
      + unfold addRawInputNullableRow. rewrite Hnull. reflexivity.
      + rewrite (Hwf Hmay row) in Hnull. discriminate. }
  split; [exact Hrows|]. split; [exact Hskip|].
  intros rows store. rewrite !Hrows.
  apply applyToSelected_filter. intros row s Hkeep. apply Hskip.
  apply negb_false_iff. exact Hkeep.
Qed.

End RawInputFacts.

(** ** Accuracy resolution *)

Section AccuracyFacts.

Context {T : Type}.

Implicit Types (this : ApproxPercentileAggregate T).

Lemma accuracyInRange_positive (accuracy : double) :
  accuracyInRange accuracy = true -> (0 <? accuracy)%float = true.
Proof. unfold accuracyInRange. intros [Hpos _]%andb_prop. exact Hpos. Qed.

Lemma accuracyInRange_eqb (a b : double) :
  (a =? b)%float = true -> accuracyInRange a = accuracyInRange b.
Proof.
  intros Heq. unfold accuracyInRange.
  destruct (double_eqb_compare a b 0%float Heq) as (-> & _ & _).
  destruct (double_eqb_compare a b 1%float Heq) as (_ & -> & _).
  reflexivity.
Qed.

Lemma set_accuracy_isSet (accuracy : double) this :
  accuracyInRange accuracy = true ->
  accuracyIsSet (set_accuracy_ accuracy this) = true.
Proof.
  intros Hin. unfold accuracyIsSet, kMissingNormalizedValue. simpl.
  rewrite (double_positive_not_missing _ (accuracyInRange_positive _ Hin)).
  reflexivity.
Qed.

(** [checkSetAccuracy(double)] by cases. *)
Lemma checkSetAccuracy_cases (accuracy : double) this :
  checkSetAccuracy accuracy this =
  if negb (accuracyInRange accuracy) then
    Failed (UserError "Accuracy must be between 0 and 1")
  else if accuracyIsSet this then
    if (accuracy =? accuracy_ this)%float then Ok this
    else Failed (UserError "Accuracy argument must be constant for all input rows")
  else Ok (set_accuracy_ accuracy this).
Proof.
  unfold checkSetAccuracy, accuracyIsSet.
  destruct (accuracyInRange accuracy); simpl; [|reflexivity].
  destruct (accuracy_ this =? kMissingNormalizedValue)%float; simpl; [reflexivity|].
  destruct (accuracy =? accuracy_ this)%float; reflexivity.
Qed.

(** The row lambda on a state whose accuracy is resolved. *)
Lemma checkAccuracyRow_set (row : nat) this :
  accuracyIsSet this = true ->
  checkAccuracyRow row this =
  if isNullAt (decodedAccuracy_ this) row then
    Failed (UserError "Accuracy cannot be null")
  else if (valueAt (decodedAccuracy_ this) row =? accuracy_ this)%float then Ok this
  else Failed (UserError "Accuracy argument must be constant for all input rows").
Proof.
  unfold accuracyIsSet, checkAccuracyRow. intros Hset%negb_true_iff.
  destruct (isNullAt (decodedAccuracy_ this) row); simpl; [reflexivity|].
  rewrite Hset. simpl.
  destruct (valueAt (decodedAccuracy_ this) row =? accuracy_ this)%float; reflexivity.
Qed.

(** The row lambda on a state whose accuracy is not resolved yet. *)
Lemma checkAccuracyRow_unset (row : nat) this :
  accuracyIsSet this = false ->
  checkAccuracyRow row this =
  if isNullAt (decodedAccuracy_ this) row then
    Failed (UserError "Accuracy cannot be null")
  else if negb (accuracyInRange (valueAt (decodedAccuracy_ this) row)) then
    Failed (UserError "Accuracy must be between 0 and 1")
  else Ok (set_accuracy_ (valueAt (decodedAccuracy_ this) row) this).
Proof.
  unfold accuracyIsSet, checkAccuracyRow. intros Hunset%negb_false_iff.
  destruct (isNullAt (decodedAccuracy_ this) row); simpl; [reflexivity|].
  rewrite Hunset. unfold checkSetAccuracy. rewrite Hunset.
  destruct (accuracyInRange (valueAt (decodedAccuracy_ this) row)) eqn:Hin; simpl;
    [|reflexivity].
  rewrite (double_positive_eqb_refl _ (accuracyInRange_positive _ Hin)).
  reflexivity.
Qed.

(** The walk over the rows once the accuracy is resolved: it fails on the
    first null or differing row and never touches the state. *)
Lemma checkAccuracyRows_set this (rows : list nat) :
  accuracyIsSet this = true -> accuracyInvariant this ->
  isUserError (applyToSelected rows checkAccuracyRow this)
  = existsb (accuracyViolationAt this (accuracy_ this)) rows
  /\ (existsb (accuracyViolationAt this (accuracy_ this)) rows = false ->
      applyToSelected rows checkAccuracyRow this = Ok this).
Proof.
  intros Hset Hinv. induction rows as [|row rows [IHerr IHok]]; simpl; [auto|].
  rewrite (checkAccuracyRow_set row this Hset). unfold accuracyViolationAt at 1 3.
  destruct (isNullAt (decodedAccuracy_ this) row); simpl; [split; [reflexivity|discriminate]|].
  destruct (valueAt (decodedAccuracy_ this) row =? accuracy_ this)%float eqn:Heq; simpl.
  - rewrite (accuracyInRange_eqb _ _ Heq), (Hinv Hset). simpl. auto.
  - rewrite orb_true_r. simpl. split; [reflexivity|discriminate].
Qed.

Lemma accuracyViolationAt_set_accuracy (accuracy resolved : double) this (row : nat) :
  accuracyViolationAt (set_accuracy_ accuracy this) resolved row
  = accuracyViolationAt this resolved row.
Proof. reflexivity. Qed.

Lemma existsb_constant {A} (f : A -> bool) (b : bool) (l : list A) :
  l <> [] -> (forall x, f x = b) -> existsb f l = b.
Proof.
  intros Hne Hf. induction l as [|x l IH]; [congruence|]. simpl. rewrite Hf.
  destruct b; [reflexivity|]. destruct l as [|y l]; [reflexivity|].
  apply IH. discriminate.
Qed.

(** C7: with an accuracy argument, resolution over a non-empty
    selection raises a user error if and only if the accuracy of some
    selected row is null, lies outside (0, 1] or differs from the
    resolved accuracy (the one bound before or else the first selected
    row's); otherwise the call succeeds with the resolved accuracy bound,
    and a state whose accuracy was bound before is returned unchanged.
    The single-value check fails exactly on a value outside (0, 1] or
    different from a bound accuracy, and never changes a bound
    accuracy. *)
Theorem checkSetAccuracy_error_iff_violation this (rows : SelectivityVector) :
  hasAccuracy_ this = true ->
  rows <> [] ->
  DecodedVector_constant_wf (decodedAccuracy_ this) ->
  accuracyInvariant this ->
  (isUserError (checkSetAccuracyRows rows this) = true
   <-> existsb (accuracyViolationAt this (resolvedAccuracy this rows)) rows = true)
  /\ (existsb (accuracyViolationAt this (resolvedAccuracy this rows)) rows = false ->
      exists this',
        checkSetAccuracyRows rows this = Ok this'
        /\ accuracy_ this' = resolvedAccuracy this rows
        /\ accuracyIsSet this' = true
        /\ accuracyInvariant this'
        /\ (accuracyIsSet this = true -> this' = this))
  /\ (forall accuracy,
        isUserError (checkSetAccuracy accuracy this)
        = negb (accuracyInRange accuracy)
          || (accuracyIsSet this && negb (accuracy =? accuracy_ this)%float))
  /\ (forall accuracy this',
        accuracyIsSet this = true ->
        checkSetAccuracy accuracy this = Ok this' -> this' = this).
Proof.
  intros Hhas Hrows Hconst Hinv.
  assert (Hsingle : forall accuracy,
             isUserError (checkSetAccuracy accuracy this)
             = negb (accuracyInRange accuracy)
               || (accuracyIsSet this && negb (accuracy =? accuracy_ this)%float)).
  { intros accuracy. rewrite checkSetAccuracy_cases.
    destruct (accuracyInRange accuracy); simpl; [|reflexivity].
    destruct (accuracyIsSet this); simpl; [|reflexivity].
    destruct (accuracy =? accuracy_ this)%float; reflexivity. }
  assert (Hkeep : forall accuracy this',
             accuracyIsSet this = true ->
             checkSetAccuracy accuracy this = Ok this' -> this' = this).
  { intros accuracy this' Hset. rewrite checkSetAccuracy_cases, Hset.
    destruct (negb (accuracyInRange accuracy)); [discriminate|].
    destruct (accuracy =? accuracy_ this)%float; [|discriminate].
    intros [= <-]. reflexivity. }
  cut (isUserError (checkSetAccuracyRows rows this)
         = existsb (accuracyViolationAt this (resolvedAccuracy this rows)) rows
       /\ (existsb (accuracyViolationAt this (resolvedAccuracy this rows)) rows = false ->
           exists this',
             checkSetAccuracyRows rows this = Ok this'
             /\ accuracy_ this' = resolvedAccuracy this rows
             /\ accuracyIsSet this' = true
             /\ accuracyInvariant this'
             /\ (accuracyIsSet this = true -> this' = this))).
  { intros [Herr Hok]. rewrite Herr. repeat split; auto. }
  unfold checkSetAccuracyRows. rewrite Hhas. simpl.
  destruct (isConstantMapping (decodedAccuracy_ this)) eqn:Hmapping.
  - (* constant mapping: the one cell decides *)
    specialize (Hconst Hmapping).
    set (accuracy := valueAt (decodedAccuracy_ this) 0%nat).
    assert (Hresolved : resolvedAccuracy this rows
                        = if accuracyIsSet this then accuracy_ this else accuracy).
    { unfold resolvedAccuracy. destruct (accuracyIsSet this); [reflexivity|].
      apply Hconst. }
    rewrite (existsb_constant _
               (accuracyViolationAt this (resolvedAccuracy this rows) 0%nat) rows Hrows).
    2:{ intros row. unfold accuracyViolationAt.
        destruct (Hconst row) as [-> ->]. reflexivity. }
    unfold accuracyViolationAt. fold accuracy. rewrite Hresolved.
    destruct (isNullAt (decodedAccuracy_ this) 0%nat); simpl;
      [split; [reflexivity|discriminate]|].
    rewrite checkSetAccuracy_cases.
    destruct (accuracyInRange accuracy) eqn:Hin; simpl;
      [|split; [reflexivity|discriminate]].
    destruct (accuracyIsSet this) eqn:Hset.
    + destruct (accuracy =? accuracy_ this)%float; simpl;
        [|split; [reflexivity|discriminate]].
      split; [reflexivity|]. intros _. exists this. auto.
    + rewrite (double_positive_eqb_refl _ (accuracyInRange_positive _ Hin)). simpl.
      split; [reflexivity|]. intros _. exists (set_accuracy_ accuracy this).
      split; [reflexivity|]. split; [reflexivity|].
      split; [apply set_accuracy_isSet; exact Hin|].
      split; [intros _; exact Hin | discriminate].
  - (* one check per selected row *)
    destruct (accuracyIsSet this) eqn:Hset.
    + unfold resolvedAccuracy. rewrite Hset.
      destruct (checkAccuracyRows_set this rows Hset Hinv) as [Herr Hok].
      split; [exact Herr|]. intros Hnone. exists this. rewrite (Hok Hnone). auto.
    + destruct rows as [|row rows]; [congruence|].
      unfold resolvedAccuracy. rewrite Hset. simpl.
      set (accuracy := valueAt (decodedAccuracy_ this) row).
      rewrite (checkAccuracyRow_unset row this Hset). fold accuracy.
      unfold accuracyViolationAt at 1 3. fold accuracy.
      destruct (isNullAt (decodedAccuracy_ this) row); simpl;
        [split; [reflexivity|discriminate]|].
      destruct (accuracyInRange accuracy) eqn:Hin; simpl;
        [|split; [reflexivity|discriminate]].
      rewrite (double_positive_eqb_refl _ (accuracyInRange_positive _ Hin)). simpl.
      pose proof (set_accuracy_isSet accuracy this Hin) as Hset'.
      assert (Hinv' : accuracyInvariant (set_accuracy_ accuracy this))
        by (intros _; exact Hin).
      destruct (checkAccuracyRows_set (set_accuracy_ accuracy this) rows Hset' Hinv')
        as [Herr Hok].
      split; [exact Herr|]. intros Hnone.
      exists (set_accuracy_ accuracy this). split; [apply Hok; exact Hnone|].
      split; [reflexivity|]. split; [exact Hset'|]. split; [exact Hinv' | discriminate].
Qed.

End AccuracyFacts.

(** ** Percentile resolution *)

Section PercentileFacts.

Context {T : Type}.

Implicit Types (this : ApproxPercentileAggregate T).

(** The loop that reads the percentiles succeeds exactly when, for every
    [j < count], the null bit at [i + j] is clear and the value at
    [offset + i + j] lies in [0, 1]: the null bit is not the one of the
    element read. *)
Lemma readPercentiles_Ok_iff (percentiles : DecodedVector double)
    (offset count : nat) :
  forall i,
    isOk (readPercentiles percentiles offset i count) = true
    <-> forall j, (j < count)%nat ->
          isNullAt percentiles (i + j) = false
          /\ (0 <=? valueAt percentiles (offset + (i + j)))%float = true
          /\ (valueAt percentiles (offset + (i + j)) <=? 1)%float = true.
Proof.
  induction count as [|count IH]; intros i; simpl.
  - split; [intros _ j Hj; lia | reflexivity].
  - destruct (isNullAt percentiles i) eqn:Hnull; simpl.
    { split; [discriminate|]. intros Hall.
      destruct (Hall 0%nat) as (Hn & _); [lia|].
      rewrite Nat.add_0_r, Hnull in Hn. discriminate. }
    destruct (0 <=? valueAt percentiles (offset + i))%float eqn:Hlow; simpl.
    2:{ split; [discriminate|]. intros Hall.
        destruct (Hall 0%nat) as (_ & Hl & _); [lia|].
        rewrite Nat.add_0_r, Hlow in Hl. discriminate. }
    destruct (valueAt percentiles (offset + i) <=? 1)%float eqn:Hhigh; simpl.
    2:{ split; [discriminate|]. intros Hall.
        destruct (Hall 0%nat) as (_ & _ & Hh); [lia|].
        rewrite Nat.add_0_r, Hhigh in Hh. discriminate. }
    specialize (IH (S i)).
    destruct (readPercentiles percentiles offset (S i) count) as [rest|e]; simpl.
    + split; [|reflexivity]. intros _ j Hj. destruct j as [|j].
      * rewrite Nat.add_0_r. auto.
      * replace (i + S j)%nat with (S i + j)%nat by lia.
        apply (proj1 IH); [reflexivity | lia].
    + split; [discriminate|]. intros Hall.
      assert (Hfalse : isOk (Failed (A := list double) e) = true); [|discriminate].
      apply (proj2 IH). intros j Hj.
      replace (S i + j)%nat with (i + S j)%nat by lia. apply Hall. lia.
Qed.

End PercentileFacts.

(** C3 (the code departs from the claim): the null check of the
    resolution loop reads the null bit at [i] and the value at
    [offset + i].  On an array column whose first selected row starts at
    offset 1, the percentile array [[0.5, null]] is accepted and bound as
    [[0.5, 0]]; on a scalar column whose only selected row holds 0.5, the
    null of the unselected row 0 raises "Percentile cannot be null". *)
Theorem checkSetPercentile_null_check_ignores_offset :
  (isNullAt Examples.arrayElements 2 = true
   /\ exists this',
        checkSetPercentileVector Examples.rowOneSelected
          Examples.arrayPercentileColumn Examples.freshAggregate = Ok this'
        /\ percentiles_ this'
           = Some {| values := [0.5; 0]%float; isArray := true |})
  /\ (isNullAt (pv_decoded Examples.scalarPercentileColumn) 1 = false
      /\ valueAt (pv_decoded Examples.scalarPercentileColumn) 1 = 0.5%float
      /\ checkSetPercentileVector Examples.rowOneSelected
           Examples.scalarPercentileColumn Examples.freshAggregate
         = Failed (UserError "Percentile cannot be null")).
Proof.
  split.
  - split; [reflexivity|]. eexists. split; reflexivity.
  - split; [reflexivity|]. split; reflexivity.
Qed.

(** ** Extraction of the final values *)

Section ExtractValuesFacts.

Context {T : Type} `{!Inhabited T} {L : kll.Library T}.

Implicit Types (this : ApproxPercentileAggregate T) (store : RowContainer T).

Lemma groupsInContainer_cons (group : nat) (groups : list nat) store :
  groupsInContainer (group :: groups) store = true ->
  (group < length store)%nat /\ groupsInContainer groups store = true.
Proof.
  unfold groupsInContainer. simpl. intros [Hgroup Hrest]%andb_prop.
  split; [apply Nat.ltb_lt; exact Hgroup | exact Hrest].
Qed.

Lemma groupsInContainer_length (groups : list nat) store store' :
  length store' = length store ->
  groupsInContainer groups store' = groupsInContainer groups store.
Proof. intros Hlen. unfold groupsInContainer. rewrite Hlen. reflexivity. Qed.

Lemma value_lookup store (group : nat) (accumulator : KllSketchAccumulator T) :
  store !! group = Some accumulator -> value store group = Ok accumulator.
Proof. intros Hlookup. unfold value. rewrite Hlookup. reflexivity. Qed.

(** The flushing loop reaches every group named, touches no other slot
    and leaves in every slot named the result of a [flush]. *)
Lemma flushGroups_outcome (seed : option N) (groups : list nat) :
  forall store, groupsInContainer groups store = true ->
  exists store',
    flushGroups seed groups store = Ok store'
    /\ length store' = length store
    /\ (forall slot, slot ∉ groups -> store' !! slot = store !! slot)
    /\ (forall group accumulator,
          group ∈ groups -> store' !! group = Some accumulator ->
          exists before, accumulator = flush seed before).
Proof.
  induction groups as [|group groups IH]; intros store Hin; simpl.
  - exists store. repeat split; try reflexivity.
    intros group accumulator Hel. inversion Hel.
  - apply groupsInContainer_cons in Hin as [Hlt Hrest].
    destruct (lookup_lt_is_Some_2 store group Hlt) as [accumulator Hacc].
    rewrite (value_lookup _ _ _ Hacc). simpl.
    set (store1 := <[group := flush seed accumulator]> store).
    assert (Hlen1 : length store1 = length store) by apply length_insert.
    rewrite <- (groupsInContainer_length groups store store1 Hlen1) in Hrest.
    destruct (IH store1 Hrest) as (store' & Hflush & Hlen & Hother & Hflushed).
    exists store'. split; [exact Hflush|]. split; [congruence|]. split.
    + intros slot [Hne Hnotin]%not_elem_of_cons.
      rewrite (Hother slot Hnotin). unfold store1.
      apply list_lookup_insert_ne. congruence.
    + intros group' accumulator' Hel Hlookup.
      destruct (decide (group' ∈ groups)) as [Hin'|Hnotin].
      * exact (Hflushed group' accumulator' Hin' Hlookup).
      * apply elem_of_cons in Hel as [->|Hel]; [|contradiction].
        rewrite (Hother group Hnotin) in Hlookup. unfold store1 in Hlookup.
        rewrite list_lookup_insert_eq in Hlookup by exact Hlt.
        exists accumulator. congruence.
Qed.

Lemma countElements_Ok store (groups : list nat) (size : Z) :
  groupsInContainer groups store = true ->
  forall elementsCount, exists total,
    countElements store groups size elementsCount = Ok total.
Proof.
  induction groups as [|group groups IH]; intros Hin elementsCount; simpl; [eauto|].
  apply groupsInContainer_cons in Hin as [Hlt Hrest].
  destruct (lookup_lt_is_Some_2 store group Hlt) as [accumulator Hacc].
  rewrite (value_lookup _ _ _ Hacc). simpl.
  destruct (0 <? kll.totalCount (getSketch accumulator))%N; apply IH; exact Hrest.
Qed.

(** Reading and writing of the null flags. *)
Lemma nullAt_setNullAt (size i k : nat) (isNull : bool)
    (nulls : option (list bool)) :
  nullsSized size nulls -> (i < size)%nat ->
  nullAt (setNullAt size i isNull nulls) k
  = if (k =? i)%nat then isNull else nullAt nulls k.
Proof.
  intros Hsized Hi. destruct nulls as [flags|]; simpl.
  - specialize (Hsized flags eq_refl). rewrite !nth_lookup.
    destruct (Nat.eqb_spec k i) as [->|Hne].
    + rewrite list_lookup_insert_eq by lia. reflexivity.
    + rewrite list_lookup_insert_ne by congruence. reflexivity.
  - destruct isNull; simpl.
    + rewrite nth_lookup. destruct (Nat.eqb_spec k i) as [->|Hne].
      * rewrite list_lookup_insert_eq by (rewrite length_replicate; lia).
        reflexivity.
      * rewrite list_lookup_insert_ne by congruence.
        destruct (replicate size false !! k) as [flag|] eqn:Hflag; [|reflexivity].
        apply lookup_replicate in Hflag as [-> _]. reflexivity.
    + destruct (k =? i)%nat; reflexivity.
Qed.

Lemma nullAt_clearBit (i k : nat) (nulls : option (list bool)) :
  k <> i -> nullAt (clearBit i nulls) k = nullAt nulls k.
Proof.
  intros Hne. destruct nulls as [flags|]; simpl; [|reflexivity].
  rewrite !nth_lookup, list_lookup_insert_ne by congruence. reflexivity.
Qed.

Lemma setNullAt_sized (size i : nat) (isNull : bool) (nulls : option (list bool)) :
  nullsSized size nulls -> nullsSized size (setNullAt size i isNull nulls).
Proof.
  intros Hsized flags. destruct nulls as [flags0|]; simpl.
  - intros [= <-]. rewrite length_insert. apply Hsized. reflexivity.
  - destruct isNull; [|discriminate]. intros [= <-].
    rewrite length_insert. apply length_replicate.
Qed.

Lemma clearBit_sized (size i : nat) (nulls : option (list bool)) :
  nullsSized size nulls -> nullsSized size (clearBit i nulls).
Proof.
  intros Hsized flags. destruct nulls as [flags0|]; simpl; [|discriminate].
  intros [= <-]. rewrite length_insert. apply Hsized. reflexivity.
Qed.

Lemma resizeNulls_sized (n : nat) (nulls : option (list bool)) :
  nullsSized n (resizeNulls n nulls).
Proof.
  intros flags. destruct nulls as [flags0|]; simpl; [|discriminate].
  intros [= <-]. apply length_resize.
Qed.

(** Raising the flag of a row before the row is set not null leaves no
    trace: [bits::clearBit] followed by the extract function. *)
Lemma nullAt_row_written (size i k : nat) (rawNulls : bool)
    (nulls : option (list bool)) :
  nullsSized size nulls -> (i < size)%nat ->
  nullAt (setNullAt size i false (if rawNulls then clearBit i nulls else nulls)) k
  = if (k =? i)%nat then false else nullAt nulls k.
Proof.
  intros Hsized Hi. destruct rawNulls.
  - rewrite nullAt_setNullAt by (try apply clearBit_sized; assumption).
    destruct (Nat.eqb_spec k i) as [_|Hne]; [reflexivity|].
    apply nullAt_clearBit. exact Hne.
  - apply nullAt_setNullAt; assumption.
Qed.

(** The loop of [extract], read through the null flags and the calls of
    the result it threads. *)
Lemma extractLoop_outcome {R : Type} (sizeOf : R -> nat)
    (nullsOf : R -> option (list bool))
    (callsOf : R -> list (QuantileCall T))
    (mkCall : kll.KllSketch StlAllocator -> QuantileCall T)
    (setNull clearRawBit : nat -> R -> R) (rawNulls : bool)
    (extractFunction : kll.KllSketch StlAllocator -> nat -> R -> R)
    (p : Percentiles) store :
  (forall digest, mkCall digest = quantileCall p digest) ->
  (forall i r,
      sizeOf (setNull i r) = sizeOf r
      /\ nullsOf (setNull i r) = setNullAt (sizeOf r) i true (nullsOf r)
      /\ callsOf (setNull i r) = callsOf r) ->
  (forall i r,
      sizeOf (clearRawBit i r) = sizeOf r
      /\ nullsOf (clearRawBit i r) = clearBit i (nullsOf r)
      /\ callsOf (clearRawBit i r) = callsOf r) ->
  (forall digest i r,
      sizeOf (extractFunction digest i r) = sizeOf r
      /\ nullsOf (extractFunction digest i r)
         = setNullAt (sizeOf r) i false (nullsOf r)
      /\ callsOf (extractFunction digest i r) = callsOf r ++ [mkCall digest]) ->
  forall (groups : list nat) (i : nat) (r : R),
    groupsInContainer groups store = true ->
    nullsSized (sizeOf r) (nullsOf r) ->
    (i + length groups <= sizeOf r)%nat ->
    exists r',
      extractLoop setNull rawNulls clearRawBit extractFunction store groups i r
      = Ok r'
      /\ sizeOf r' = sizeOf r
      /\ (forall k, (k < i)%nat -> nullAt (nullsOf r') k = nullAt (nullsOf r) k)
      /\ (forall j group accumulator,
            groups !! j = Some group -> store !! group = Some accumulator ->
            nullAt (nullsOf r') (i + j)%nat
            = (kll.totalCount (sketch_ accumulator) =? 0)%N)
      /\ callsOf r' = callsOf r ++ quantileCalls p store groups.
Proof.
  intros Hcall HsetNull HclearBit Hextract.
  induction groups as [|group groups IH]; intros i r Hin Hsized Hroom; simpl.
  - exists r. repeat split; try reflexivity.
    + intros j group accumulator Hj. rewrite lookup_nil in Hj. discriminate.
    + rewrite app_nil_r. reflexivity.
  - apply groupsInContainer_cons in Hin as [Hlt Hrest].
    destruct (lookup_lt_is_Some_2 store group Hlt) as [accumulator Hacc].
    rewrite (value_lookup _ _ _ Hacc), Hacc. simpl. unfold getSketch.
    simpl in Hroom.
    set (isEmpty := (kll.totalCount (sketch_ accumulator) =? 0)%N).
    set (r1 := if isEmpty then setNull i r
               else extractFunction (sketch_ accumulator) i
                      (if rawNulls then clearRawBit i r else r)).
    assert (Hstep : sizeOf r1 = sizeOf r
                    /\ nullsSized (sizeOf r) (nullsOf r1)
                    /\ (forall k, nullAt (nullsOf r1) k
                                  = if (k =? i)%nat then isEmpty
                                    else nullAt (nullsOf r) k)
                    /\ callsOf r1
                       = callsOf r
                         ++ (if isEmpty then []
                             else [quantileCall p (sketch_ accumulator)])).
    { unfold r1. destruct isEmpty.
      - destruct (HsetNull i r) as (Hsize & Hnulls & Hcalls).
        rewrite Hsize, Hnulls, Hcalls, app_nil_r.
        split; [reflexivity|]. split; [apply setNullAt_sized; exact Hsized|].
        split; [|reflexivity].
        intros k. apply nullAt_setNullAt; [exact Hsized | lia].
      - set (r0 := if rawNulls then clearRawBit i r else r).
        assert (Hr0 : sizeOf r0 = sizeOf r
                      /\ nullsOf r0
                         = (if rawNulls then clearBit i (nullsOf r) else nullsOf r)
                      /\ callsOf r0 = callsOf r).
        { unfold r0. destruct rawNulls; [apply HclearBit | auto]. }
        destruct Hr0 as (Hsize0 & Hnulls0 & Hcalls0).
        destruct (Hextract (sketch_ accumulator) i r0) as (Hsize & Hnulls & Hcalls).
        rewrite Hsize, Hnulls, Hcalls, Hsize0, Hnulls0, Hcalls0, Hcall.
        split; [reflexivity|]. split.
        { apply setNullAt_sized. destruct rawNulls;
            [apply clearBit_sized; exact Hsized | exact Hsized]. }
        split; [|reflexivity].
        intros k. apply nullAt_row_written; [exact Hsized | lia]. }
    destruct Hstep as (Hsize1 & Hsized1 & Hnulls1 & Hcalls1).
    destruct (IH (S i) r1 Hrest) as (r' & Hloop & Hsize & Hbefore & Hrows & Hlog);
      [rewrite Hsize1; exact Hsized1 | rewrite Hsize1; lia |].
    exists r'. split.
    { unfold r1, isEmpty in Hloop.
      destruct (kll.totalCount (sketch_ accumulator) =? 0)%N; exact Hloop. }
    split; [congruence|]. split; [|split].
    + intros k Hk. rewrite Hbefore by lia. rewrite Hnulls1.
      destruct (Nat.eqb_spec k i); [lia | reflexivity].
    + intros j group' accumulator' Hj Hacc'. destruct j as [|j]; simpl in Hj.
      * injection Hj as <-. rewrite Hacc in Hacc'. injection Hacc' as <-.
        rewrite Nat.add_0_r. rewrite Hbefore by lia. rewrite Hnulls1.
        rewrite Nat.eqb_refl. reflexivity.
      * replace (i + S j)%nat with (S i + j)%nat by lia.
        apply (Hrows j group' accumulator' Hj Hacc').
    + rewrite Hlog, Hcalls1, <- app_assoc. fold isEmpty.
      destruct isEmpty; reflexivity.
Qed.

(** The digests of the calls are sketches of the groups. *)
Lemma quantileCalls_digests (p : Percentiles) store (groups : list nat) :
  Forall (fun call =>
            exists group accumulator,
              group ∈ groups /\ store !! group = Some accumulator
              /\ callDigest call = sketch_ accumulator)
         (quantileCalls p store groups).
Proof.
  induction groups as [|group groups IH]; simpl; [constructor|].
  assert (Hweaken : Forall (fun call =>
            exists group' accumulator,
              group' ∈ group :: groups /\ store !! group' = Some accumulator
              /\ callDigest call = sketch_ accumulator)
            (quantileCalls p store groups)).
  { eapply Forall_impl; [exact IH|]. intros call (g & a & Hel & Hl & Hd).
    exists g, a. split; [apply list_elem_of_further; exact Hel | auto]. }
  destruct (store !! group) as [accumulator|] eqn:Hacc; [|constructor].
  destruct (kll.totalCount (sketch_ accumulator) =? 0)%N; [exact Hweaken|].
  constructor; [|exact Hweaken].
  exists group, accumulator. split; [apply list_elem_of_here|]. split; [exact Hacc|].
  unfold quantileCall. destruct (isArray p); reflexivity.
Qed.

(** [extractValues] on groups of the row container and a result vector of
    the class its branch expects. *)
Lemma extractValues_outcome this (groups : list nat) (result : ResultVector T) store :
  groupsInContainer groups store = true ->
  resultFitsPercentiles this result = true ->
  exists store' out calls,
    extractValues groups result this store = Ok (store', out, calls)
    /\ flushGroups (fixedRandomSeed_ this) groups store = Ok store'
    /\ match percentiles_ this with
       | None => out = NullConstantResult (length groups) /\ calls = []
       | Some p =>
           calls = quantileCalls p store' groups
           /\ forall i group accumulator,
                groups !! i = Some group -> store' !! group = Some accumulator ->
                resultIsNullAt out i
                = Some (kll.totalCount (sketch_ accumulator) =? 0)%N
       end.
Proof.
  intros Hin Hfits.
  destruct (flushGroups_outcome (fixedRandomSeed_ this) groups store Hin)
    as (store' & Hflush & Hlen & _ & _).
  rewrite <- (groupsInContainer_length groups store store' Hlen) in Hin.
  unfold extractValues, resultFitsPercentiles in *. rewrite Hflush. simpl.
  destruct (percentiles_ this) as [p|]; [|eauto 10].
  destruct (isArray p) eqn:HisArray.
  - destruct result as [size|flatResult|arrayResult]; try discriminate.
    destruct (countElements_Ok store' groups (Z.of_nat (length (values p))) Hin 0)
      as [elementsCount ->]. simpl. unfold extract.
    set (start := ae_map (array_resize (length groups)) _).
    edestruct (extractLoop_outcome
                 (fun r : ArrayExtract => array_size (ae_result r))
                 (fun r : ArrayExtract => array_nulls (ae_result r)) ae_calls
                 (fun digest => EstimateQuantiles digest (values p))
                 (fun i => ae_map (array_setNull i true))
                 (fun i => ae_map (array_clearBit i))
                 (array_mayHaveNulls (ae_result start))
                 (arrayExtractFunction (values p)) p store')
      with (groups := groups) (i := 0%nat) (r := start)
      as (r' & Hloop & Hsize & _ & Hrows & Hlog);
      [ intros digest; unfold quantileCall; rewrite HisArray; reflexivity
      | intros i r; repeat split
      | intros i r; repeat split
      | intros digest i r; split;
          [unfold array_size; simpl; apply length_insert | split; reflexivity]
      | exact Hin
      | unfold start, array_size; simpl; rewrite length_resize;
          apply resizeNulls_sized
      | unfold start, array_size; simpl; rewrite length_resize; lia
      | ].
    rewrite Hloop. simpl. do 3 eexists. split; [reflexivity|].
    split; [reflexivity|]. split; [exact Hlog|].
    intros i group accumulator Hi Hacc. simpl.
    rewrite <- (Hrows i group accumulator Hi Hacc). simpl.
    rewrite Hsize. unfold start, array_size. simpl. rewrite length_resize.
    apply lookup_lt_Some in Hi.
    destruct (Nat.ltb_spec i (length groups)); [reflexivity | lia].
  - destruct result as [size|flatResult|arrayResult]; try discriminate.
    unfold extract.
    set (start := fe_map (flat_resize (length groups)) _).
    edestruct (extractLoop_outcome
                 (fun r : FlatExtract => flat_size (fe_result r))
                 (fun r : FlatExtract => flat_nulls (fe_result r)) fe_calls
                 (fun digest => EstimateQuantile digest (List.last (values p) 0%float))
                 (fun i => fe_map (flat_setNull i true))
                 (fun i => fe_map (flat_clearBit i))
                 (flat_mayHaveNulls (fe_result start))
                 (flatExtractFunction (values p)) p store')
      with (groups := groups) (i := 0%nat) (r := start)
      as (r' & Hloop & Hsize & _ & Hrows & Hlog);
      [ intros digest; unfold quantileCall; rewrite HisArray; reflexivity
      | intros i r; repeat split
      | intros i r; repeat split
      | intros digest i r; split;
          [unfold flat_size; simpl; apply length_insert
          | split; [simpl; destruct (flat_nulls (fe_result r)); reflexivity
                   | reflexivity]]
      | exact Hin
      | unfold start, flat_size; simpl; rewrite length_resize;
          apply resizeNulls_sized
      | unfold start, flat_size; simpl; rewrite length_resize; lia
      | ].
    rewrite Hloop. simpl. do 3 eexists. split; [reflexivity|].
    split; [reflexivity|]. split; [exact Hlog|].
    intros i group accumulator Hi Hacc. simpl.
    rewrite <- (Hrows i group accumulator Hi Hacc). simpl.
    rewrite Hsize. unfold start, flat_size. simpl. rewrite length_resize.
    apply lookup_lt_Some in Hi.
    destruct (Nat.ltb_spec i (length groups)); [reflexivity | lia].
Qed.

(** What the flushing loop leaves in a slot: the accumulator the slot
    held, flushed once for every time the group is named. *)
Lemma flushGroups_slots (seed : option N) (groups : list nat) :
  forall store store',
    flushGroups seed groups store = Ok store' ->
    forall slot accumulator,
      store !! slot = Some accumulator ->
      store' !! slot
      = Some (Nat.iter (count_occ Nat.eq_dec groups slot) (flush seed) accumulator).
Proof.
  induction groups as [|group groups IH]; intros store store'; simpl.
  - intros [= <-] slot accumulator Hslot. exact Hslot.
  - unfold value. destruct (store !! group) as [held|] eqn:Hheld; simpl;
      [|discriminate].
    intros Hrest slot accumulator Hslot.
    destruct (Nat.eq_dec group slot) as [->|Hne].
    + rewrite Hheld in Hslot. injection Hslot as ->.
      rewrite (IH _ _ Hrest slot (flush seed accumulator)).
      * rewrite <- Nat.iter_succ_r. reflexivity.
      * apply list_lookup_insert_eq. apply lookup_lt_Some in Hheld. exact Hheld.
    + apply (IH _ _ Hrest). rewrite list_lookup_insert_ne by exact Hne. exact Hslot.
Qed.

(** An accumulator flushed once or more: the buffer is empty and the
    sketch is the sketch with the buffered pairs merged, finished as
    many times. *)
Lemma flush_iter (seed : option N) (accumulator : KllSketchAccumulator T) (n : nat) :
  largeCountValues_ (Nat.iter (S n) (flush seed) accumulator) = []
  /\ sketch_ (Nat.iter (S n) (flush seed) accumulator)
     = Nat.iter (S n) (fun sketch => kll.finish sketch)
         (mergeLargeCountValuesIntoSketch StlAllocator accumulator
            (sketch_ accumulator) seed).
Proof.
  induction n as [|n [Hbuffer Hsketch]]; [split; reflexivity|].
  split; [reflexivity|].
  change (Nat.iter (S (S n)) (flush seed) accumulator)
    with (flush seed (Nat.iter (S n) (flush seed) accumulator)).
  rewrite flush_sketch. unfold mergeLargeCountValuesIntoSketch at 1.
  rewrite Hbuffer, Hsketch. reflexivity.
Qed.

Lemma count_occ_elem_of (groups : list nat) (group : nat) :
  group ∈ groups -> exists n, count_occ Nat.eq_dec groups group = S n.
Proof.
  intros Hel. apply list_elem_of_In in Hel.
  apply (count_occ_In Nat.eq_dec) in Hel.
  destruct (count_occ Nat.eq_dec groups group) as [|n]; [lia | eauto].
Qed.

(** C9: [extractValues] flushes the accumulator of every group before
    any estimate is taken.  After the call the slot of every group named
    holds the accumulator the group held before, flushed: its buffer is
    empty and its sketch is the sketch it had with the buffered pairs
    merged as repeated-value sketches and finished, once for every time
    the group is named; this whether or not the output of the group is
    null.  Every call of [estimateQuantile] or [estimateQuantiles] is
    made on the sketch of such a slot, a finished sketch.  The other
    slots of the row container are as before. *)
Theorem extractValues_estimates_on_flushed_sketches this (groups : list nat)
    (result : ResultVector T) store :
  kll.FinishLaw L ->
  groupsInContainer groups store = true ->
  resultFitsPercentiles this result = true ->
  exists store' out calls,
    extractValues groups result this store = Ok (store', out, calls)
    /\ flushGroups (fixedRandomSeed_ this) groups store = Ok store'
    /\ length store' = length store
    /\ (forall slot, slot ∉ groups -> store' !! slot = store !! slot)
    /\ (forall group accumulator,
          group ∈ groups -> store !! group = Some accumulator ->
          exists flushed,
            store' !! group = Some flushed
            /\ largeCountValues_ flushed = []
            /\ sketch_ flushed
               = Nat.iter (count_occ Nat.eq_dec groups group)
                   (fun sketch => kll.finish sketch)
                   (match largeCountValues_ accumulator with
                    | [] => sketch_ accumulator
                    | _ :: _ =>
                        kll.merge (sketch_ accumulator)
                          (map (fun xn : T * Z =>
                                  kll.fromRepeatedValue xn.1 xn.2
                                    (kll.k (sketch_ accumulator)) StlAllocator
                                    (getRandomSeed (fixedRandomSeed_ this)))
                             (largeCountValues_ accumulator))
                    end)
            /\ kll.isFinished (sketch_ flushed) = true)
    /\ Forall (fun call =>
                 kll.isFinished (callDigest call) = true
                 /\ exists group flushed,
                      group ∈ groups /\ store' !! group = Some flushed
                      /\ callDigest call = sketch_ flushed)
              calls.
Proof.
  intros Hlaw Hin Hfits.
  destruct (extractValues_outcome this groups result store Hin Hfits)
    as (store' & out & calls & Hextract & Hflush & Hout).
  destruct (flushGroups_outcome (fixedRandomSeed_ this) groups store Hin)
    as (store'' & Hflush' & Hlen & Hother & Hflushed).
  rewrite Hflush in Hflush'. injection Hflush' as <-.
  exists store', out, calls. split; [exact Hextract|]. split; [exact Hflush|].
  split; [exact Hlen|]. split; [exact Hother|]. split.
  - intros group accumulator Hel Hheld.
    destruct (count_occ_elem_of groups group Hel) as [n Hn].
    exists (Nat.iter (S n) (flush (fixedRandomSeed_ this)) accumulator).
    rewrite (flushGroups_slots _ _ _ _ Hflush group accumulator Hheld), Hn.
    destruct (flush_iter (fixedRandomSeed_ this) accumulator n)
      as [Hbuffer Hsketch].
    split; [reflexivity|]. split; [exact Hbuffer|]. split.
    + rewrite Hsketch. unfold mergeLargeCountValuesIntoSketch, repeatedValueSketches.
      reflexivity.
    + rewrite Hsketch. simpl. apply Hlaw.
  - destruct (percentiles_ this) as [p|].
    + destruct Hout as [-> _].
      eapply Forall_impl; [apply quantileCalls_digests|].
      intros call (group & accumulator & Hel & Hacc & Hdigest).
      split; [|eauto]. rewrite Hdigest.
      destruct (Hflushed group accumulator Hel Hacc) as [before ->].
      apply flush_finished. exact Hlaw.
    + destruct Hout as [_ ->]. constructor.
Qed.

End ExtractValuesFacts.

(** ** Extraction of the intermediate rows *)

Lemma to_int32_small (z : Z) : 0 <= z <= int32_max -> to_int32 z = z.
Proof.
  unfold to_int32, int32_max. intros Hz.
  rewrite Z.mod_small by lia. lia.
Qed.

Section WriteRowsFacts.

Context {V : Type} `{!Inhabited V}.

Lemma elementsBefore_0 (slices : list (option (list V))) :
  elementsBefore slices 0 = 0%nat.
Proof. destruct slices as [|[src|] rest]; reflexivity. Qed.

(** The rows written by [writeRows]: offsets, sizes and contents of the
    rows with a slice, and everything else left alone. *)
Lemma writeRows_outcome (slices : list (option (list V))) :
  forall (i pos : nat) (v : ArrayVector V),
    let v' := writeRows slices i pos v in
    array_nulls v' = array_nulls v
    /\ length (array_offsets v') = length (array_offsets v)
    /\ length (array_sizes v') = length (array_sizes v)
    /\ length (array_elements v') = length (array_elements v)
    /\ (forall k, (k < i)%nat ->
          array_offsets v' !! k = array_offsets v !! k
          /\ array_sizes v' !! k = array_sizes v !! k)
    /\ (forall q, (q < pos)%nat -> array_elements v' !! q = array_elements v !! q)
    /\ (forall j, slices !! j = Some None ->
          array_offsets v' !! (i + j)%nat = array_offsets v !! (i + j)%nat
          /\ array_sizes v' !! (i + j)%nat = array_sizes v !! (i + j)%nat)
    /\ (forall j src, slices !! j = Some (Some src) ->
          (i + j < length (array_offsets v))%nat ->
          (i + j < length (array_sizes v))%nat ->
          array_offsets v' !! (i + j)%nat
          = Some (to_int32 (Z.of_nat (pos + elementsBefore slices j)))
          /\ array_sizes v' !! (i + j)%nat = Some (to_int32 (Z.of_nat (length src)))
          /\ ((pos + elementsBefore slices j + length src
               <= length (array_elements v))%nat ->
              forall k x, src !! k = Some x ->
                array_elements v' !! (pos + elementsBefore slices j + k)%nat = Some x)).
Proof.
  induction slices as [|slice slices IH]; intros i pos v; simpl.
  - split; [reflexivity|]. split; [reflexivity|]. split; [reflexivity|].
    split; [reflexivity|]. split; [auto|]. split; [auto|].
    split; intros j; intros; rewrite lookup_nil in *; discriminate.
  - destruct slice as [src|].
    + set (v1 := array_setOffsetAndSize i (to_int32 (Z.of_nat pos))
                   (to_int32 (Z.of_nat (length src)))
                   (array_writeElements pos src v)).
      destruct (IH (S i) (pos + length src)%nat v1)
        as (Hnulls & Hlo & Hls & Hle & Hbefore & Hbelow & Hnone & Hsome).
      split; [exact Hnulls|].
      split; [rewrite Hlo; simpl; apply length_insert|].
      split; [rewrite Hls; simpl; apply length_insert|].
      split; [rewrite Hle; simpl; apply length_inserts|].
      split; [|split; [|split]].
      * intros k Hk. destruct (Hbefore k) as [Ho Hs]; [lia|].
        rewrite Ho, Hs. simpl.
        split; apply list_lookup_insert_ne; lia.
      * intros q Hq. rewrite Hbelow by lia. simpl.
        apply list_lookup_inserts_lt. exact Hq.
      * intros j Hj. destruct j as [|j]; [discriminate|]. simpl in Hj.
        replace (i + S j)%nat with (S i + j)%nat by lia.
        destruct (Hnone j Hj) as [Ho Hs]. rewrite Ho, Hs. simpl.
        split; apply list_lookup_insert_ne; lia.
      * intros j src' Hj Hio His. destruct j as [|j]; simpl in Hj.
        -- injection Hj as <-. simpl. rewrite !Nat.add_0_r.
           destruct (Hbefore i) as [Ho Hs]; [lia|]. rewrite Ho, Hs. simpl.
           rewrite Nat.add_0_r in Hio, His.
           rewrite !list_lookup_insert_eq by assumption.
           split; [reflexivity|]. split; [reflexivity|].
           intros Hfit k x Hk. rewrite Hbelow.
           2:{ apply lookup_lt_Some in Hk. lia. }
           simpl. rewrite list_lookup_inserts.
           ++ replace (pos + k - pos)%nat with k by lia. exact Hk.
           ++ apply lookup_lt_Some in Hk. lia.
           ++ apply lookup_lt_Some in Hk. lia.
        -- replace (i + S j)%nat with (S i + j)%nat in * by lia.
           destruct (Hsome j src' Hj) as (Ho & Hs & Hcontent);
             [simpl; rewrite length_insert; exact Hio
             |simpl; rewrite length_insert; exact His|].
           rewrite Ho, Hs. simpl.
           replace (pos + length src + elementsBefore slices j)%nat
             with (pos + (length src + elementsBefore slices j))%nat in * by lia.
           split; [reflexivity|]. split; [reflexivity|].
           intros Hfit. apply Hcontent. simpl. rewrite length_inserts. exact Hfit.
    + destruct (IH (S i) pos v)
        as (Hnulls & Hlo & Hls & Hle & Hbefore & Hbelow & Hnone & Hsome).
      split; [exact Hnulls|]. split; [exact Hlo|]. split; [exact Hls|].
      split; [exact Hle|]. split; [|split; [|split]].
      * intros k Hk. apply Hbefore. lia.
      * exact Hbelow.
      * intros j Hj. destruct j as [|j].
        -- rewrite Nat.add_0_r. apply Hbefore. lia.
        -- simpl in Hj. replace (i + S j)%nat with (S i + j)%nat by lia.
           apply Hnone. exact Hj.
      * intros j src' Hj Hio His. destruct j as [|j]; [discriminate|]. simpl in Hj.
        replace (i + S j)%nat with (S i + j)%nat in * by lia.
        apply Hsome; assumption.
Qed.

End WriteRowsFacts.

Section ExtractAccumulatorsFacts.

Context {T : Type} `{!Inhabited T} {L : kll.Library T}.

Implicit Types (this : ApproxPercentileAggregate T) (store : RowContainer T).

Lemma elementsBefore_bound {V} (slices : list (option (list V))) :
  forall j,
    (elementsBefore slices j <= elementsBefore slices (length slices))%nat
    /\ forall src, slices !! j = Some (Some src) ->
         (elementsBefore slices j + length src
          <= elementsBefore slices (length slices))%nat.
Proof.
  induction slices as [|slice slices IH]; intros j.
  - split; [destruct j; simpl; lia|]. intros src Hj. rewrite lookup_nil in Hj.
    discriminate.
  - destruct j as [|j].
    + split; [simpl; lia|]. intros src Hj. simpl in Hj. injection Hj as ->.
      simpl. lia.
    + destruct (IH j) as [Hle Hsome]. destruct slice as [src'|]; simpl.
      * split; [lia|]. intros src Hj. specialize (Hsome src Hj). lia.
      * split; [lia|]. exact Hsome.
Qed.

Lemma elementsBefore_S {V} (slices : list (option (list V))) :
  forall j,
    elementsBefore slices (S j)
    = (elementsBefore slices j
       + match slices !! j with
         | Some (Some src) => length src
         | _ => 0
         end)%nat.
Proof.
  induction slices as [|slice slices IH]; intros j.
  - destruct j; reflexivity.
  - destruct j as [|j].
    + destruct slice as [src|]; simpl.
      * destruct slices as [|[?|] ?]; simpl; lia.
      * destruct slices as [|[?|] ?]; simpl; lia.
    + change (elementsBefore (slice :: slices) (S (S j)))
        with (match slice with
              | Some src => (length src + elementsBefore slices (S j))%nat
              | None => elementsBefore slices (S j)
              end).
      rewrite IH. destruct slice; simpl; lia.
Qed.

Lemma itemsSlices_total (views : list (kll.View T)) :
  (elementsBefore (itemsSlices views) (length (itemsSlices views))
   <= allItems views)%nat.
Proof.
  unfold allItems. induction views as [|v views IH]; simpl; [lia|].
  destruct (kll.view_n v =? 0)%N; simpl; lia.
Qed.

Lemma levelsSlices_total (views : list (kll.View T)) :
  (elementsBefore (levelsSlices views) (length (levelsSlices views))
   <= allLevels views)%nat.
Proof.
  unfold allLevels. induction views as [|v views IH]; simpl; [lia|].
  destruct (kll.view_n v =? 0)%N; simpl; [lia|]. rewrite length_map. lia.
Qed.

(** The loop that fills [sketches] leaves the row container as it was:
    [compact] hands every accumulator back unchanged. *)
Lemma compactGroups_outcome (seed : option N) (groups : list nat) store :
  groupsInContainer groups store = true ->
  exists sketches,
    compactGroups seed groups store = Ok (sketches, store)
    /\ map kll.toView sketches = compactedViews seed groups store
    /\ length sketches = length groups.
Proof.
  unfold compactedViews.
  induction groups as [|group groups IH]; intros Hin; simpl.
  - exists []. auto.
  - apply groupsInContainer_cons in Hin as [Hlt Hrest].
    destruct (lookup_lt_is_Some_2 store group Hlt) as [accumulator Hacc].
    rewrite (value_lookup _ _ _ Hacc), Hacc. simpl.
    rewrite (list_insert_id store group accumulator Hacc).
    destruct (IH Hrest) as (sketches & -> & Hviews & Hlen). simpl.
    eexists. split; [reflexivity|]. simpl. rewrite Hviews, Hlen. auto.
Qed.

(** The counting loop, when the levels total fits [vector_size_t]. *)
Lemma countItemsAndLevels_total (sketches : list (kll.KllSketch StdAllocator)) :
  forall (itemsCount : nat) (levelsCount : Z),
    0 <= levelsCount ->
    levelsCount + Z.of_nat (allLevels (map kll.toView sketches)) <= int32_max ->
    countItemsAndLevels sketches itemsCount levelsCount
    = ((itemsCount + allItems (map kll.toView sketches))%nat,
       levelsCount + Z.of_nat (allLevels (map kll.toView sketches))).
Proof.
  unfold allItems, allLevels.
  induction sketches as [|sketch sketches IH]; intros itemsCount levelsCount Hlow Hhigh;
    simpl in *.
  - f_equal; lia.
  - rewrite to_int32_small by lia. rewrite IH by lia. f_equal; lia.
Qed.

(** The serialization loop on the items child. *)
Lemma serializeSketches_items (sketches : list (kll.KllSketch StdAllocator)) :
  forall (i : nat) (s : Serialization),
    child_kItems (ser_rowResult (serializeSketches sketches i s))
    = writeRows (itemsSlices (map kll.toView sketches)) i (ser_itemsCount s)
        (child_kItems (ser_rowResult s))
    /\ ser_itemsCount (serializeSketches sketches i s)
       = (ser_itemsCount s
          + elementsBefore (itemsSlices (map kll.toView sketches))
              (length (itemsSlices (map kll.toView sketches))))%nat.
Proof.
  induction sketches as [|sketch sketches IH]; intros i s; simpl; [auto|].
  destruct (IH (S i) (serializeSketch i (kll.toView sketch) s)) as [-> ->].
  unfold serializeSketch.
  destruct (kll.view_n (kll.toView sketch) =? 0)%N; simpl; split; auto; lia.
Qed.

(** The serialization loop on the levels child, when the running count
    stays within [vector_size_t]. *)
Lemma serializeSketches_levels (sketches : list (kll.KllSketch StdAllocator)) :
  forall (i : nat) (s : Serialization),
    0 <= ser_levelsCount s ->
    ser_levelsCount s
    + Z.of_nat (elementsBefore (levelsSlices (map kll.toView sketches))
                  (length (levelsSlices (map kll.toView sketches)))) <= int32_max ->
    child_kLevels (ser_rowResult (serializeSketches sketches i s))
    = writeRows (levelsSlices (map kll.toView sketches)) i
        (Z.to_nat (ser_levelsCount s)) (child_kLevels (ser_rowResult s)).
Proof.
  induction sketches as [|sketch sketches IH]; intros i s Hlow Hhigh; simpl; [auto|].
  simpl in Hhigh.
  set (v := kll.toView sketch) in *.
  set (s1 := serializeSketch i v s).
  destruct (kll.view_n v =? 0)%N eqn:Hn.
  - assert (Hs1 : ser_levelsCount s1 = ser_levelsCount s
                  /\ child_kLevels (ser_rowResult s1) = child_kLevels (ser_rowResult s)).
    { unfold s1, serializeSketch. rewrite Hn. auto. }
    destruct Hs1 as [Hcount Hchild].
    rewrite IH by (rewrite Hcount; assumption).
    rewrite Hcount, Hchild. reflexivity.
  - simpl in Hhigh. rewrite length_map in Hhigh.
    set (len := length (kll.view_levels v)) in *.
    assert (Hs1 : ser_levelsCount s1 = ser_levelsCount s + Z.of_nat len
                  /\ child_kLevels (ser_rowResult s1)
                     = array_setOffsetAndSize i
                         (to_int32 (Z.of_nat (Z.to_nat (ser_levelsCount s))))
                         (to_int32 (Z.of_nat len))
                         (array_writeElements (Z.to_nat (ser_levelsCount s))
                            (map (fun l => to_int32 (Z.of_N l)) (kll.view_levels v))
                            (child_kLevels (ser_rowResult s)))).
    { unfold s1, serializeSketch. rewrite Hn. simpl. fold len.
      rewrite (to_int32_small (ser_levelsCount s + Z.of_nat len)) by lia.
      rewrite (to_int32_small (Z.of_nat (Z.to_nat (ser_levelsCount s)))) by lia.
      rewrite Z2Nat.id by lia. auto. }
    destruct Hs1 as [Hcount Hchild].
    rewrite IH by (rewrite Hcount; lia).
    rewrite Hcount, Hchild, length_map. fold len.
    replace (Z.to_nat (ser_levelsCount s + Z.of_nat len))
      with (Z.to_nat (ser_levelsCount s) + len)%nat by lia.
    reflexivity.
Qed.

(** The serialization loop on the row nulls and the constant children. *)
Lemma serializeSketches_rows (sketches : list (kll.KllSketch StdAllocator)) :
  forall (i : nat) (s : Serialization),
    let r := ser_rowResult s in
    let r' := ser_rowResult (serializeSketches sketches i s) in
    child_kPercentiles r' = child_kPercentiles r
    /\ child_kPercentilesIsArray r' = child_kPercentilesIsArray r
    /\ child_kAccuracy r' = child_kAccuracy r
    /\ length (row_nulls r') = length (row_nulls r)
    /\ (forall k, (k < i)%nat -> row_nulls r' !! k = row_nulls r !! k)
    /\ (forall j sketch, sketches !! j = Some sketch ->
          (i + j < length (row_nulls r))%nat ->
          row_nulls r' !! (i + j)%nat
          = Some (kll.view_n (kll.toView sketch) =? 0)%N).
Proof.
  induction sketches as [|sketch sketches IH]; intros i s; simpl.
  - repeat split; try reflexivity. intros j sketch Hj. rewrite lookup_nil in Hj.
    discriminate.
  - destruct (IH (S i) (serializeSketch i (kll.toView sketch) s))
      as (Hp & Ha & Hacc & Hlen & Hbefore & Hrows).
    assert (Hstep : row_nulls (ser_rowResult (serializeSketch i (kll.toView sketch) s))
                    = <[i := (kll.view_n (kll.toView sketch) =? 0)%N]>
                        (row_nulls (ser_rowResult s))
                    /\ child_kPercentiles (ser_rowResult (serializeSketch i (kll.toView sketch) s))
                       = child_kPercentiles (ser_rowResult s)
                    /\ child_kPercentilesIsArray (ser_rowResult (serializeSketch i (kll.toView sketch) s))
                       = child_kPercentilesIsArray (ser_rowResult s)
                    /\ child_kAccuracy (ser_rowResult (serializeSketch i (kll.toView sketch) s))
                       = child_kAccuracy (ser_rowResult s)).
    { unfold serializeSketch.
      destruct (kll.view_n (kll.toView sketch) =? 0)%N; simpl; auto. }
    destruct Hstep as (Hnulls & Hp1 & Ha1 & Hacc1).
    split; [congruence|]. split; [congruence|]. split; [congruence|].
    split; [rewrite Hlen, Hnulls; apply length_insert|]. split.
    + intros k Hk. rewrite Hbefore by lia. rewrite Hnulls.
      apply list_lookup_insert_ne. lia.
    + intros j sketch' Hj Hbound. destruct j as [|j]; simpl in Hj.
      * injection Hj as <-. rewrite Nat.add_0_r in *. rewrite Hbefore by lia.
        rewrite Hnulls. apply list_lookup_insert_eq. exact Hbound.
      * replace (i + S j)%nat with (S i + j)%nat in * by lia.
        apply Hrows; [exact Hj|]. rewrite Hnulls, length_insert. exact Hbound.
Qed.

(** [extractAccumulators] on groups of the row container: the row
    container is returned as it was; without percentiles the null branch
    is taken; with percentiles the call passes the items check exactly
    when the items total fits [vector_size_t]. *)
Lemma extractAccumulators_outcome (ensureWritable : nat -> RowVector T -> RowVector T)
    this (groups : list nat) (rowResult : RowVector T) store :
  groupsInContainer groups store = true ->
  exists sketches,
    map kll.toView sketches = compactedViews (fixedRandomSeed_ this) groups store
    /\ length sketches = length groups
    /\ extractAccumulators ensureWritable groups rowResult this store
       = match percentiles_ this with
         | None =>
             Ok (store, extractNullAccumulators ensureWritable (length groups) rowResult)
         | Some p =>
             let counts := countItemsAndLevels sketches 0 0 in
             if Z.of_nat counts.1 <=? int32_max then
               Ok (store,
                   ser_rowResult
                     (serializeSketches sketches 0
                        {| ser_rowResult :=
                             prepareRowResult this p (length groups) counts.1 counts.2
                               rowResult;
                           ser_itemsCount := 0;
                           ser_levelsCount := 0 |}))
             else Failed (RuntimeError "itemsCount <= max")
         end.
Proof.
  intros Hin.
  destruct (compactGroups_outcome (fixedRandomSeed_ this) groups store Hin)
    as (sketches & Hcompact & Hviews & Hlen).
  exists sketches. split; [exact Hviews|]. split; [exact Hlen|].
  unfold extractAccumulators. rewrite Hcompact. simpl.
  destruct (percentiles_ this) as [p|]; [|reflexivity].
  destruct (countItemsAndLevels sketches 0 0) as [itemsCount levelsCount]. simpl.
  destruct (Z.of_nat itemsCount <=? int32_max); reflexivity.
Qed.

End ExtractAccumulatorsFacts.

Section ExtractAccumulatorsClaims.

Context {T : Type} `{!Inhabited T} {L : kll.Library T}.

Implicit Types (this : ApproxPercentileAggregate T) (store : RowContainer T).

Lemma map_lookup_Some {A B} (f : A -> B) (l : list A) (i : nat) (x : A) :
  l !! i = Some x -> map f l !! i = Some (f x).
Proof.
  revert i. induction l as [|y l IH]; intros [|i] Hi; simpl in *; try discriminate.
  - injection Hi as ->. reflexivity.
  - apply IH. exact Hi.
Qed.

Lemma compactedViews_lookup (seed : option N) (groups : list nat) store :
  groupsInContainer groups store = true ->
  forall i group accumulator,
    groups !! i = Some group -> store !! group = Some accumulator ->
    compactedViews seed groups store !! i
    = Some (kll.toView (compact seed accumulator).1).
Proof.
  unfold compactedViews.
  induction groups as [|group' groups IH]; intros Hin i group accumulator Hi Hacc.
  - rewrite lookup_nil in Hi. discriminate.
  - apply groupsInContainer_cons in Hin as [Hlt Hrest].
    destruct (lookup_lt_is_Some_2 store group' Hlt) as [accumulator' Hacc'].
    simpl. rewrite Hacc'. simpl. destruct i as [|i]; simpl in *.
    + injection Hi as ->. rewrite Hacc in Hacc'. injection Hacc' as ->. reflexivity.
    + apply (IH Hrest i group accumulator Hi Hacc).
Qed.

Lemma countItemsAndLevels_items (sketches : list (kll.KllSketch StdAllocator)) :
  forall (itemsCount : nat) (levelsCount : Z),
    (countItemsAndLevels sketches itemsCount levelsCount).1
    = (itemsCount + allItems (map kll.toView sketches))%nat.
Proof.
  unfold allItems.
  induction sketches as [|sketch sketches IH]; intros itemsCount levelsCount; simpl.
  - lia.
  - rewrite IH. lia.
Qed.

(** C5: [extractAccumulators] returns the row container as it was.
    Without resolved percentiles the three query-scope children are null
    constants of one row per group and every row of the result is null.
    With resolved percentiles (and an items total within
    [vector_size_t], which the code checks) the three children are
    constants of one row per group that carry the operator's percentile
    values, its array flag and its accuracy (null when no accuracy is
    bound), and the row of a group is null exactly when the view of its
    compacted copy has [n = 0]. *)
Theorem extractAccumulators_null_rows_and_constants
    (ensureWritable : nat -> RowVector T -> RowVector T)
    this (groups : list nat) (rowResult : RowVector T) store :
  (forall n r, (n <= row_size (ensureWritable n r))%nat) ->
  groupsInContainer groups store = true ->
  Z.of_nat (allItems (compactedViews (fixedRandomSeed_ this) groups store))
  <= int32_max ->
  exists out,
    extractAccumulators ensureWritable groups rowResult this store = Ok (store, out)
    /\ constant_size (child_kPercentiles out) = length groups
    /\ constant_size (child_kPercentilesIsArray out) = length groups
    /\ constant_size (child_kAccuracy out) = length groups
    /\ match percentiles_ this with
       | None =>
           constant_value (child_kPercentiles out) = None
           /\ constant_value (child_kPercentilesIsArray out) = None
           /\ constant_value (child_kAccuracy out) = None
           /\ (length groups <= row_size out)%nat
           /\ forall i, (i < row_size out)%nat -> row_nulls out !! i = Some true
       | Some p =>
           constant_value (child_kPercentiles out) = Some (values p)
           /\ constant_value (child_kPercentilesIsArray out) = Some (isArray p)
           /\ constant_value (child_kAccuracy out)
              = (if accuracyIsSet this then Some (accuracy_ this) else None)
           /\ row_size out = length groups
           /\ forall i group accumulator,
                groups !! i = Some group -> store !! group = Some accumulator ->
                row_nulls out !! i
                = Some (kll.view_n
                          (kll.toView (compact (fixedRandomSeed_ this) accumulator).1)
                        =? 0)%N
       end.
Proof.
  intros Hwritable Hin Hitems.
  destruct (extractAccumulators_outcome ensureWritable this groups rowResult store Hin)
    as (sketches & Hviews & Hlen & Hextract).
  rewrite Hextract. destruct (percentiles_ this) as [p|].
  - cbv zeta. rewrite countItemsAndLevels_items, Hviews.
    destruct (Z.leb_spec (Z.of_nat (0 + allItems
                (compactedViews (fixedRandomSeed_ this) groups store))) int32_max)
      as [_|Hbad]; [|simpl in Hbad; lia].
    eexists. split; [reflexivity|].
    match goal with
    | |- context [serializeSketches sketches 0 ?s0] =>
        destruct (serializeSketches_rows sketches 0 s0)
          as (-> & -> & -> & Hrows_len & _ & Hrows)
    end.
    simpl in Hrows_len, Hrows. rewrite length_resize in Hrows_len, Hrows.
    simpl. split; [reflexivity|]. split; [reflexivity|]. split; [reflexivity|].
    split; [reflexivity|]. split; [reflexivity|]. split.
    { unfold accuracyIsSet.
      destruct (accuracy_ this =? kMissingNormalizedValue)%float; reflexivity. }
    split; [exact Hrows_len|].
    intros i group accumulator Hi Hacc.
    pose proof (compactedViews_lookup (fixedRandomSeed_ this) groups store Hin
                  i group accumulator Hi Hacc) as Hview.
    rewrite <- Hviews in Hview.
    assert (Hsketch : exists sketch,
               sketches !! i = Some sketch
               /\ kll.toView sketch
                  = kll.toView (compact (fixedRandomSeed_ this) accumulator).1).
    { destruct (sketches !! i) as [sketch|] eqn:Hsk.
      - exists sketch. split; [reflexivity|].
        rewrite (map_lookup_Some kll.toView sketches i sketch Hsk) in Hview.
        congruence.
      - apply lookup_ge_None in Hsk. apply lookup_lt_Some in Hi. lia. }
    destruct Hsketch as (sketch & Hsk & Hv).
    transitivity (Some (kll.view_n (kll.toView sketch) =? 0)%N).
    + apply (Hrows i sketch Hsk). apply lookup_lt_Some in Hi. exact Hi.
    + rewrite Hv. reflexivity.
  - eexists. split; [reflexivity|]. simpl.
    split; [reflexivity|]. split; [reflexivity|]. split; [reflexivity|].
    split; [reflexivity|]. split; [reflexivity|]. split; [reflexivity|].
    unfold row_size. simpl. rewrite length_replicate.
    split; [apply Hwritable|].
    intros i Hi. apply lookup_replicate_2. exact Hi.
Qed.

(** C10: with resolved percentiles and totals within [vector_size_t],
    the items slice of every non-null row starts at the number of items
    of the non-null rows before it, has the length of the row's view
    items and holds them; likewise for the levels; a null row adds
    nothing to the running counts and its offset and size entries are not
    written. *)
Theorem extractAccumulators_slices_consecutive
    (ensureWritable : nat -> RowVector T -> RowVector T)
    this (p : Percentiles) (groups : list nat) (rowResult : RowVector T) store :
  percentiles_ this = Some p ->
  groupsInContainer groups store = true ->
  Z.of_nat (allItems (compactedViews (fixedRandomSeed_ this) groups store))
  <= int32_max ->
  Z.of_nat (allLevels (compactedViews (fixedRandomSeed_ this) groups store))
  <= int32_max ->
  exists out,
    extractAccumulators ensureWritable groups rowResult this store = Ok (store, out)
    /\ forall i v,
         compactedViews (fixedRandomSeed_ this) groups store !! i = Some v ->
         let itemsOffset :=
           elementsBefore
             (itemsSlices (compactedViews (fixedRandomSeed_ this) groups store)) i in
         let levelsOffset :=
           elementsBefore
             (levelsSlices (compactedViews (fixedRandomSeed_ this) groups store)) i in
         (kll.view_n v <> 0%N ->
            array_offsets (child_kItems out) !! i = Some (Z.of_nat itemsOffset)
            /\ array_sizes (child_kItems out) !! i
               = Some (Z.of_nat (length (kll.view_items v)))
            /\ (forall k x, kll.view_items v !! k = Some x ->
                  array_elements (child_kItems out) !! (itemsOffset + k)%nat = Some x)
            /\ array_offsets (child_kLevels out) !! i = Some (Z.of_nat levelsOffset)
            /\ array_sizes (child_kLevels out) !! i
               = Some (Z.of_nat (length (kll.view_levels v)))
            /\ (forall k l, kll.view_levels v !! k = Some l ->
                  array_elements (child_kLevels out) !! (levelsOffset + k)%nat
                  = Some (to_int32 (Z.of_N l)))
            /\ elementsBefore
                 (itemsSlices (compactedViews (fixedRandomSeed_ this) groups store)) (S i)
               = (itemsOffset + length (kll.view_items v))%nat
            /\ elementsBefore
                 (levelsSlices (compactedViews (fixedRandomSeed_ this) groups store)) (S i)
               = (levelsOffset + length (kll.view_levels v))%nat)
         /\ (kll.view_n v = 0%N ->
             row_nulls out !! i = Some true
             /\ elementsBefore
                  (itemsSlices (compactedViews (fixedRandomSeed_ this) groups store)) (S i)
                = itemsOffset
             /\ elementsBefore
                  (levelsSlices (compactedViews (fixedRandomSeed_ this) groups store)) (S i)
                = levelsOffset
             /\ array_offsets (child_kItems out) !! i
                = resize (length groups) 0 (array_offsets (child_kItems rowResult)) !! i
             /\ array_sizes (child_kItems out) !! i
                = resize (length groups) 0 (array_sizes (child_kItems rowResult)) !! i
             /\ array_offsets (child_kLevels out) !! i
                = resize (length groups) 0 (array_offsets (child_kLevels rowResult)) !! i
             /\ array_sizes (child_kLevels out) !! i
                = resize (length groups) 0 (array_sizes (child_kLevels rowResult)) !! i).
Proof.
  intros Hp Hin Hitems Hlevels.
  destruct (extractAccumulators_outcome ensureWritable this groups rowResult store Hin)
    as (sketches & Hviews & Hlen & Hextract).
  rewrite Hextract, Hp. cbv zeta.
  set (views := compactedViews (fixedRandomSeed_ this) groups store) in *.
  rewrite (countItemsAndLevels_total sketches 0 0) by (rewrite ?Hviews; lia).
  rewrite Hviews. simpl fst. simpl snd. rewrite ?Nat.add_0_l, ?Z.add_0_l.
  destruct (Z.leb_spec (Z.of_nat (allItems views)) int32_max) as [_|Hbad]; [|lia].
  eexists. split; [reflexivity|].
  unfold prepareRowResult. rewrite Nat2Z.id.
  match goal with
  | |- context [serializeSketches sketches 0 ?s0] => set (start := s0)
  end.
  destruct (serializeSketches_items sketches 0 start) as [Hitems_child _].
  pose proof (serializeSketches_levels sketches 0 start) as Hlevels_child.
  destruct (serializeSketches_rows sketches 0 start)
    as (_ & _ & _ & _ & _ & Hrows).
  rewrite Hviews in Hitems_child, Hlevels_child.
  pose proof (itemsSlices_total views) as Hitems_total.
  pose proof (levelsSlices_total views) as Hlevels_total.
  rewrite Hlevels_child by (simpl; lia). rewrite Hitems_child.
  simpl ser_itemsCount. simpl ser_levelsCount. simpl ser_rowResult.
  change (Z.to_nat 0) with 0%nat.
  unfold start. simpl child_kItems. simpl child_kLevels.
  assert (Hviews_len : length views = length groups).
  { rewrite <- Hviews, length_map. exact Hlen. }
  intros i v Hi.
  assert (Hi_lt : (i < length groups)%nat).
  { rewrite <- Hviews_len. apply lookup_lt_Some in Hi. exact Hi. }
  match goal with
  | |- context [writeRows (itemsSlices views) 0 0 ?a] =>
      destruct (writeRows_outcome (itemsSlices views) 0 0 a)
        as (_ & _ & _ & _ & _ & _ & HitemsNone & HitemsSome)
  end.
  match goal with
  | |- context [writeRows (levelsSlices views) 0 0 ?a] =>
      destruct (writeRows_outcome (levelsSlices views) 0 0 a)
        as (_ & _ & _ & _ & _ & _ & HlevelsNone & HlevelsSome)
  end.
  simpl in HitemsSome, HlevelsSome, HitemsNone, HlevelsNone.
  rewrite ?length_resize in HitemsSome, HlevelsSome.
  rewrite ?length_resize in HlevelsSome.
  pose proof (@elementsBefore_S) as HelemS.
  split.
  - intros Hn. apply N.eqb_neq in Hn.
    assert (HitemsAt : itemsSlices views !! i = Some (Some (kll.view_items v))).
    { unfold itemsSlices.
      rewrite (map_lookup_Some _ views i v Hi), Hn. reflexivity. }
    assert (HlevelsAt : levelsSlices views !! i
                        = Some (Some (map (fun l => to_int32 (Z.of_N l))
                                          (kll.view_levels v)))).
    { unfold levelsSlices.
      rewrite (map_lookup_Some _ views i v Hi), Hn. reflexivity. }
    destruct (elementsBefore_bound (itemsSlices views) i) as [_ HiB].
    specialize (HiB _ HitemsAt).
    destruct (elementsBefore_bound (levelsSlices views) i) as [_ HlB].
    specialize (HlB _ HlevelsAt). rewrite length_map in HlB.
    destruct (HitemsSome i _ HitemsAt Hi_lt Hi_lt) as (Ho & Hs & Hcontent).
    destruct (HlevelsSome i _ HlevelsAt Hi_lt Hi_lt) as (Hlo & Hls & Hlcontent).
    rewrite length_map in Hls, Hlcontent.
    rewrite to_int32_small in Ho, Hs, Hlo, Hls by lia.
    split; [exact Ho|]. split; [exact Hs|]. split.
    { intros k x Hk. apply Hcontent; [rewrite ?length_resize; lia | exact Hk]. }
    split; [exact Hlo|]. split; [exact Hls|]. split.
    { intros k l Hk. apply Hlcontent; [rewrite ?length_resize; lia|].
      apply (map_lookup_Some (fun l => to_int32 (Z.of_N l))). exact Hk. }
    rewrite !HelemS, HitemsAt, HlevelsAt, length_map. auto.
  - intros Hn. apply N.eqb_eq in Hn.
    assert (HitemsAt : itemsSlices views !! i = Some None).
    { unfold itemsSlices.
      rewrite (map_lookup_Some _ views i v Hi), Hn. reflexivity. }
    assert (HlevelsAt : levelsSlices views !! i = Some None).
    { unfold levelsSlices.
      rewrite (map_lookup_Some _ views i v Hi), Hn. reflexivity. }
    split.
    { assert (Hsketch : exists sketch,
                 sketches !! i = Some sketch /\ kll.toView sketch = v).
      { destruct (sketches !! i) as [sketch|] eqn:Hsk.
        - exists sketch. split; [reflexivity|]. rewrite <- Hviews in Hi.
          rewrite (map_lookup_Some kll.toView sketches i sketch Hsk) in Hi.
          congruence.
        - apply lookup_ge_None in Hsk. lia. }
      destruct Hsketch as (sketch & Hsk & Hv).
      transitivity (Some (kll.view_n (kll.toView sketch) =? 0)%N).
      - apply (Hrows i sketch Hsk). simpl. rewrite length_resize. exact Hi_lt.
      - rewrite Hv, Hn. reflexivity. }
    rewrite !HelemS, HitemsAt, HlevelsAt, !Nat.add_0_r.
    split; [reflexivity|]. split; [reflexivity|].
    destruct (HitemsNone i HitemsAt) as [Ho Hs].
    destruct (HlevelsNone i HlevelsAt) as [Hlo Hls].
    auto.
Qed.

End ExtractAccumulatorsClaims.

(** ** The statements on sample inputs *)

#[local] Existing Instance Examples.library.

Lemma SpecKll_finish_law (processSeed : N) :
  kll.FinishLaw (SpecKll.library processSeed).
Proof. intros a s. reflexivity. Qed.

Lemma Examples_ensureWritable_grows (n : nat) (r : RowVector Z) :
  (n <= row_size (Examples.ensureWritable n r))%nat.
Proof. unfold row_size. simpl. rewrite length_resize. lia. Qed.

(** C1 (as stated, refuted): on a group that received 5 and then 2, the
    sketch [compact] returns is not finished, its level 0 is [5; 2], and
    it differs from the copy the specification describes. *)
Lemma compact_result_not_finished :
  kll.isFinished
    (compact Examples.seed Examples.unsortedAccumulator).1 = false
  /\ SpecKll.sk_levels (compact Examples.seed
                          Examples.unsortedAccumulator).1 = [[5; 2]]
  /\ (compact Examples.seed Examples.unsortedAccumulator).1
     <> compact_for_spill Examples.seed
          Examples.unsortedAccumulator.
Proof.
  split; [reflexivity|]. split; [reflexivity|]. vm_compute. discriminate.
Qed.

Lemma appendCount_witness :
  sketch_ (appendCount 7 3 Examples.seed
             Examples.unsortedAccumulator)
  = Nat.iter 3 (kll.insert 7)
      (sketch_ Examples.unsortedAccumulator)
  /\ largeCountValues_ (appendCount 9 600 Examples.seed
                          Examples.unsortedAccumulator) = [(9, 600)]
  /\ largeCountValues_ (appendCount 9 600 Examples.seed
                          Examples.nearlyFullAccumulator) = [].
Proof.
  pose proof (appendCount_small_inserts_large_buffers
                7 3 Examples.seed Examples.unsortedAccumulator) as Hsmall.
  pose proof (appendCount_small_inserts_large_buffers
                9 600 Examples.seed Examples.unsortedAccumulator) as Hlarge.
  pose proof (appendCount_small_inserts_large_buffers
                9 600 Examples.seed Examples.nearlyFullAccumulator) as Hfull.
  cbv zeta in Hsmall, Hlarge, Hfull.
  destruct Hsmall as (Hsmall & _ & _).
  destruct Hlarge as (_ & Hlarge & _).
  destruct Hfull as (_ & _ & Hfull).
  split; [rewrite Hsmall by lia; reflexivity|].
  split; [rewrite Hlarge by (simpl; lia); reflexivity|].
  apply Hfull; [lia|]. apply Nat.leb_le. vm_compute. reflexivity.
Defined.

Lemma addRawInput_weight_witness :
  isUserError (addRawInputRows Examples.weightedAggregate
                 [0; 0; 1; 1]%nat [0; 1; 2; 3]%nat Examples.twoGroups) = true
  /\ isOk (addRawInputRows Examples.weightedAggregate
             [0; 0; 1; 1]%nat [0; 2; 3]%nat Examples.twoGroups) = true.
Proof.
  split.
  - destruct (addRawInput_weight_error_iff_out_of_range
                Examples.weightedAggregate [0; 0; 1; 1]%nat [0; 1; 2; 3]%nat
                Examples.twoGroups eq_refl eq_refl) as (_ & Herr & _).
    apply Herr.
    right. left. split; [reflexivity|]. split; [reflexivity|]. simpl. lia.
  - destruct (addRawInput_weight_error_iff_out_of_range
                Examples.weightedAggregate [0; 0; 1; 1]%nat [0; 2; 3]%nat
                Examples.twoGroups eq_refl eq_refl) as (_ & _ & Hok & _).
    apply Hok. intros Hex.
    apply List.Exists_cons in Hex as [(_ & _ & Hbad)|Hex]; [simpl in Hbad; lia|].
    apply List.Exists_cons in Hex as [(Hvalue & _)|Hex]; [discriminate|].
    apply List.Exists_cons in Hex as [(_ & Hweight & _)|Hex]; [discriminate|].
    inversion Hex.
Defined.

Lemma addRawInput_null_row_witness :
  valueAt (decodedWeight_ Examples.weightedAggregate) 2 = 0
  /\ rawInputRow Examples.weightedAggregate
       [0; 0; 1; 1]%nat 2 Examples.twoGroups = Ok Examples.twoGroups.
Proof.
  split; [reflexivity|].
  destruct (addRawInput_skips_null_rows Examples.weightedAggregate
              [0; 0; 1; 1]%nat) as (_ & Hskip & _).
  - intros Hnone. discriminate.
  - apply Hskip. reflexivity.
Defined.

Lemma checkSetAccuracy_witness :
  isUserError (checkSetAccuracyRows [0; 1]%nat Examples.accuracyAggregate) = true
  /\ exists this',
       checkSetAccuracyRows [0]%nat Examples.accuracyAggregate = Ok this'
       /\ accuracy_ this' = 0.5%float.
Proof.
  assert (Hconstant : DecodedVector_constant_wf
                        (decodedAccuracy_ Examples.accuracyAggregate))
    by (intros Hmapping; discriminate).
  assert (Hinvariant : accuracyInvariant Examples.accuracyAggregate)
    by (intros Hset; discriminate).
  split.
  - destruct (checkSetAccuracy_error_iff_violation Examples.accuracyAggregate
                [0; 1]%nat eq_refl ltac:(discriminate) Hconstant Hinvariant)
      as (Herr & _).
    apply Herr. reflexivity.
  - destruct (checkSetAccuracy_error_iff_violation Examples.accuracyAggregate
                [0]%nat eq_refl ltac:(discriminate) Hconstant Hinvariant)
      as (_ & Hok & _).
    destruct Hok as (this' & Hcall & Haccuracy & _); [reflexivity|].
    exists this'. split; [exact Hcall | exact Haccuracy].
Defined.

Lemma extractValues_finished_witness :
  exists store' out calls flushed,
    extractValues [0; 1]%nat Examples.emptyFlatResult
      Examples.resolvedAggregate Examples.bufferedGroups = Ok (store', out, calls)
    /\ store' !! 0%nat = Some flushed
    /\ largeCountValues_ flushed = []
    /\ kll.totalCount (sketch_ flushed) = 601%N
    /\ Forall (fun call => kll.isFinished (callDigest call) = true) calls.
Proof.
  destruct (extractValues_estimates_on_flushed_sketches
              Examples.resolvedAggregate [0; 1]%nat Examples.emptyFlatResult
              Examples.bufferedGroups)
    as (store' & out & calls & Hextract & _ & _ & _ & Hslots & Hcalls);
    [apply SpecKll_finish_law | reflexivity | reflexivity |].
  destruct (Hslots 0%nat _ (list_elem_of_here _ _) eq_refl)
    as (flushed & Hslot & Hbuffer & Hsketch & _).
  exists store', out, calls, flushed. split; [exact Hextract|].
  split; [exact Hslot|]. split; [exact Hbuffer|]. split.
  - rewrite Hsketch. reflexivity.
  - eapply Forall_impl; [exact Hcalls|]. intros call [Hfinished _]. exact Hfinished.
Defined.

Lemma extractAccumulators_null_rows_witness :
  exists out,
    extractAccumulators Examples.ensureWritable
      [0; 1; 2]%nat Examples.emptyRowVector Examples.resolvedAggregate
      Examples.threeGroups = Ok (Examples.threeGroups, out)
    /\ constant_value (child_kPercentiles out) = Some [0.5%float]
    /\ constant_value (child_kAccuracy out) = None
    /\ row_nulls out = [false; true; false].
Proof.
  destruct (extractAccumulators_null_rows_and_constants
              Examples.ensureWritable Examples.resolvedAggregate [0; 1; 2]%nat
              Examples.emptyRowVector Examples.threeGroups)
    as (out & Hextract & _ & _ & _ & Hpercentiles & _ & Haccuracy & Hsize & Hrows);
    [apply Examples_ensureWritable_grows | reflexivity | apply Z.leb_le; reflexivity |].
  exists out. split; [exact Hextract|]. split; [exact Hpercentiles|].
  split; [exact Haccuracy|].
  pose proof (Hrows 0%nat _ _ eq_refl eq_refl) as H0.
  pose proof (Hrows 1%nat _ _ eq_refl eq_refl) as H1.
  pose proof (Hrows 2%nat _ _ eq_refl eq_refl) as H2.
  unfold row_size in Hsize.
  destruct (row_nulls out) as [|b0 [|b1 [|b2 [|b3 rest]]]]; try discriminate.
  simpl in H0, H1, H2. congruence.
Defined.

Lemma extractAccumulators_slices_witness :
  exists out,
    extractAccumulators Examples.ensureWritable
      [0; 1; 2]%nat Examples.emptyRowVector Examples.resolvedAggregate
      Examples.threeGroups = Ok (Examples.threeGroups, out)
    /\ array_offsets (child_kItems out) !! 0%nat = Some 0
    /\ array_sizes (child_kItems out) !! 0%nat = Some 2
    /\ array_offsets (child_kItems out) !! 2%nat = Some 2
    /\ array_sizes (child_kItems out) !! 2%nat = Some 1
    /\ array_elements (child_kItems out) !! 2%nat = Some 7.
Proof.
  destruct (extractAccumulators_slices_consecutive
              Examples.ensureWritable Examples.resolvedAggregate
              {| values := [0.5%float]; isArray := false |} [0; 1; 2]%nat
              Examples.emptyRowVector Examples.threeGroups)
    as (out & Hextract & Hslices);
    [reflexivity | reflexivity | apply Z.leb_le; reflexivity
    | apply Z.leb_le; reflexivity |].
  exists out. split; [exact Hextract|].
  destruct (Hslices 0%nat _ eq_refl) as [Hrow0 _].
  destruct (Hslices 2%nat _ eq_refl) as [Hrow2 _].
  destruct Hrow0 as (Ho0 & Hs0 & _); [discriminate|].
  destruct Hrow2 as (Ho2 & Hs2 & Hc2 & _); [discriminate|].
  split; [exact Ho0|]. split; [exact Hs0|]. split; [exact Ho2|].
  split; [exact Hs2|]. exact (Hc2 0%nat 7 eq_refl).
Defined.

(** * Further properties *)

(** ** The large-count buffer *)

Section BufferFacts.

Context {T : Type} {L : kll.Library T}.

Lemma bufferInvariant_same_buffer (acc acc' : KllSketchAccumulator T) :
  largeCountValues_ acc' = largeCountValues_ acc ->
  bufferInvariant acc -> bufferInvariant acc'.
Proof. unfold bufferInvariant. intros ->. auto. Qed.

Lemma bufferInvariant_empty (acc : KllSketchAccumulator T) :
  largeCountValues_ acc = [] -> bufferInvariant acc.
Proof.
  unfold bufferInvariant, kMaxBufferSize. intros ->. split; [simpl; lia | constructor].
Qed.

Lemma appendCount_bufferInvariant (value : T) (count : Z) (seed : option N)
    (acc : KllSketchAccumulator T) :
  bufferInvariant acc -> bufferInvariant (appendCount value count seed acc).
Proof.
  intros Hinv. unfold appendCount.
  destruct (Z.ltb_spec count kMinCountToBuffer) as [Hsmall|Hlarge]; [exact Hinv|].
  set (acc' := {| sketch_ := sketch_ acc;
                  largeCountValues_ := largeCountValues_ acc ++ [(value, count)] |}).
  destruct (Nat.leb_spec kMaxBufferSize (length (largeCountValues_ acc'))) as [Hfull|Hroom].
  - apply bufferInvariant_empty. reflexivity.
  - split; [exact Hroom|]. simpl. destruct Hinv as [_ Hcounts].
    apply Forall_app. split; [exact Hcounts|]. constructor; [exact Hlarge | constructor].
Qed.

(** A fresh accumulator has a bounded buffer of large counts, and every
    mutator keeps it so: the buffer never reaches 4096 pairs and never
    holds a count below 512, whatever counts are appended. *)
Theorem accumulator_buffer_stays_bounded (acc : KllSketchAccumulator T)
    (value : T) (count : Z) (accuracy : double) (seed : option N)
    (views : list (kll.View T)) (view : kll.View T) :
  bufferInvariant acc ->
  bufferInvariant (newKllSketchAccumulator seed)
  /\ bufferInvariant (appendCount value count seed acc)
  /\ bufferInvariant (append value acc)
  /\ bufferInvariant (setAccuracy accuracy acc)
  /\ bufferInvariant (appendView view acc)
  /\ bufferInvariant (appendViews views acc)
  /\ bufferInvariant (flush seed acc)
  /\ bufferInvariant (compact seed acc).2.
Proof.
  intros Hinv.
  split; [apply bufferInvariant_empty; reflexivity|].
  split; [apply appendCount_bufferInvariant; exact Hinv|].
  repeat split; try (apply Hinv); try (apply bufferInvariant_empty; reflexivity).
Qed.

(** A second flush merges nothing: its buffer is empty and its sketch is
    the flushed sketch finished once more; when finishing the flushed
    sketch again changes nothing, flushing twice is flushing once. *)
Theorem flush_twice (seed seed' : option N) (acc : KllSketchAccumulator T) :
  kll.finish (sketch_ (flush seed acc)) = sketch_ (flush seed acc) ->
  flush seed' (flush seed acc) = flush seed acc.
Proof.
  intros Hfinished. unfold flush at 1. unfold mergeLargeCountValuesIntoSketch.
  rewrite flush_buffer, Hfinished. reflexivity.
Qed.

End BufferFacts.

(** ** Query-scope constants on the raw-input path *)

Section ResolutionFacts.

Context {T : Type} `{!Inhabited T} {L : kll.Library T}.

Implicit Types (this : ApproxPercentileAggregate T) (store : RowContainer T).

Lemma readPercentiles_values (percentiles : DecodedVector double)
    (offset count : nat) :
  forall i vs,
    readPercentiles percentiles offset i count = Ok vs ->
    length vs = count
    /\ Forall (fun percentile => percentileInRange percentile = true) vs.
Proof.
  induction count as [|count IH]; intros i vs; simpl.
  - intros [= <-]. split; [reflexivity | constructor].
  - destruct (isNullAt percentiles i); simpl; [discriminate|].
    destruct (0 <=? valueAt percentiles (offset + i))%float eqn:Hlow; simpl;
      [|discriminate].
    destruct (valueAt percentiles (offset + i) <=? 1)%float eqn:Hhigh; simpl;
      [|discriminate].
    destruct (readPercentiles percentiles offset (S i) count) as [rest|e] eqn:Hrest;
      simpl; [|discriminate].
    intros [= <-]. destruct (IH (S i) rest Hrest) as [Hlen Hall].
    split; [simpl; congruence|]. constructor; [|exact Hall].
    unfold percentileInRange. rewrite Hlow, Hhigh. reflexivity.
Qed.

(** [checkSetPercentile] either binds percentiles that are not empty and
    lie in [0, 1], or leaves a state with bound percentiles exactly as
    it was. *)
Lemma checkSetPercentile_outcome (isArray' : bool)
    (percentiles : DecodedVector double) (offset len : nat) this this' :
  checkSetPercentile isArray' percentiles offset len this = Ok this' ->
  match percentiles_ this with
  | Some p => this' = this
  | None =>
      exists vs,
        this' = set_percentiles_ {| values := vs; isArray := isArray' |} this
        /\ length vs = len /\ (0 < len)%nat
        /\ Forall (fun percentile => percentileInRange percentile = true) vs
  end.
Proof.
  unfold checkSetPercentile. destruct (percentiles_ this) as [p|].
  - destruct (Bool.eqb isArray' (isArray p)); simpl; [|discriminate].
    destruct (len =? length (values p))%nat; simpl; [|discriminate].
    destruct (comparePercentiles percentiles offset 0 (values p)); simpl;
      [|discriminate].
    intros [= <-]. reflexivity.
  - destruct (Nat.ltb_spec 0 len) as [Hpos|]; simpl; [|discriminate].
    destruct (readPercentiles percentiles offset 0 len) as [vs|e] eqn:Hread; simpl;
      [|discriminate].
    intros [= <-]. destruct (readPercentiles_values _ _ _ _ _ Hread) as [Hlen Hall].
    exists vs. auto.
Qed.

Lemma checkSetPercentileVector_outcome (rows : SelectivityVector)
    (vec : PercentileVector) this this' :
  checkSetPercentileVector rows vec this = Ok this' ->
  match percentiles_ this with
  | Some p => this' = this
  | None =>
      exists vs isArray',
        this' = set_percentiles_ {| values := vs; isArray := isArray' |} this
        /\ vs <> []
        /\ Forall (fun percentile => percentileInRange percentile = true) vs
        /\ (isArray' = false -> length vs = 1%nat)
  end.
Proof.
  unfold checkSetPercentileVector.
  destruct (if negb (isConstantMapping (pv_decoded vec)) then _ else _); simpl;
    [|discriminate].
  destruct (pv_base vec) as [|elements offsetAt sizeAt|]; [| |discriminate];
    intros Hcheck; apply checkSetPercentile_outcome in Hcheck;
    destruct (percentiles_ this); try exact Hcheck;
    destruct Hcheck as (vs & -> & Hlen & Hpos & Hall);
    exists vs; eexists; (split; [reflexivity|]);
    (split; [destruct vs; [simpl in Hlen; lia | discriminate]|]);
    (split; [exact Hall|]); [intros _; exact Hlen | discriminate].
Qed.

(** The accuracy walk keeps a bound accuracy and binds only accuracies
    of (0, 1]. *)
Lemma checkSetAccuracy_value_outcome (accuracy : double) this this' :
  checkSetAccuracy accuracy this = Ok this' ->
  (accuracyIsSet this = true /\ this' = this)
  \/ (accuracyIsSet this = false /\ accuracyInRange accuracy = true
      /\ this' = set_accuracy_ accuracy this).
Proof.
  rewrite checkSetAccuracy_cases.
  destruct (accuracyInRange accuracy); simpl; [|discriminate].
  destruct (accuracyIsSet this).
  - destruct (accuracy =? accuracy_ this)%float; [|discriminate].
    intros [= <-]. auto.
  - intros [= <-]. auto.
Qed.

Lemma checkAccuracyRow_step (row : nat) this this' :
  checkAccuracyRow row this = Ok this' -> accuracyStep this this'.
Proof.
  unfold checkAccuracyRow.
  destruct (isNullAt (decodedAccuracy_ this) row); simpl; [discriminate|].
  destruct (accuracy_ this =? kMissingNormalizedValue)%float eqn:Hmissing.
  - destruct (checkSetAccuracy (valueAt (decodedAccuracy_ this) row) this)
      as [this1|e] eqn:Hcheck; simpl; [|discriminate].
    destruct (valueAt (decodedAccuracy_ this) row =? accuracy_ this1)%float; simpl;
      [|discriminate].
    intros [= <-].
    apply checkSetAccuracy_value_outcome in Hcheck
      as [[_ ->]|(Hunset & Hin & ->)]; [left; reflexivity|].
    right. split; [exact Hunset|]. eauto.
  - simpl.
    destruct (valueAt (decodedAccuracy_ this) row =? accuracy_ this)%float; simpl;
      [|discriminate].
    intros [= <-]. left. reflexivity.
Qed.

(** The seven parts of [constantsPreserved]. *)
Ltac preserved_parts :=
  split; [split; [|split] | split; [|split; [|split]]].

Lemma constantsPreserved_refl this : constantsPreserved this this.
Proof. preserved_parts; auto. Qed.

Lemma constantsPreserved_trans this this' this'' :
  constantsPreserved this this' -> constantsPreserved this' this'' ->
  (accuracyIsSet this = true -> accuracyIsSet this' = true) ->
  constantsPreserved this this''.
Proof.
  intros ((Hw & Ha & Hs) & Hp & Hacc & Hpi & Hai)
         ((Hw' & Ha' & Hs') & Hp' & Hacc' & Hpi' & Hai') Hset.
  preserved_parts; try congruence; auto.
  intros Hs0. rewrite Hacc' by auto. auto.
Qed.

Lemma constantsPreserved_set_decoded (value : DecodedVector T)
    (weight : DecodedVector Z) (accuracy : DecodedVector double) this :
  constantsPreserved this (set_decoded value weight accuracy this).
Proof. preserved_parts; auto. Qed.

Lemma constantsPreserved_accuracyStep this this' :
  accuracyStep this this' -> constantsPreserved this this'.
Proof.
  intros [->|(Hunset & accuracy & Hin & ->)]; [apply constantsPreserved_refl|].
  preserved_parts; auto.
  - rewrite Hunset. discriminate.
  - intros _ _. exact Hin.
Qed.

Lemma accuracyStep_keeps_set this this' :
  accuracyInvariant this -> accuracyStep this this' ->
  accuracyInvariant this'
  /\ (accuracyIsSet this = true -> accuracyIsSet this' = true).
Proof.
  intros Hinv [->|(Hunset & accuracy & Hin & ->)]; [auto|].
  split; [intros _; exact Hin|]. rewrite Hunset. discriminate.
Qed.

Lemma checkAccuracyRows_preserve (rows : list nat) :
  forall this this',
    applyToSelected rows checkAccuracyRow this = Ok this' ->
    constantsPreserved this this'
    /\ (accuracyIsSet this = true -> this' = this).
Proof.
  induction rows as [|row rows IH]; intros this this'; simpl.
  - intros [= <-]. split; [apply constantsPreserved_refl | reflexivity].
  - destruct (checkAccuracyRow row this) as [this1|e] eqn:Hrow; simpl; [|discriminate].
    intros Hrest. destruct (IH this1 this' Hrest) as [Hpres Hsame].
    pose proof (checkAccuracyRow_step row this this1 Hrow) as Hstep.
    destruct Hstep as [->|(Hunset & accuracy & Hin & ->)]; [auto|].
    split.
    + pose proof (set_accuracy_isSet accuracy this Hin) as Hset.
      rewrite (Hsame Hset). apply constantsPreserved_accuracyStep.
      right. split; [exact Hunset|]. eauto.
    + rewrite Hunset. discriminate.
Qed.

Lemma checkSetAccuracyRows_preserve (rows : SelectivityVector) this this' :
  checkSetAccuracyRows rows this = Ok this' ->
  constantsPreserved this this'
  /\ (accuracyIsSet this = true -> this' = this).
Proof.
  unfold checkSetAccuracyRows.
  destruct (negb (hasAccuracy_ this)).
  { intros [= <-]. split; [apply constantsPreserved_refl | reflexivity]. }
  destruct (isConstantMapping (decodedAccuracy_ this)).
  - destruct (negb (isNullAt (decodedAccuracy_ this) 0)); simpl; [|discriminate].
    intros Hcheck.
    apply checkSetAccuracy_value_outcome in Hcheck
      as [[Hset ->]|(Hunset & Hin & ->)].
    + split; [apply constantsPreserved_refl | reflexivity].
    + split; [|rewrite Hunset; discriminate].
      apply constantsPreserved_accuracyStep. right. split; [exact Hunset|]. eauto.
  - apply checkAccuracyRows_preserve.
Qed.

Lemma checkSetPercentileVector_preserve (rows : SelectivityVector)
    (vec : PercentileVector) this this' :
  checkSetPercentileVector rows vec this = Ok this' ->
  constantsPreserved this this'
  /\ accuracy_ this' = accuracy_ this
  /\ percentiles_ this' <> None
  /\ (percentilesInvariant this -> percentilesInvariant this').
Proof.
  intros Hcheck. apply checkSetPercentileVector_outcome in Hcheck.
  destruct (percentiles_ this) as [p|] eqn:Hp.
  - subst this'. split; [apply constantsPreserved_refl|]. split; [reflexivity|].
    split; [congruence | auto].
  - destruct Hcheck as (vs & isArray' & -> & Hne & Hall & _).
    assert (Hinv : percentilesInvariant
                     (set_percentiles_ {| values := vs; isArray := isArray' |} this)).
    { intros p'. simpl. intros [= <-]. simpl. auto. }
    split; [|split; [reflexivity|split; [discriminate|auto]]].
    preserved_parts; auto. rewrite Hp. discriminate.
Qed.

Opaque Nat.eqb.

(** A successful [decodeArguments] was given exactly the arguments the
    operator was built for, leaves the percentiles resolved, and never
    changes a query-scope constant that was bound before. *)
Theorem decodeArguments_resolves_and_preserves (rows : SelectivityVector)
    (args : list (VectorPtr T)) this this' :
  decodeArguments rows args this = Ok this' ->
  length args
  = (2 + (if hasWeight_ this then 1 else 0)
       + (if hasAccuracy_ this then 1 else 0))%nat
  /\ percentiles_ this' <> None
  /\ constantsPreserved this this'.
Proof.
  unfold decodeArguments.
  destruct (args !! 0%nat) as [[decodedValue| | |]|]; simpl; try discriminate.
  set (weightStep := if hasWeight_ this then _ else _).
  destruct weightStep as [[decodedWeight argIndex]|e] eqn:Hweight; simpl;
    [|discriminate].
  assert (HargIndex : argIndex = (1 + (if hasWeight_ this then 1 else 0))%nat).
  { unfold weightStep in Hweight. destruct (hasWeight_ this).
    - destruct (args !! 1%nat) as [[| | |]|]; try discriminate.
      injection Hweight as _ <-. reflexivity.
    - injection Hweight as _ <-. reflexivity. }
  destruct (args !! argIndex) as [[| |vec|]|]; simpl; try discriminate.
  set (this1 := set_decoded decodedValue decodedWeight (decodedAccuracy_ this) this).
  destruct (checkSetPercentileVector rows vec this1) as [this2|e] eqn:Hpercentile;
    simpl; [|discriminate].
  destruct (checkSetPercentileVector_preserve rows vec this1 this2 Hpercentile)
    as (Hpres12 & Hacc12 & Hresolved & _).
  assert (Hpres02 : constantsPreserved this this2).
  { apply (constantsPreserved_trans this this1 this2);
      [apply constantsPreserved_set_decoded | exact Hpres12 | auto]. }
  assert (Hset02 : accuracyIsSet this = true -> accuracyIsSet this2 = true).
  { unfold accuracyIsSet. rewrite Hacc12. auto. }
  assert (Hflag : hasAccuracy_ this2 = hasAccuracy_ this) by apply Hpres02.
  rewrite Hflag.
  destruct (hasAccuracy_ this) eqn:HhasAccuracy.
  - destruct (args !! S argIndex) as [[| | |decodedAccuracy]|]; simpl; try discriminate.
    set (this3 := set_decoded (decodedValue_ this2) (decodedWeight_ this2)
                    decodedAccuracy this2).
    destruct (checkSetAccuracyRows rows this3) as [this4|e] eqn:Haccuracy; simpl;
      [|discriminate].
    destruct (checkSetAccuracyRows_preserve rows this3 this4 Haccuracy)
      as [Hpres34 _].
    destruct (Nat.eqb_spec (S (S argIndex)) (length args)) as [Hlen|]; simpl;
      [|discriminate].
    intros [= <-]. split; [lia|].
    assert (Hpres24 : constantsPreserved this2 this4).
    { apply (constantsPreserved_trans this2 this3 this4);
        [apply constantsPreserved_set_decoded | exact Hpres34 | auto]. }
    split.
    + destruct (percentiles_ this2) as [p|] eqn:Hp; [|congruence].
      destruct Hpres24 as (_ & Hkeep & _). rewrite (Hkeep p Hp). discriminate.
    + apply (constantsPreserved_trans this this2 this4); assumption.
  - simpl.
    destruct (Nat.eqb_spec (S argIndex) (length args)) as [Hlen|]; simpl;
      [|discriminate].
    intros [= <-]. split; [lia|]. split; [exact Hresolved | exact Hpres02].
Qed.

Transparent Nat.eqb.

End ResolutionFacts.

(** ** Groups on the raw-input path *)

Section RawInputGroups.

Context {T : Type} `{!Inhabited T} {L : kll.Library T}.

Implicit Types (this : ApproxPercentileAggregate T) (store : RowContainer T).

Lemma initRawAccumulator_Ok this (group : nat) store
    (accumulator : KllSketchAccumulator T) :
  store !! group = Some accumulator ->
  initRawAccumulator this group store
  = Ok (<[group := if accuracyIsSet this
                   then setAccuracy (accuracy_ this) accumulator
                   else accumulator]> store).
Proof.
  intros Hacc. unfold initRawAccumulator, accuracyIsSet.
  rewrite (value_lookup _ _ _ Hacc). simpl.
  destruct (negb (accuracy_ this =? kMissingNormalizedValue)%float); [reflexivity|].
  rewrite (list_insert_id _ _ _ Hacc). reflexivity.
Qed.

Lemma initRawAccumulator_Failed this (group : nat) store :
  store !! group = None ->
  exists e, initRawAccumulator this group store = Failed e.
Proof.
  intros Hnone. unfold initRawAccumulator, value. rewrite Hnone. simpl. eauto.
Qed.

(** A successful step of the row walk either skipped a null row or
    replaced the accumulator of the row's group by its [rowUpdate]. *)
Lemma rawInputRow_Ok this (groups : list nat) (row : nat) store store' :
  DecodedVector_wf (decodedValue_ this) ->
  rawInputRow this groups row store = Ok store' ->
  (rowIsNull this row = true /\ store' = store)
  \/ (rowIsNull this row = false
      /\ exists group accumulator,
           groups !! row = Some group
           /\ store !! group = Some accumulator
           /\ store' = <[group := rowUpdate this row accumulator]> store).
Proof.
  intros Hwf. unfold rawInputRow, rowIsNull, rowUpdate.
  assert (Hstep : forall (skip : bool)
                    (update : KllSketchAccumulator T -> Result (KllSketchAccumulator T)),
             (group ← groupAt groups row;
              store1 ← initRawAccumulator this group store;
              accumulator ← value store1 group;
              accumulator' ← update accumulator;
              Ok (<[group := accumulator']> store1)) = Ok store' ->
             exists group accumulator accumulator',
               groups !! row = Some group
               /\ store !! group = Some accumulator
               /\ update (if accuracyIsSet this
                          then setAccuracy (accuracy_ this) accumulator
                          else accumulator) = Ok accumulator'
               /\ store' = <[group := accumulator']> store).
  { intros _ update. unfold groupAt.
    destruct (groups !! row) as [group|]; simpl; [|discriminate].
    destruct (store !! group) as [accumulator|] eqn:Hacc.
    2:{ destruct (initRawAccumulator_Failed this group store Hacc) as [e ->].
        discriminate. }
    rewrite (initRawAccumulator_Ok this group store accumulator Hacc). simpl.
    unfold value. rewrite list_lookup_insert_eq by (apply lookup_lt_Some in Hacc; lia).
    simpl. destruct (update _) as [accumulator'|e] eqn:Hupdate; simpl; [|discriminate].
    intros [= <-]. exists group, accumulator, accumulator'.
    rewrite list_insert_insert_eq. auto. }
  destruct (hasWeight_ this); simpl.
  - unfold addRawInputWeightedRow.
    destruct (isNullAt (decodedValue_ this) row || isNullAt (decodedWeight_ this) row).
    + intros [= <-]. left. auto.
    + intros Hrow. right. split; [reflexivity|].
      destruct (Hstep true
                  (fun accumulator =>
                     _ ← checkWeight (valueAt (decodedWeight_ this) row);
                     Ok (appendCount (valueAt (decodedValue_ this) row)
                           (valueAt (decodedWeight_ this) row)
                           (fixedRandomSeed_ this) accumulator)))
        as (group & accumulator & accumulator' & Hgroup & Hacc & Hupdate & ->).
      { rewrite <- Hrow. unfold groupAt.
        destruct (groups !! row) as [group|]; simpl; [|reflexivity].
        destruct (initRawAccumulator this group store) as [store1|e]; simpl;
          [|reflexivity].
        destruct (value store1 group) as [accumulator|e]; simpl; [|reflexivity].
        destruct (checkWeight (valueAt (decodedWeight_ this) row)) as [[]|e];
          reflexivity. }
      destruct (checkWeight (valueAt (decodedWeight_ this) row)) as [[]|e];
        simpl in Hupdate; [|discriminate].
      injection Hupdate as <-. exists group, accumulator. auto.
  - rewrite orb_false_r.
    destruct (mayHaveNulls (decodedValue_ this)) eqn:Hmay.
    + unfold addRawInputNullableRow.
      destruct (isNullAt (decodedValue_ this) row).
      * intros [= <-]. left. auto.
      * intros Hrow. right. split; [reflexivity|].
        destruct (Hstep true
                    (fun accumulator =>
                       Ok (append (valueAt (decodedValue_ this) row) accumulator)))
          as (group & accumulator & accumulator' & Hgroup & Hacc & Hupdate & ->).
        { rewrite <- Hrow. unfold groupAt.
          destruct (groups !! row) as [group|]; simpl; [|reflexivity].
          destruct (initRawAccumulator this group store) as [store1|e]; simpl;
            [|reflexivity].
          destruct (value store1 group) as [accumulator|e]; reflexivity. }
        injection Hupdate as <-. exists group, accumulator. auto.
    + rewrite (Hwf Hmay row). unfold addRawInputRow.
      intros Hrow. right. split; [reflexivity|].
      destruct (Hstep true
                  (fun accumulator =>
                     Ok (append (valueAt (decodedValue_ this) row) accumulator)))
        as (group & accumulator & accumulator' & Hgroup & Hacc & Hupdate & ->).
      { rewrite <- Hrow. unfold groupAt.
        destruct (groups !! row) as [group|]; simpl; [|reflexivity].
        destruct (initRawAccumulator this group store) as [store1|e]; simpl;
          [|reflexivity].
        destruct (value store1 group) as [accumulator|e]; reflexivity. }
      injection Hupdate as <-. exists group, accumulator. auto.
Qed.

Lemma rowUpdate_bufferInvariant this (row : nat)
    (accumulator : KllSketchAccumulator T) :
  bufferInvariant accumulator -> bufferInvariant (rowUpdate this row accumulator).
Proof.
  intros Hinv. unfold rowUpdate.
  assert (Hinit : bufferInvariant
                    (if accuracyIsSet this
                     then setAccuracy (accuracy_ this) accumulator
                     else accumulator)).
  { destruct (accuracyIsSet this); exact Hinv. }
  destruct (hasWeight_ this).
  - apply appendCount_bufferInvariant. exact Hinit.
  - exact Hinit.
Qed.

Lemma addRawInputRows_walk this (groups : list nat) (rows : list nat) store :
  addRawInputRows this groups rows store
  = applyToSelected rows (rawInputRow this groups) store.
Proof.
  unfold addRawInputRows, rawInputRow.
  destruct (hasWeight_ this); [reflexivity|].
  destruct (mayHaveNulls (decodedValue_ this)); reflexivity.
Qed.

Lemma rawInputRows_groups this (groups : list nat)
    (rows : SelectivityVector) store store' :
  DecodedVector_wf (decodedValue_ this) ->
  applyToSelected rows (rawInputRow this groups) store = Ok store' ->
  length store' = length store
  /\ forall group accumulator,
       store !! group = Some accumulator ->
       store' !! group
       = Some (fold_left (fun accumulator row => rowUpdate this row accumulator)
                 (rowsOfGroup this groups rows group) accumulator).
Proof.
  intros Hwf. revert store.
  induction rows as [|row rows IH]; intros store; simpl.
  - intros [= <-]. auto.
  - destruct (rawInputRow this groups row store) as [store1|e] eqn:Hrow; simpl;
      [|discriminate].
    intros Hrest. destruct (IH store1 Hrest) as [Hlen Hgroups].
    apply (rawInputRow_Ok this groups row store store1 Hwf) in Hrow
      as [[Hnull ->]|(Hnotnull & group' & accumulator' & Hgroup & Hacc & ->)].
    + split; [exact Hlen|]. intros group accumulator Hlookup.
      unfold rowsOfGroup. simpl. rewrite Hnull. simpl. apply Hgroups. exact Hlookup.
    + split; [rewrite Hlen; apply length_insert|].
      intros group accumulator Hlookup.
      unfold rowsOfGroup. simpl. rewrite Hnotnull, Hgroup. simpl.
      destruct (Nat.eqb_spec group' group) as [->|Hne].
      * simpl. apply Hgroups. rewrite Hacc in Hlookup. injection Hlookup as <-.
        apply list_lookup_insert_eq. apply lookup_lt_Some in Hacc. exact Hacc.
      * apply Hgroups. rewrite list_lookup_insert_ne by exact Hne. exact Hlookup.
Qed.

(** A group's accumulator after the row walk is the accumulator before,
    updated by the group's own non-null rows in row order: rows of other
    groups and null rows leave it alone, and the row container keeps its
    size. *)
Theorem addRawInput_updates_each_group_by_its_rows this (groups : list nat)
    (rows : SelectivityVector) store store' :
  DecodedVector_wf (decodedValue_ this) ->
  addRawInputRows this groups rows store = Ok store' ->
  length store' = length store
  /\ forall group accumulator,
       store !! group = Some accumulator ->
       store' !! group
       = Some (fold_left (fun accumulator row => rowUpdate this row accumulator)
                 (rowsOfGroup this groups rows group) accumulator).
Proof.
  intros Hwf Hwalk. rewrite addRawInputRows_walk in Hwalk.
  destruct (rawInputRows_groups this groups rows store store' Hwf Hwalk)
    as [Hlen Hgroups].
  split; [exact Hlen|]. intros group accumulator Hlookup.
  apply Hgroups. exact Hlookup.
Qed.

(** The row walk keeps the large-count buffer of every group bounded. *)
Theorem addRawInput_keeps_buffers_bounded this (groups : list nat)
    (rows : SelectivityVector) store store' :
  DecodedVector_wf (decodedValue_ this) ->
  Forall bufferInvariant store ->
  addRawInputRows this groups rows store = Ok store' ->
  Forall bufferInvariant store'.
Proof.
  intros Hwf Hinv Hwalk. rewrite addRawInputRows_walk in Hwalk.
  destruct (rawInputRows_groups this groups rows store store' Hwf Hwalk)
    as [Hlen Hgroups].
  apply Forall_lookup_2. intros group accumulator' Hlookup'.
  destruct (store !! group) as [accumulator|] eqn:Hlookup.
  - rewrite (Hgroups group accumulator Hlookup) in Hlookup'.
    injection Hlookup' as <-.
    pose proof (Forall_lookup_1 _ _ _ _ Hinv Hlookup) as Hacc.
    clear Hlookup. revert accumulator Hacc.
    induction (rowsOfGroup this groups rows group) as [|row rest IH];
      intros accumulator Hacc; simpl; [exact Hacc|].
    apply IH. apply rowUpdate_bufferInvariant. exact Hacc.
  - apply lookup_ge_None in Hlookup. apply lookup_lt_Some in Hlookup'. lia.
Qed.

End RawInputGroups.

(** ** The single-group raw-input path *)

Section SingleGroupFacts.

Context {T : Type} `{!Inhabited T} {L : kll.Library T}.

Implicit Types (this : ApproxPercentileAggregate T) (store : RowContainer T).

Lemma addSingleGroupRawInputRows_walk this (group : nat) (rows : list nat) store
    (accumulator : KllSketchAccumulator T) :
  store !! group = Some accumulator ->
  addSingleGroupRawInputRows this group rows store
  = (accumulator' ←
       applyToSelected rows (singleGroupRow this)
         (if accuracyIsSet this then setAccuracy (accuracy_ this) accumulator
          else accumulator);
     Ok (<[group := accumulator']> store)).
Proof.
  intros Hacc. unfold addSingleGroupRawInputRows, singleGroupRow.
  rewrite (initRawAccumulator_Ok this group store accumulator Hacc). simpl.
  unfold value. rewrite list_lookup_insert_eq by (apply lookup_lt_Some in Hacc; lia).
  simpl.
  assert (Hinsert : forall accumulator' : KllSketchAccumulator T,
             <[group := accumulator']>
               (<[group := if accuracyIsSet this
                           then setAccuracy (accuracy_ this) accumulator
                           else accumulator]> store)
             = <[group := accumulator']> store)
    by (intros; apply list_insert_insert_eq).
  destruct (hasWeight_ this); [|destruct (mayHaveNulls (decodedValue_ this))];
    match goal with
    | |- (?walk ≫= _) = _ => destruct walk as [accumulator'|e]; simpl;
                             [rewrite Hinsert|]; reflexivity
    end.
Qed.

(** One row of the two walks, on a group without bound accuracy. *)
Lemma rawInputRow_single this (groups : list nat) (group row : nat) store
    (accumulator : KllSketchAccumulator T) :
  accuracyIsSet this = false ->
  groups !! row = Some group ->
  store !! group = Some accumulator ->
  rawInputRow this groups row store
  = (accumulator' ← singleGroupRow this row accumulator;
     Ok (<[group := accumulator']> store)).
Proof.
  intros Hunset Hgroup Hacc.
  pose proof (initRawAccumulator_Ok this group store accumulator Hacc) as Hinit.
  rewrite Hunset, (list_insert_id _ _ _ Hacc) in Hinit.
  unfold rawInputRow, singleGroupRow.
  destruct (hasWeight_ this); [|destruct (mayHaveNulls (decodedValue_ this))].
  - unfold addRawInputWeightedRow, addSingleGroupWeightedRow.
    destruct (isNullAt (decodedValue_ this) row || isNullAt (decodedWeight_ this) row);
      simpl; [rewrite (list_insert_id _ _ _ Hacc); reflexivity|].
    unfold groupAt. rewrite Hgroup. simpl. rewrite Hinit. simpl.
    rewrite (value_lookup _ _ _ Hacc). simpl.
    destruct (checkWeight (valueAt (decodedWeight_ this) row)) as [[]|e]; reflexivity.
  - unfold addRawInputNullableRow, addSingleGroupNullableRow.
    destruct (isNullAt (decodedValue_ this) row); simpl;
      [rewrite (list_insert_id _ _ _ Hacc); reflexivity|].
    unfold groupAt. rewrite Hgroup. simpl. rewrite Hinit. simpl.
    rewrite (value_lookup _ _ _ Hacc). reflexivity.
  - unfold addRawInputRow, addSingleGroupRow.
    unfold groupAt. rewrite Hgroup. simpl. rewrite Hinit. simpl.
    rewrite (value_lookup _ _ _ Hacc). reflexivity.
Qed.

Lemma rawInputRows_single this (groups : list nat) (group : nat) (rows : list nat) :
  accuracyIsSet this = false ->
  Forall (fun row => groups !! row = Some group) rows ->
  forall store (accumulator : KllSketchAccumulator T),
    store !! group = Some accumulator ->
    applyToSelected rows (rawInputRow this groups) store
    = (accumulator' ← applyToSelected rows (singleGroupRow this) accumulator;
       Ok (<[group := accumulator']> store)).
Proof.
  intros Hunset Hgroups. induction Hgroups as [|row rows Hgroup _ IH];
    intros store accumulator Hacc; simpl.
  - rewrite (list_insert_id _ _ _ Hacc). reflexivity.
  - rewrite (rawInputRow_single this groups group row store accumulator
               Hunset Hgroup Hacc).
    destruct (singleGroupRow this row accumulator) as [accumulator1|e]; simpl;
      [|reflexivity].
    rewrite (IH (<[group := accumulator1]> store) accumulator1).
    + destruct (applyToSelected rows (singleGroupRow this) accumulator1); simpl;
        [rewrite list_insert_insert_eq|]; reflexivity.
    + apply list_lookup_insert_eq. apply lookup_lt_Some in Hacc. exact Hacc.
Qed.

Lemma rowIsNull_skipped this (groups : list nat) (row : nat) store
    (accumulator : KllSketchAccumulator T) :
  DecodedVector_wf (decodedValue_ this) ->
  rowIsNull this row = true ->
  rawInputRow this groups row store = Ok store
  /\ singleGroupRow this row accumulator = Ok accumulator.
Proof.
  intros Hwf. unfold rowIsNull, rawInputRow, singleGroupRow.
  destruct (hasWeight_ this); simpl.
  - intros Hnull. unfold addRawInputWeightedRow, addSingleGroupWeightedRow.
    rewrite Hnull. auto.
  - rewrite orb_false_r. intros Hnull.
    destruct (mayHaveNulls (decodedValue_ this)) eqn:Hmay.
    + unfold addRawInputNullableRow, addSingleGroupNullableRow. rewrite Hnull. auto.
    + rewrite (Hwf Hmay row) in Hnull. discriminate.
Qed.

(** [addSingleGroupRawInput] against [addRawInput] on rows that all
    belong to one group: while no accuracy is bound the two walks give
    the same outcome, errors included; on rows that are all null
    [addRawInput] leaves the row container alone, but
    [addSingleGroupRawInput] still applies a bound accuracy to the
    group. *)
Theorem addSingleGroupRawInput_against_addRawInput this (group : nat)
    (groups : list nat) (rows : SelectivityVector) store
    (accumulator : KllSketchAccumulator T) :
  DecodedVector_wf (decodedValue_ this) ->
  store !! group = Some accumulator ->
  Forall (fun row => groups !! row = Some group) rows ->
  (accuracyIsSet this = false ->
     addSingleGroupRawInputRows this group rows store
     = addRawInputRows this groups rows store)
  /\ (Forall (fun row => rowIsNull this row = true) rows ->
      addRawInputRows this groups rows store = Ok store
      /\ addSingleGroupRawInputRows this group rows store
         = Ok (<[group := if accuracyIsSet this
                          then setAccuracy (accuracy_ this) accumulator
                          else accumulator]> store)).
Proof.
  intros Hwf Hacc Hgroups. split.
  - intros Hunset.
    rewrite (addSingleGroupRawInputRows_walk this group rows store accumulator Hacc),
      Hunset, addRawInputRows_walk.
    symmetry. apply rawInputRows_single; assumption.
  - intros Hnull.
    rewrite (addSingleGroupRawInputRows_walk this group rows store accumulator Hacc),
      addRawInputRows_walk.
    clear Hgroups Hacc.
    generalize (if accuracyIsSet this then setAccuracy (accuracy_ this) accumulator
                else accumulator) as initialized.
    induction Hnull as [|row rows Hrow _ IH]; intros initialized; simpl; [auto|].
    destruct (rowIsNull_skipped this groups row store initialized Hwf Hrow)
      as [-> ->].
    simpl. apply IH.
Qed.

End SingleGroupFacts.

(** ** The further properties on sample inputs *)

Lemma accumulator_buffer_witness :
  bufferInvariant (appendCount 9 600 Examples.seed Examples.nearlyFullAccumulator)
  /\ bufferInvariant (flush Examples.seed Examples.nearlyFullAccumulator).
Proof.
  destruct (accumulator_buffer_stays_bounded Examples.nearlyFullAccumulator
              9 600 0.5%float Examples.seed []
              (kll.toView (sketch_ Examples.unsortedAccumulator)))
    as (_ & Happend & _ & _ & _ & _ & Hflush & _).
  - split; [apply Nat.ltb_lt; vm_compute; reflexivity|].
    apply List.Forall_forall. intros pair Hpair. apply repeat_spec in Hpair.
    subst pair. unfold kMinCountToBuffer. simpl. lia.
  - split; [exact Happend | exact Hflush].
Defined.

Lemma flush_twice_witness :
  flush None (flush Examples.seed Examples.unsortedAccumulator)
  = flush Examples.seed Examples.unsortedAccumulator.
Proof.
  apply (flush_twice Examples.seed None Examples.unsortedAccumulator).
  reflexivity.
Defined.

Lemma decodeArguments_witness :
  exists this',
    decodeArguments [0; 1]%nat Examples.scalarArguments Examples.freshAggregate
    = Ok this'
    /\ percentiles_ this' <> None
    /\ fixedRandomSeed_ this' = Examples.seed.
Proof.
  destruct (decodeArguments [0; 1]%nat Examples.scalarArguments
              Examples.freshAggregate) as [this'|e] eqn:Hdecode.
  - exists this'. split; [reflexivity|].
    destruct (decodeArguments_resolves_and_preserves
                [0; 1]%nat Examples.scalarArguments Examples.freshAggregate this'
                Hdecode) as (_ & Hresolved & (_ & _ & Hseed) & _).
    split; [exact Hresolved | exact Hseed].
  - vm_compute in Hdecode. discriminate.
Defined.

Lemma addRawInput_groups_witness :
  [appendCount 10 1 Examples.seed (newKllSketchAccumulator Examples.seed);
   newKllSketchAccumulator Examples.seed] !! 0%nat
  = Some (appendCount 10 1 Examples.seed (newKllSketchAccumulator Examples.seed)).
Proof.
  assert (Hwf : DecodedVector_wf (decodedValue_ Examples.weightedAggregate))
    by (intros Hnulls; discriminate).
  assert (Hwalk : addRawInputRows Examples.weightedAggregate [0; 0; 1; 1]%nat
                    [0; 2; 3]%nat Examples.twoGroups
                  = Ok [appendCount 10 1 Examples.seed
                          (newKllSketchAccumulator Examples.seed);
                        newKllSketchAccumulator Examples.seed])
    by reflexivity.
  destruct (addRawInput_updates_each_group_by_its_rows
              Examples.weightedAggregate [0; 0; 1; 1]%nat [0; 2; 3]%nat
              Examples.twoGroups _ Hwf Hwalk) as [_ Hgroups].
  exact (Hgroups 0%nat _ eq_refl).
Defined.

Lemma addRawInput_buffers_witness :
  Forall bufferInvariant
    [appendCount 20 700 Examples.seed
       (appendCount 10 600 Examples.seed (newKllSketchAccumulator Examples.seed));
     newKllSketchAccumulator Examples.seed].
Proof.
  assert (Hwf : DecodedVector_wf (decodedValue_ Examples.heavyAggregate))
    by (intros Hnulls [|[|[|row]]]; reflexivity).
  assert (Hfresh : bufferInvariant (newKllSketchAccumulator (T := Z) Examples.seed))
    by (split; [unfold kMaxBufferSize; simpl; lia | constructor]).
  apply (addRawInput_keeps_buffers_bounded Examples.heavyAggregate
           [0; 0]%nat [0; 1]%nat Examples.twoGroups _ Hwf).
  - constructor; [exact Hfresh|]. constructor; [exact Hfresh | constructor].
  - reflexivity.
Defined.

Lemma addSingleGroupRawInput_witness :
  addSingleGroupRawInputRows Examples.weightedAggregate 0 [0; 2; 3]%nat
    Examples.twoGroups
  = addRawInputRows Examples.weightedAggregate [0; 0; 0; 0]%nat [0; 2; 3]%nat
      Examples.twoGroups.
Proof.
  assert (Hwf : DecodedVector_wf (decodedValue_ Examples.weightedAggregate))
    by (intros Hnulls; discriminate).
  destruct (addSingleGroupRawInput_against_addRawInput
              Examples.weightedAggregate 0 [0; 0; 0; 0]%nat [0; 2; 3]%nat
              Examples.twoGroups (newKllSketchAccumulator Examples.seed)
              Hwf eq_refl) as [Hsame _].
  - repeat constructor.
  - apply Hsame. reflexivity.
Defined.

(** ** The factory and the registered signatures *)

Lemma TypeKind_eqb_eq (a b : TypeKind.t) : TypeKind.eqb a b = true <-> a = b.
Proof.
  split.
  - destruct a, b; intros Heq; first [reflexivity | discriminate Heq].
  - intros ->. destruct b; reflexivity.
Qed.

Lemma kind_BIGINT (type : TypePtr) :
  TypeKind.eqb (kind type) TypeKind.BIGINT = true <-> type = BIGINT.
Proof. destruct type; simpl; split; intros Heq; first [reflexivity | discriminate Heq]. Qed.

Lemma kind_DOUBLE (type : TypePtr) :
  TypeKind.eqb (kind type) TypeKind.DOUBLE = true <-> type = DOUBLE.
Proof. destruct type; simpl; split; intros Heq; first [reflexivity | discriminate Heq]. Qed.

Lemma validPercentileType_spec (type : TypePtr) :
  validPercentileType type = true <-> type = DOUBLE \/ type = ARRAY DOUBLE.
Proof.
  split.
  - destruct type as [| | | | | | | | | | | |elementType| |]; simpl; intros Hvalid;
      try discriminate Hvalid; [left; reflexivity|].
    right. apply kind_DOUBLE in Hvalid. rewrite Hvalid. reflexivity.
  - intros [->| ->]; reflexivity.
Qed.

Lemma validPercentileType_not_BIGINT (type : TypePtr) :
  validPercentileType type = true ->
  TypeKind.eqb (kind type) TypeKind.BIGINT = false.
Proof.
  intros Hvalid. apply validPercentileType_spec in Hvalid as [->| ->]; reflexivity.
Qed.

(** A type spelled like a numeric input type or like [array(double)] is
    that type. *)
Lemma typeSignature_registered (type' type : TypePtr) :
  elementTypeOfInput type' <> None \/ type' = ARRAY DOUBLE ->
  typeSignature type' = typeSignature type ->
  type = type'.
Proof.
  intros [Hnumeric| ->].
  - destruct type'; try (exfalso; apply Hnumeric; reflexivity);
      destruct type; simpl; intros Heq;
        first [reflexivity | discriminate Heq].
  - destruct type as [| | | | | | | | | | | |elementType| |]; simpl; intros Heq;
      try discriminate Heq.
    injection Heq as Heq.
    destruct elementType; simpl in Heq; first [reflexivity | discriminate Heq].
Qed.

Lemma registeredSignatures_arguments (arguments : list string) :
  In arguments (map sig_argumentTypes registeredSignatures) ->
  exists signature,
    In signature registeredSignatures /\ sig_argumentTypes signature = arguments.
Proof.
  intros Hin. apply in_map_iff in Hin as (signature & Harguments & Hin).
  exists signature. auto.
Qed.

Ltac spelled_type H :=
  first
    [ apply (typeSignature_registered TINYINT) in H; [|left; discriminate]
    | apply (typeSignature_registered SMALLINT) in H; [|left; discriminate]
    | apply (typeSignature_registered INTEGER) in H; [|left; discriminate]
    | apply (typeSignature_registered BIGINT) in H; [|left; discriminate]
    | apply (typeSignature_registered REAL) in H; [|left; discriminate]
    | apply (typeSignature_registered DOUBLE) in H; [|left; discriminate]
    | apply (typeSignature_registered (ARRAY DOUBLE)) in H; [|right; reflexivity] ];
  subst.

(** The argument types a registered signature spells: from the spelling
    of an argument list to the list itself. *)
Ltac spelled_arguments Harguments argTypes :=
  let a0 := fresh "a" in
  let a1 := fresh "a" in
  let a2 := fresh "a" in
  let a3 := fresh "a" in
  let a4 := fresh "a" in
  let rest := fresh "rest" in
  destruct argTypes as [|a0 [|a1 [|a2 [|a3 [|a4 rest]]]]];
  try discriminate Harguments;
  simpl in Harguments;
  injection Harguments; clear Harguments; intros;
  repeat match goal with
         | H : _ = typeSignature _ |- _ => spelled_type H
         end.

Section FactoryFacts.

Variables isRawInput isPartialOutput : Step.t -> bool.

(** The factory, with the template chosen through [elementTypeOfInput]. *)
Lemma createAggregate_unfold (step : Step.t) (argTypes : list TypePtr)
    (resultType : TypePtr) (fixedRandomSeed : option N) :
  createAggregate isRawInput isPartialOutput step argTypes resultType fixedRandomSeed
  = (let hasWeight :=
       match argTypes !! 1%nat with
       | Some weightType => TypeKind.eqb (kind weightType) TypeKind.BIGINT
       | None => false
       end in
     let hasAccuracy := (length argTypes =? (if hasWeight then 4 else 3))%nat in
     _ ← checkArgumentTypes (isRawInput step) hasWeight hasAccuracy argTypes;
     type ← elementTypeFor isPartialOutput (isRawInput step) step argTypes resultType;
     match elementTypeOfInput type with
     | Some T =>
         Ok {| created_T := T;
               created_hasWeight := hasWeight;
               created_hasAccuracy := hasAccuracy;
               created_resultType := resultType;
               created_fixedRandomSeed := fixedRandomSeed |}
     | None => Failed (UserError "Unsupported input type for {} aggregation {}")
     end).
Proof.
  unfold createAggregate. cbv zeta.
  destruct (checkArgumentTypes _ _ _ _) as [[]|e]; simpl; [|reflexivity].
  destruct (elementTypeFor _ _ _ _ _) as [type|e]; simpl; [|reflexivity].
  destruct type; reflexivity.
Qed.

Ltac factory_step :=
  match goal with
  | H : Ok _ = Ok _ |- _ => injection H as <-
  | H : Failed _ = Ok _ |- _ => discriminate H
  | H : Failed _ = Failed _ |- _ => injection H as <-
  | H : Ok _ = Failed _ |- _ => discriminate H
  end.

(** The argument lists of the four shapes. *)
Lemma createAggregate_raw_shape (step : Step.t) (argTypes : list TypePtr)
    (resultType : TypePtr) (fixedRandomSeed : option N) (created : CreatedAggregate) :
  isRawInput step = true ->
  createAggregate isRawInput isPartialOutput step argTypes resultType
    fixedRandomSeed = Ok created ->
  exists (inputType percentileType : TypePtr) (T : ElementType)
    (hasWeight hasAccuracy : bool),
    elementTypeOfInput inputType = Some T
    /\ validPercentileType percentileType = true
    /\ argTypes
       = [inputType] ++ (if hasWeight then [BIGINT] else [])
           ++ [percentileType] ++ (if hasAccuracy then [DOUBLE] else [])
    /\ created = {| created_T := T;
                    created_hasWeight := hasWeight;
                    created_hasAccuracy := hasAccuracy;
                    created_resultType := resultType;
                    created_fixedRandomSeed := fixedRandomSeed |}.
Proof.
  intros Hraw. rewrite createAggregate_unfold. unfold elementTypeFor.
  rewrite Hraw. cbv zeta. simpl negb. cbv iota.
  destruct argTypes as [|inputType [|A1 [|A2 [|A3 [|A4 rest]]]]];
    simpl; try discriminate.
  - destruct (TypeKind.eqb (kind A1) TypeKind.BIGINT) eqn:HA1; simpl;
      [discriminate|].
    destruct (validPercentileType A1) eqn:Hvalid; simpl; [|discriminate].
    destruct (elementTypeOfInput inputType) as [T|] eqn:HT; [|discriminate].
    intros [= <-]. exists inputType, A1, T, false, false. auto.
  - destruct (TypeKind.eqb (kind A1) TypeKind.BIGINT) eqn:HA1; simpl.
    + apply kind_BIGINT in HA1 as ->.
      destruct (validPercentileType A2) eqn:Hvalid; simpl; [|discriminate].
      destruct (elementTypeOfInput inputType) as [T|] eqn:HT; [|discriminate].
      intros [= <-]. exists inputType, A2, T, true, false. auto.
    + destruct (TypeKind.eqb (kind A2) TypeKind.DOUBLE) eqn:HA2; simpl;
        [|discriminate].
      apply kind_DOUBLE in HA2 as ->.
      destruct (validPercentileType A1) eqn:Hvalid; simpl; [|discriminate].
      destruct (elementTypeOfInput inputType) as [T|] eqn:HT; [|discriminate].
      intros [= <-]. exists inputType, A1, T, false, true. auto.
  - destruct (TypeKind.eqb (kind A1) TypeKind.BIGINT) eqn:HA1; simpl;
      [|discriminate].
    apply kind_BIGINT in HA1 as ->.
    destruct (TypeKind.eqb (kind A3) TypeKind.DOUBLE) eqn:HA3; simpl;
      [|discriminate].
    apply kind_DOUBLE in HA3 as ->.
    destruct (validPercentileType A2) eqn:Hvalid; simpl; [|discriminate].
    destruct (elementTypeOfInput inputType) as [T|] eqn:HT; [|discriminate].
    intros [= <-]. exists inputType, A2, T, true, true. auto.
  - destruct (TypeKind.eqb (kind A1) TypeKind.BIGINT); simpl; discriminate.
Qed.

Lemma createAggregate_raw_accepts (step : Step.t) (resultType : TypePtr)
    (fixedRandomSeed : option N) (inputType percentileType : TypePtr)
    (T : ElementType) (hasWeight hasAccuracy : bool) :
  isRawInput step = true ->
  elementTypeOfInput inputType = Some T ->
  validPercentileType percentileType = true ->
  createAggregate isRawInput isPartialOutput step
    ([inputType] ++ (if hasWeight then [BIGINT] else [])
       ++ [percentileType] ++ (if hasAccuracy then [DOUBLE] else []))
    resultType fixedRandomSeed
  = Ok {| created_T := T;
          created_hasWeight := hasWeight;
          created_hasAccuracy := hasAccuracy;
          created_resultType := resultType;
          created_fixedRandomSeed := fixedRandomSeed |}.
Proof.
  intros Hraw HT Hvalid. rewrite createAggregate_unfold. unfold elementTypeFor.
  rewrite Hraw. cbv zeta. simpl negb. cbv iota.
  pose proof (validPercentileType_not_BIGINT _ Hvalid) as Hnot.
  destruct hasWeight, hasAccuracy; simpl; rewrite ?Hnot; simpl;
    rewrite Hvalid, ?HT; simpl; rewrite ?HT; reflexivity.
Qed.

Lemma createAggregate_raw_rejects (step : Step.t) (argTypes : list TypePtr)
    (resultType : TypePtr) (fixedRandomSeed : option N) (e : VeloxError) :
  isRawInput step = true ->
  createAggregate isRawInput isPartialOutput step argTypes resultType
    fixedRandomSeed = Failed e ->
  exists message, e = UserError message.
Proof.
  intros Hraw. rewrite createAggregate_unfold. unfold elementTypeFor.
  rewrite Hraw. cbv zeta. simpl negb. cbv iota.
  destruct (checkArgumentTypes true _ _ argTypes) as [[]|e'] eqn:Hcheck; simpl.
  - destruct (typeAt argTypes 0) as [type|e'] eqn:Htype; simpl.
    + destruct (elementTypeOfInput type); [discriminate|].
      intros [= <-]. eauto.
    + exfalso. revert Hcheck Htype. unfold checkArgumentTypes, typeAt.
      destruct argTypes as [|inputType rest]; [|discriminate]. discriminate.
  - intros [= <-]. revert Hcheck. unfold checkArgumentTypes.
    destruct argTypes as [|inputType [|A1 [|A2 [|A3 [|A4 rest]]]]]; simpl;
      try (intros [= <-]; eauto; fail).
    + destruct (TypeKind.eqb (kind A1) TypeKind.BIGINT); simpl;
        [intros [= <-]; eauto|].
      destruct (validPercentileType A1); simpl; [discriminate|].
      intros [= <-]. eauto.
    + destruct (TypeKind.eqb (kind A1) TypeKind.BIGINT); simpl.
      * destruct (validPercentileType A2); simpl; [discriminate|].
        intros [= <-]. eauto.
      * destruct (TypeKind.eqb (kind A2) TypeKind.DOUBLE); simpl;
          [|intros [= <-]; eauto].
        destruct (validPercentileType A1); simpl; [discriminate|].
        intros [= <-]. eauto.
    + destruct (TypeKind.eqb (kind A1) TypeKind.BIGINT); simpl;
        [|intros [= <-]; eauto].
      destruct (TypeKind.eqb (kind A3) TypeKind.DOUBLE); simpl;
        [|intros [= <-]; eauto].
      destruct (validPercentileType A2); simpl; [discriminate|].
      intros [= <-]. eauto.
    + destruct (TypeKind.eqb (kind A1) TypeKind.BIGINT); simpl;
        intros [= <-]; eauto.
Qed.

(** In a raw-input step the factory accepts exactly four shapes of
    argument lists, value and percentile with an optional weight before
    and an optional accuracy after the percentile, over the six numeric
    input types; the flags and the element type of the operator follow
    the shape, and every rejection is a user error. *)
Theorem createAggregate_raw_input (step : Step.t) (argTypes : list TypePtr)
    (resultType : TypePtr) (fixedRandomSeed : option N) :
  isRawInput step = true ->
  (forall created,
     createAggregate isRawInput isPartialOutput step argTypes resultType
       fixedRandomSeed = Ok created
     <-> exists (inputType percentileType : TypePtr) (T : ElementType)
           (hasWeight hasAccuracy : bool),
           elementTypeOfInput inputType = Some T
           /\ validPercentileType percentileType = true
           /\ argTypes
              = [inputType] ++ (if hasWeight then [BIGINT] else [])
                  ++ [percentileType] ++ (if hasAccuracy then [DOUBLE] else [])
           /\ created = {| created_T := T;
                           created_hasWeight := hasWeight;
                           created_hasAccuracy := hasAccuracy;
                           created_resultType := resultType;
                           created_fixedRandomSeed := fixedRandomSeed |})
  /\ (forall e,
        createAggregate isRawInput isPartialOutput step argTypes resultType
          fixedRandomSeed = Failed e ->
        exists message, e = UserError message).
Proof.
  intros Hraw. split.
  - intros created. split.
    + apply createAggregate_raw_shape. exact Hraw.
    + intros (inputType & percentileType & T & hasWeight & hasAccuracy
              & HT & Hvalid & -> & ->).
      apply createAggregate_raw_accepts; assumption.
  - intros e. apply createAggregate_raw_rejects. exact Hraw.
Qed.

(** In a step that reads intermediate input the factory accepts exactly
    one argument of a row type; the operator has neither weight nor
    accuracy, and its element type is that of the row's minimum-value
    field when the step writes partial output, else that of the result
    type, or of its elements when the result is an array. *)
Theorem createAggregate_intermediate_input (step : Step.t)
    (argTypes : list TypePtr) (resultType : TypePtr)
    (fixedRandomSeed : option N) (created : CreatedAggregate) :
  isRawInput step = false ->
  createAggregate isRawInput isPartialOutput step argTypes resultType
    fixedRandomSeed = Ok created
  <-> exists (children : list TypePtr) (type : TypePtr) (T : ElementType),
        argTypes = [ROW children]
        /\ (if isPartialOutput step then children !! kMinValue = Some type
            else type = match resultType with
                        | ARRAY elementType => elementType
                        | _ => resultType
                        end)
        /\ elementTypeOfInput type = Some T
        /\ created = {| created_T := T;
                        created_hasWeight := false;
                        created_hasAccuracy := false;
                        created_resultType := resultType;
                        created_fixedRandomSeed := fixedRandomSeed |}.
Proof.
  intros Hraw. rewrite createAggregate_unfold. unfold elementTypeFor.
  rewrite Hraw. cbv zeta. simpl negb.
  assert (Hselect : (if isArrayType resultType then elementTypeOf resultType
                     else Ok resultType)
                    = Ok match resultType with
                         | ARRAY elementType => elementType
                         | _ => resultType
                         end)
    by (destruct resultType; reflexivity).
  split.
  - destruct argTypes as [|partialType [|A1 rest]]; simpl; try discriminate.
    destruct partialType; simpl; try discriminate.
    destruct (isPartialOutput step); simpl.
    + destruct (children !! kMinValue) as [type|] eqn:Hchild; simpl;
        [|discriminate].
      destruct (elementTypeOfInput type) as [T|] eqn:HT; [|discriminate].
      intros [= <-]. exists children, type, T. auto.
    + rewrite Hselect. simpl.
      destruct (elementTypeOfInput _) as [T|] eqn:HT; [|discriminate].
      intros [= <-]. eexists children, _, T. auto.
  - intros (children & type & T & -> & Htype & HT & ->). simpl.
    destruct (isPartialOutput step); simpl.
    + rewrite Htype. simpl. rewrite HT. reflexivity.
    + subst type. rewrite Hselect. simpl. rewrite HT. reflexivity.
Qed.

(** The element type is carried through the steps: what a raw-input
    step accepts over an input type, a later step accepts over the
    intermediate row type of this input type, with the same element
    type, whether it writes partial output again or the final result,
    the input type itself or an array of it. *)
Theorem createAggregate_element_type_carried (rawStep laterStep : Step.t)
    (argTypes : list TypePtr) (resultType resultType' : TypePtr)
    (fixedRandomSeed : option N) (created : CreatedAggregate) :
  isRawInput rawStep = true ->
  isRawInput laterStep = false ->
  createAggregate isRawInput isPartialOutput rawStep argTypes resultType
    fixedRandomSeed = Ok created ->
  exists inputType,
    argTypes !! 0%nat = Some inputType
    /\ (isPartialOutput laterStep = true
        \/ resultType' = inputType \/ resultType' = ARRAY inputType ->
        createAggregate isRawInput isPartialOutput laterStep
          [intermediateTypeOf inputType] resultType' fixedRandomSeed
        = Ok {| created_T := created_T created;
                created_hasWeight := false;
                created_hasAccuracy := false;
                created_resultType := resultType';
                created_fixedRandomSeed := fixedRandomSeed |}).
Proof.
  intros Hraw Hlater Hcreated.
  destruct (createAggregate_raw_shape _ _ _ _ _ Hraw Hcreated)
    as (inputType & percentileType & T & hasWeight & hasAccuracy
        & HT & _ & -> & ->).
  exists inputType. split; [reflexivity|]. simpl.
  rewrite createAggregate_unfold. unfold elementTypeFor.
  rewrite Hlater. cbv zeta. simpl negb. simpl.
  intros Hresult. destruct (isPartialOutput laterStep); simpl.
  - rewrite HT. reflexivity.
  - destruct Hresult as [Hpartial|[-> | ->]]; [discriminate| |].
    + destruct inputType; try discriminate HT; injection HT as <-; reflexivity.
    + simpl. rewrite HT. reflexivity.
Qed.

(** The factory and the registered signatures agree on raw input: an
    argument list is accepted exactly when a registered signature spells
    its types; the intermediate type of such a signature is the row type
    of the list's input type, and its return type is the input type, or
    an array of it when a percentile array is among the arguments. *)
Theorem registeredSignatures_match_createAggregate (step : Step.t)
    (argTypes : list TypePtr) (resultType : TypePtr)
    (fixedRandomSeed : option N) :
  isRawInput step = true ->
  ((exists created,
      createAggregate isRawInput isPartialOutput step argTypes resultType
        fixedRandomSeed = Ok created)
   <-> exists signature,
         In signature registeredSignatures
         /\ sig_argumentTypes signature = map typeSignature argTypes)
  /\ (forall signature inputType,
        In signature registeredSignatures ->
        sig_argumentTypes signature = map typeSignature argTypes ->
        argTypes !! 0%nat = Some inputType ->
        sig_intermediateType signature
        = typeSignature (intermediateTypeOf inputType)
        /\ sig_returnType signature
           = typeSignature (if existsb isArrayType argTypes
                            then ARRAY inputType else inputType)).
Proof.
  intros Hraw. split; [split|].
  - intros [created Hcreated].
    destruct (createAggregate_raw_shape _ _ _ _ _ Hraw Hcreated)
      as (inputType & percentileType & T & hasWeight & hasAccuracy
          & HT & Hvalid & -> & _).
    apply registeredSignatures_arguments.
    apply validPercentileType_spec in Hvalid as [->| ->];
      destruct inputType; try discriminate HT;
        destruct hasWeight, hasAccuracy;
          vm_compute; repeat (first [left; reflexivity | right]).
  - intros (signature & Hin & Harguments).
    vm_compute in Hin.
    repeat (destruct Hin as [Hin|Hin];
            [subst signature; spelled_arguments Harguments argTypes;
             rewrite createAggregate_unfold; unfold elementTypeFor;
             rewrite Hraw; simpl; eexists; reflexivity|]).
    contradiction.
  - intros signature inputType Hin Harguments Hfirst.
    vm_compute in Hin.
    repeat (destruct Hin as [Hin|Hin];
            [subst signature; spelled_arguments Harguments argTypes;
             injection Hfirst as <-; split; reflexivity|]).
    contradiction.
Qed.

End FactoryFacts.

(** ** The factory on sample argument lists *)

Lemma createAggregate_raw_witness :
  createAggregate Examples.isRawInput Examples.isPartialOutput Step.kSingle
    [BIGINT; BIGINT; ARRAY DOUBLE; DOUBLE] (ARRAY BIGINT) None
  = Ok {| created_T := int64_t;
          created_hasWeight := true;
          created_hasAccuracy := true;
          created_resultType := ARRAY BIGINT;
          created_fixedRandomSeed := None |}
  /\ isUserError
       (createAggregate Examples.isRawInput Examples.isPartialOutput Step.kSingle
          [BIGINT; BIGINT] BIGINT None) = true.
Proof.
  split.
  - destruct (createAggregate_raw_input Examples.isRawInput
                Examples.isPartialOutput Step.kSingle
                [BIGINT; BIGINT; ARRAY DOUBLE; DOUBLE] (ARRAY BIGINT) None eq_refl)
      as [Haccepted _].
    apply Haccepted. exists BIGINT, (ARRAY DOUBLE), int64_t, true, true.
    split; [reflexivity|]. split; [reflexivity|]. split; reflexivity.
  - destruct (createAggregate_raw_input Examples.isRawInput
                Examples.isPartialOutput Step.kSingle
                [BIGINT; BIGINT] BIGINT None eq_refl)
      as [_ Hrejected].
    destruct (createAggregate Examples.isRawInput Examples.isPartialOutput
                Step.kSingle [BIGINT; BIGINT] BIGINT None) as [created|e] eqn:Hcall.
    + vm_compute in Hcall. discriminate Hcall.
    + destruct (Hrejected e eq_refl) as [message ->]. reflexivity.
Defined.

Lemma createAggregate_intermediate_witness :
  createAggregate Examples.isRawInput Examples.isPartialOutput Step.kFinal
    [intermediateTypeOf REAL] (ARRAY REAL) Examples.seed
  = Ok {| created_T := float_t;
          created_hasWeight := false;
          created_hasAccuracy := false;
          created_resultType := ARRAY REAL;
          created_fixedRandomSeed := Examples.seed |}.
Proof.
  apply (createAggregate_intermediate_input Examples.isRawInput
           Examples.isPartialOutput Step.kFinal); [reflexivity|].
  eexists _, REAL, float_t.
  split; [reflexivity|]. split; [reflexivity|]. split; reflexivity.
Defined.

Lemma createAggregate_carried_witness :
  createAggregate Examples.isRawInput Examples.isPartialOutput Step.kFinal
    [intermediateTypeOf DOUBLE] (ARRAY DOUBLE) None
  = Ok {| created_T := double_t;
          created_hasWeight := false;
          created_hasAccuracy := false;
          created_resultType := ARRAY DOUBLE;
          created_fixedRandomSeed := None |}.
Proof.
  destruct (createAggregate_element_type_carried Examples.isRawInput
              Examples.isPartialOutput Step.kPartial Step.kFinal
              [DOUBLE; ARRAY DOUBLE] (intermediateTypeOf DOUBLE) (ARRAY DOUBLE) None
              {| created_T := double_t;
                 created_hasWeight := false;
                 created_hasAccuracy := false;
                 created_resultType := intermediateTypeOf DOUBLE;
                 created_fixedRandomSeed := None |}
              eq_refl eq_refl eq_refl)
    as (inputType & Hfirst & Hlater).
  injection Hfirst as <-. apply Hlater. right. right. reflexivity.
Defined.

Lemma registeredSignatures_witness :
  exists signature,
    In signature registeredSignatures
    /\ sig_argumentTypes signature = ["smallint"; "array(double)"]%string.
Proof.
  destruct (registeredSignatures_match_createAggregate Examples.isRawInput
              Examples.isPartialOutput Step.kSingle [SMALLINT; ARRAY DOUBLE]
              (ARRAY SMALLINT) None eq_refl) as [[Hregistered _] _].
  apply Hregistered. eexists. reflexivity.
Defined.

(** ** Intermediate input *)

Section IntermediateFacts.

Context {T : Type} `{!Inhabited T} {L : kll.Library T}.

Implicit Types (this : ApproxPercentileAggregate T) (store : RowContainer T)
  (input : IntermediateInput T) (s : IntermediateState T).

Lemma carriesSketch_false (check : bool) (group : GroupArgument) input
    (rawItems : list T) (rawLevels : list Z) (row : nat) s :
  carriesSketch input row = false ->
  addIntermediateRow check group input rawItems rawLevels row s = Ok s.
Proof.
  unfold carriesSketch, addIntermediateRow.
  destruct (input_isNullAt input row); [reflexivity|]. simpl.
  destruct (simple_isNullAt (input_percentileIsArray input) (input_index input row));
    [reflexivity | discriminate].
Qed.

Lemma carriesSketch_true input (row : nat) :
  carriesSketch input row = true ->
  input_isNullAt input row = false
  /\ simple_isNullAt (input_percentileIsArray input) (input_index input row) = false.
Proof.
  unfold carriesSketch.
  destruct (input_isNullAt input row); [discriminate|].
  destruct (simple_isNullAt _ _); [discriminate | auto].
Qed.

Lemma initRawAccumulator_withAccuracy this (group : nat) store
    (accumulator : KllSketchAccumulator T) :
  store !! group = Some accumulator ->
  initRawAccumulator this group store
  = Ok (<[group := withAccuracy this accumulator]> store).
Proof. apply initRawAccumulator_Ok. Qed.

(** A successful step over several groups, on a row that carries a
    sketch. *)
Lemma groupsRow_Ok (check : bool) (groups : list nat) input
    (rawItems : list T) (rawLevels : list Z) (row : nat) s s' :
  carriesSketch input row = true ->
  addIntermediateRow check (Groups groups) input rawItems rawLevels row s = Ok s' ->
  exists this' group accumulator,
    resolvedBy check input row s this'
    /\ groups !! row = Some group
    /\ state_store s !! group = Some accumulator
    /\ (check = true -> sketchFieldIsNull input (input_index input row) = false)
    /\ s' = {| state_this := this';
               state_store :=
                 <[group := appendView
                              (viewAt input rawItems rawLevels (input_index input row))
                              (withAccuracy this' accumulator)]> (state_store s);
               state_accumulator := Some group;
               state_views := state_views s |}.
Proof.
  intros [Hrow Hflag]%carriesSketch_true.
  unfold addIntermediateRow, resolvedBy. rewrite Hrow, Hflag.
  set (resolved := match state_accumulator s with None => _ | Some _ => _ end).
  destruct resolved as [this'|e] eqn:Hresolved; simpl; [|discriminate].
  unfold groupAt. destruct (groups !! row) as [group|]; simpl; [|discriminate].
  destruct (state_store s !! group) as [accumulator|] eqn:Hacc.
  2:{ destruct (initRawAccumulator_Failed this' group _ Hacc) as [e ->].
      discriminate. }
  rewrite (initRawAccumulator_withAccuracy this' group _ accumulator Hacc). simpl.
  assert (Hchecked : (if check
                      then VELOX_USER_CHECK
                             (negb (sketchFieldIsNull input (input_index input row)))
                             "!(k->isNullAt(i) || ... || levels->isNullAt(i))"
                      else Ok tt) = Ok tt
                     \/ exists e, (if check
                                   then VELOX_USER_CHECK
                                          (negb (sketchFieldIsNull input
                                                   (input_index input row)))
                                          "!(k->isNullAt(i) || ... || levels->isNullAt(i))"
                                   else Ok tt) = Failed e).
  { destruct check; [|auto].
    destruct (sketchFieldIsNull input (input_index input row)); simpl; eauto. }
  destruct Hchecked as [Hchecked|[e Hchecked]]; rewrite Hchecked; simpl;
    [|discriminate].
  unfold value. rewrite list_lookup_insert_eq by (apply lookup_lt_Some in Hacc; lia).
  simpl. rewrite list_insert_insert_eq. intros [= <-].
  exists this', group, accumulator.
  split.
  { subst resolved. destruct (state_accumulator s); [|exact Hresolved].
    injection Hresolved as <-. reflexivity. }
  split; [reflexivity|]. split; [exact Hacc|]. split; [|reflexivity].
  intros ->. simpl in Hchecked.
  destruct (sketchFieldIsNull input (input_index input row)); [discriminate|].
  reflexivity.
Qed.

Lemma groupsRows_Ok (check : bool) (groups : list nat) input
    (rawItems : list T) (rawLevels : list Z) (rows : list nat) :
  forall s s',
    applyToSelected rows
      (addIntermediateRow check (Groups groups) input rawItems rawLevels) s
    = Ok s' ->
    resolvedByFirst check input rows s (state_this s')
    /\ (List.find (carriesSketch input) rows = None -> s' = s)
    /\ state_views s' = state_views s
    /\ length (state_store s') = length (state_store s)
    /\ (check = true -> sketchFieldsPresent input rows)
    /\ forall group accumulator,
         state_store s !! group = Some accumulator ->
         state_store s' !! group
         = Some (appendSketchRows input rawItems rawLevels (state_this s')
                   (sketchRowsOfGroup input groups rows group) accumulator).
Proof.
  induction rows as [|row rows IH]; intros s s'; simpl.
  - intros [= <-]. unfold resolvedByFirst. simpl.
    split; [destruct (state_accumulator s); reflexivity|].
    split; [reflexivity|]. split; [reflexivity|]. split; [reflexivity|].
    split; [intros _; constructor|]. intros group accumulator Hacc. exact Hacc.
  - destruct (carriesSketch input row) eqn:Hcarries.
    + destruct (addIntermediateRow check (Groups groups) input rawItems rawLevels
                  row s) as [s1|e] eqn:Hrow; simpl; [|discriminate].
      intros Hrest.
      destruct (groupsRow_Ok check groups input rawItems rawLevels row s s1
                  Hcarries Hrow)
        as (this1 & group1 & accumulator1 & Hresolved & Hgroup & Hacc1 & Hfields
            & ->).
      destruct (IH _ _ Hrest) as (Hthis & _ & Hviews & Hlen & Hpresent & Hgroups).
      unfold resolvedByFirst in Hthis. simpl in Hthis. rewrite Hthis.
      split.
      { unfold resolvedByFirst. cbn [List.find]. rewrite ?Hcarries.
        unfold resolvedBy in Hresolved.
        destruct (state_accumulator s); exact Hresolved. }
      split; [discriminate|]. split; [exact Hviews|].
      split; [rewrite Hlen; simpl; apply length_insert|].
      split.
      { intros Hcheck. constructor; [intros _; apply Hfields; exact Hcheck|].
        apply Hpresent. exact Hcheck. }
      intros group accumulator Hacc. unfold sketchRowsOfGroup.
      cbn [List.filter]. rewrite ?Hcarries, Hgroup. cbn [andb].
      destruct (Nat.eqb_spec group1 group) as [->|Hne].
      * simpl. rewrite Hthis in Hgroups. apply Hgroups. simpl.
        rewrite Hacc1 in Hacc. injection Hacc as <-.
        apply list_lookup_insert_eq. apply lookup_lt_Some in Hacc1. exact Hacc1.
      * rewrite Hthis in Hgroups. apply Hgroups. simpl.
        rewrite list_lookup_insert_ne by exact Hne. exact Hacc.
    + rewrite (carriesSketch_false check (Groups groups) input rawItems rawLevels
                 row s Hcarries). simpl.
      intros Hrest.
      destruct (IH _ _ Hrest) as (Hthis & Hnone & Hviews & Hlen & Hpresent & Hgroups).
      split.
      { unfold resolvedByFirst in *. cbn [List.find]. rewrite ?Hcarries.
        exact Hthis. }
      split; [cbn [List.find]; rewrite ?Hcarries; exact Hnone|].
      split; [exact Hviews|]. split; [exact Hlen|].
      split.
      { intros Hcheck. constructor; [rewrite Hcarries; discriminate|].
        apply Hpresent. exact Hcheck. }
      intros group accumulator Hacc. unfold sketchRowsOfGroup.
      cbn [List.filter]. rewrite ?Hcarries. cbn [andb]. apply Hgroups. exact Hacc.
Qed.

(** A successful step for a single group, on a row that carries a
    sketch. *)
Lemma singleRow_Ok (check : bool) (group : nat) input
    (rawItems : list T) (rawLevels : list Z) (row : nat) s s' :
  carriesSketch input row = true ->
  addIntermediateRow check (SingleGroup group) input rawItems rawLevels row s
  = Ok s' ->
  exists this',
    resolvedBy check input row s this'
    /\ (check = true -> sketchFieldIsNull input (input_index input row) = false)
    /\ match state_accumulator s with
       | Some accumulator =>
           s' = {| state_this := this';
                   state_store := state_store s;
                   state_accumulator := Some accumulator;
                   state_views :=
                     state_views s
                     ++ [viewAt input rawItems rawLevels (input_index input row)] |}
       | None =>
           exists accumulator,
             state_store s !! group = Some accumulator
             /\ s' = {| state_this := this';
                        state_store :=
                          <[group := withAccuracy this' accumulator]> (state_store s);
                        state_accumulator := Some group;
                        state_views :=
                          state_views s
                          ++ [viewAt input rawItems rawLevels
                                (input_index input row)] |}
       end.
Proof.
  intros [Hrow Hflag]%carriesSketch_true.
  unfold addIntermediateRow, resolvedBy. rewrite Hrow, Hflag.
  assert (Hchecked : forall A (k : Result A) (r : A),
             (_ ← (if check
                   then VELOX_USER_CHECK
                          (negb (sketchFieldIsNull input (input_index input row)))
                          "!(k->isNullAt(i) || ... || levels->isNullAt(i))"
                   else Ok tt); k) = Ok r ->
             k = Ok r
             /\ (check = true ->
                 sketchFieldIsNull input (input_index input row) = false)).
  { intros A k r. destruct check; simpl; [|intros ->; split; [reflexivity|discriminate]].
    destruct (sketchFieldIsNull input (input_index input row)); simpl;
      [discriminate|]. auto. }
  destruct (state_accumulator s) as [accumulator|]; simpl.
  - intros Hstep. apply Hchecked in Hstep as [[= <-] Hfields].
    exists (state_this s). auto.
  - destruct (resolveIntermediateRow check input (input_index input row)
                (state_this s)) as [this'|e]; simpl; [|discriminate].
    destruct (state_store s !! group) as [accumulator|] eqn:Hacc.
    2:{ destruct (initRawAccumulator_Failed this' group _ Hacc) as [e ->].
        discriminate. }
    rewrite (initRawAccumulator_withAccuracy this' group _ accumulator Hacc). simpl.
    intros Hstep. apply Hchecked in Hstep as [[= <-] Hfields].
    exists this'. split; [reflexivity|]. split; [exact Hfields|].
    exists accumulator. auto.
Qed.

Lemma singleRows_Ok (check : bool) (group : nat) input
    (rawItems : list T) (rawLevels : list Z) (rows : list nat) :
  forall s s',
    applyToSelected rows
      (addIntermediateRow check (SingleGroup group) input rawItems rawLevels) s
    = Ok s' ->
    resolvedByFirst check input rows s (state_this s')
    /\ (List.find (carriesSketch input) rows = None -> s' = s)
    /\ state_views s'
       = state_views s
         ++ map (fun row => viewAt input rawItems rawLevels (input_index input row))
              (List.filter (carriesSketch input) rows)
    /\ (check = true -> sketchFieldsPresent input rows)
    /\ match state_accumulator s with
       | Some accumulator =>
           state_store s' = state_store s
           /\ state_accumulator s' = Some accumulator
       | None =>
           List.find (carriesSketch input) rows <> None ->
           exists accumulator,
             state_store s !! group = Some accumulator
             /\ state_store s'
                = <[group := withAccuracy (state_this s') accumulator]> (state_store s)
             /\ state_accumulator s' = Some group
       end.
Proof.
  induction rows as [|row rows IH]; intros s s'; simpl.
  - intros [= <-]. unfold resolvedByFirst. simpl.
    split; [destruct (state_accumulator s); reflexivity|].
    split; [reflexivity|]. split; [rewrite app_nil_r; reflexivity|].
    split; [intros _; constructor|].
    destruct (state_accumulator s); [auto | congruence].
  - destruct (carriesSketch input row) eqn:Hcarries.
    + destruct (addIntermediateRow check (SingleGroup group) input rawItems
                  rawLevels row s) as [s1|e] eqn:Hrow; simpl; [|discriminate].
      intros Hrest.
      destruct (singleRow_Ok check group input rawItems rawLevels row s s1
                  Hcarries Hrow) as (this1 & Hresolved & Hfields & Hs1).
      destruct (IH _ _ Hrest) as (Hthis & _ & Hviews & Hpresent & Hstore).
      assert (Hthis1 : state_this s' = this1 /\ state_accumulator s1 <> None
                       /\ state_this s1 = this1
                       /\ state_views s1
                          = state_views s
                            ++ [viewAt input rawItems rawLevels
                                  (input_index input row)]).
      { unfold resolvedByFirst in Hthis.
        destruct (state_accumulator s).
        - subst s1. simpl in *. auto.
        - destruct Hs1 as (accumulator & _ & ->). simpl in *. auto. }
      destruct Hthis1 as (Hthis' & Hset & Hthis1 & Hviews1).
      split.
      { unfold resolvedByFirst. cbn [List.find]. rewrite ?Hcarries, Hthis'.
        unfold resolvedBy in Hresolved.
        destruct (state_accumulator s); exact Hresolved. }
      split; [discriminate|].
      split; [rewrite Hviews, Hviews1, <- app_assoc; reflexivity|].
      split.
      { intros Hcheck. constructor; [intros _; apply Hfields; exact Hcheck|].
        apply Hpresent. exact Hcheck. }
      destruct (state_accumulator s) as [accumulator|].
      * subst s1. simpl in Hstore. exact Hstore.
      * intros _. destruct Hs1 as (accumulator & Hacc & ->). simpl in Hstore.
        destruct Hstore as [Hstore' Haccumulator'].
        exists accumulator. rewrite Hthis'. auto.
    + rewrite (carriesSketch_false check (SingleGroup group) input rawItems
                 rawLevels row s Hcarries). simpl.
      intros Hrest.
      destruct (IH _ _ Hrest) as (Hthis & Hnone & Hviews & Hpresent & Hstore).
      split.
      { unfold resolvedByFirst in *. cbn [List.find]. rewrite ?Hcarries.
        exact Hthis. }
      split; [exact Hnone|]. split; [exact Hviews|].
      split.
      { intros Hcheck. constructor; [rewrite Hcarries; discriminate|].
        apply Hpresent. exact Hcheck. }
      exact Hstore.
Qed.

Lemma find_None_filter {A} (f : A -> bool) (l : list A) :
  List.find f l = None <-> List.filter f l = [].
Proof.
  induction l as [|x l IH]; simpl; [tauto|].
  destruct (f x); [split; discriminate | exact IH].
Qed.

(** A successful call went through the checks on the argument, the row
    walk and the final append. *)
Lemma addIntermediateImpl_Ok (check : bool) (group : GroupArgument)
    (rows : SelectivityVector) input this store this' store' :
  addIntermediateImpl check group rows [input] this store = Ok (this', store') ->
  exists rawItems rawLevels s,
    reader_rawValues (input_items input) = Some rawItems
    /\ reader_rawValues (input_levels input) = Some rawLevels
    /\ input_isRowVector input = true
    /\ (check = true -> checkEncodings input = Ok tt)
    /\ applyToSelected rows
         (addIntermediateRow check group input rawItems rawLevels)
         {| state_this := this;
            state_store := store;
            state_accumulator := None;
            state_views := [] |} = Ok s
    /\ appendCollectedViews group s = Ok store'
    /\ state_this s = this'.
Proof.
  unfold addIntermediateImpl.
  assert (Hprelude : (if check
                      then _ ← VELOX_USER_CHECK (input_isRowVector input) "rowVec";
                           checkEncodings input
                      else VELOX_CHECK (input_isRowVector input) "rowVec") = Ok tt ->
                     input_isRowVector input = true
                     /\ (check = true -> checkEncodings input = Ok tt)).
  { destruct check, (input_isRowVector input); simpl; try discriminate; auto.
    intros _. split; [reflexivity | discriminate]. }
  destruct (if check then _ else _) as [[]|e]; simpl; [|discriminate].
  destruct (Hprelude eq_refl) as [Hrow Hencodings].
  unfold rawValuesOf.
  destruct (reader_rawValues (input_items input)) as [rawItems|]; simpl;
    [|destruct check; discriminate].
  destruct (reader_rawValues (input_levels input)) as [rawLevels|]; simpl;
    [|destruct check; discriminate].
  destruct (applyToSelected rows _ _) as [s|e] eqn:Hwalk; simpl; [|discriminate].
  destruct (appendCollectedViews group s) as [store1|e] eqn:Happend; simpl;
    [|discriminate].
  intros [= <- <-]. exists rawItems, rawLevels, s. auto 10.
Qed.

Lemma addIntermediate_Impl (validate : bool) (group : GroupArgument)
    (rows : SelectivityVector) (args : list (IntermediateInput T)) this store :
  addIntermediate validate group rows args this store
  = addIntermediateImpl validate group rows args this store.
Proof. unfold addIntermediate. destruct validate; reflexivity. Qed.

(** The operator's constants after a call over intermediate input are
    those the first selected row that carries a sketch resolves:
    [percentiles_] and [accuracy_] are checked or bound on this row, and
    the percentiles and accuracies of the rows after it are not read.
    Without such a row the call changes nothing. *)
Theorem addIntermediate_resolves_on_first_sketch_row (validate : bool)
    (group : GroupArgument) (rows : SelectivityVector) input this store
    this' store' :
  addIntermediate validate group rows [input] this store = Ok (this', store') ->
  match List.find (carriesSketch input) rows with
  | Some row =>
      resolveIntermediateRow validate input (input_index input row) this
      = Ok this'
  | None => this' = this /\ store' = store
  end.
Proof.
  rewrite addIntermediate_Impl. intros Hcall.
  destruct (addIntermediateImpl_Ok _ _ _ _ _ _ _ _ Hcall)
    as (rawItems & rawLevels & s & _ & _ & _ & _ & Hwalk & Happend & <-).
  destruct group as [group|groups].
  - destruct (singleRows_Ok _ _ _ _ _ _ _ _ Hwalk) as (Hthis & Hnone & _).
    unfold resolvedByFirst in Hthis. simpl in Hthis.
    destruct (List.find (carriesSketch input) rows) as [row|]; [exact Hthis|].
    rewrite (Hnone eq_refl) in Happend. simpl in Happend.
    injection Happend as <-. rewrite (Hnone eq_refl). auto.
  - destruct (groupsRows_Ok _ _ _ _ _ _ _ _ Hwalk) as (Hthis & Hnone & _).
    unfold resolvedByFirst in Hthis. simpl in Hthis.
    destruct (List.find (carriesSketch input) rows) as [row|]; [exact Hthis|].
    rewrite (Hnone eq_refl) in Happend. simpl in Happend.
    injection Happend as <-. rewrite (Hnone eq_refl). auto.
Qed.

(** Over several groups, a group's accumulator after the call is the
    accumulator before with the views of the group's own sketch rows
    appended one by one in row order, the resolved accuracy applied
    before each; null rows and the rows of other groups leave it alone,
    and the row container keeps its size. *)
Theorem addIntermediate_appends_each_group_its_views (validate : bool)
    (groups : list nat) (rows : SelectivityVector) input this store this' store' :
  addIntermediate validate (Groups groups) rows [input] this store
  = Ok (this', store') ->
  exists rawItems rawLevels,
    reader_rawValues (input_items input) = Some rawItems
    /\ reader_rawValues (input_levels input) = Some rawLevels
    /\ length store' = length store
    /\ forall group accumulator,
         store !! group = Some accumulator ->
         store' !! group
         = Some (appendSketchRows input rawItems rawLevels this'
                   (sketchRowsOfGroup input groups rows group) accumulator).
Proof.
  rewrite addIntermediate_Impl. intros Hcall.
  destruct (addIntermediateImpl_Ok _ _ _ _ _ _ _ _ Hcall)
    as (rawItems & rawLevels & s & Hitems & Hlevels & _ & _ & Hwalk & Happend & <-).
  destruct (groupsRows_Ok _ _ _ _ _ _ _ _ Hwalk)
    as (_ & _ & _ & Hlen & _ & Hgroups).
  simpl in Happend. injection Happend as <-.
  exists rawItems, rawLevels. split; [exact Hitems|]. split; [exact Hlevels|].
  split; [exact Hlen|]. exact Hgroups.
Qed.

(** For a single group the views of all sketch rows are collected and
    appended in one call, after the resolved accuracy was applied once;
    when no selected row carries a sketch, neither the operator nor the
    row container changes, a bound accuracy notwithstanding. *)
Theorem addIntermediate_single_group_appends_once (validate : bool)
    (group : nat) (rows : SelectivityVector) input this store this' store' :
  addIntermediate validate (SingleGroup group) rows [input] this store
  = Ok (this', store') ->
  exists rawItems rawLevels,
    reader_rawValues (input_items input) = Some rawItems
    /\ reader_rawValues (input_levels input) = Some rawLevels
    /\ match List.filter (carriesSketch input) rows with
       | [] => this' = this /\ store' = store
       | sketchRows =>
           exists accumulator,
             store !! group = Some accumulator
             /\ store'
                = <[group :=
                      appendViews
                        (map (fun row =>
                                viewAt input rawItems rawLevels
                                  (input_index input row))
                           sketchRows)
                        (withAccuracy this' accumulator)]> store
       end.
Proof.
  rewrite addIntermediate_Impl. intros Hcall.
  destruct (addIntermediateImpl_Ok _ _ _ _ _ _ _ _ Hcall)
    as (rawItems & rawLevels & s & Hitems & Hlevels & _ & _ & Hwalk & Happend & <-).
  destruct (singleRows_Ok _ _ _ _ _ _ _ _ Hwalk)
    as (_ & Hnone & Hviews & _ & Hstore).
  simpl in Hviews, Hstore.
  exists rawItems, rawLevels. split; [exact Hitems|]. split; [exact Hlevels|].
  destruct (List.filter (carriesSketch input) rows) as [|row sketchRows] eqn:Hfilter.
  - apply find_None_filter in Hfilter. rewrite (Hnone Hfilter) in Happend |- *.
    simpl in Happend. injection Happend as <-. auto.
  - destruct Hstore as (accumulator & Hacc & Hstore & Haccumulator).
    { intros Hfind. apply find_None_filter in Hfind. congruence. }
    exists accumulator. split; [exact Hacc|].
    unfold appendCollectedViews in Happend.
    rewrite Hviews, Haccumulator in Happend. simpl in Happend.
    unfold value in Happend. rewrite Hstore in Happend.
    rewrite list_lookup_insert_eq in Happend by (apply lookup_lt_Some in Hacc; lia).
    simpl in Happend. rewrite list_insert_insert_eq in Happend.
    injection Happend as <-. reflexivity.
Qed.

Lemma user_check_Failed (condition : bool) (message : string) (e : VeloxError) :
  VELOX_USER_CHECK condition message = Failed e ->
  exists message, e = UserError message.
Proof. destruct condition; simpl; [discriminate|]. intros [= <-]. eauto. Qed.

Lemma user_check_bind_Failed {A} (condition : bool) (message : string)
    (k : Result A) (e : VeloxError) :
  (_ ← VELOX_USER_CHECK condition message; k) = Failed e ->
  (exists message, e = UserError message) \/ k = Failed e.
Proof. destruct condition; simpl; [auto|]. intros [= <-]. eauto. Qed.

Lemma checkEncodings_Failed input (e : VeloxError) :
  checkEncodings input = Failed e -> exists message, e = UserError message.
Proof.
  unfold checkEncodings.
  intros [Huser|Hrest]%user_check_bind_Failed; [exact Huser|].
  apply user_check_bind_Failed in Hrest as [Huser|Hrest]; [exact Huser|].
  exact (user_check_Failed _ _ _ Hrest).
Qed.

Lemma checkEncodings_Ok input :
  checkEncodings input = Ok tt ->
  Forall (fun i => input_encoding input i = VectorEncoding.CONSTANT)
    [kPercentiles; kPercentilesIsArray; kAccuracy]
  /\ Forall (fun i => input_encoding input i = VectorEncoding.FLAT)
       [kK; kN; kMinValue; kMaxValue]
  /\ Forall (fun i => input_encoding input i = VectorEncoding.ARRAY)
       [kItems; kLevels].
Proof.
  unfold checkEncodings.
  unfold kPercentiles, kPercentilesIsArray, kAccuracy, kK, kN, kMinValue,
    kMaxValue, kItems, kLevels.
  simpl.
  destruct (input_encoding input 0) eqn:Hchild0; simpl; try discriminate.
  destruct (input_encoding input 1) eqn:Hchild1; simpl; try discriminate.
  destruct (input_encoding input 2) eqn:Hchild2; simpl; try discriminate.
  destruct (input_encoding input 3) eqn:Hchild3; simpl; try discriminate.
  destruct (input_encoding input 4) eqn:Hchild4; simpl; try discriminate.
  destruct (input_encoding input 5) eqn:Hchild5; simpl; try discriminate.
  destruct (input_encoding input 6) eqn:Hchild6; simpl; try discriminate.
  destruct (input_encoding input 7) eqn:Hchild7; simpl; try discriminate.
  destruct (input_encoding input 8) eqn:Hchild8; simpl; try discriminate.
  intros _. split; [repeat (constructor; [assumption|]); constructor|].
  split; repeat (constructor; [assumption|]); constructor.
Qed.

(** The checks [validateIntermediateInputs_] turns on.  The shape of
    the argument is checked before any row is read: an argument that is
    not a row vector with constant, flat and array children where the
    intermediate type has them is refused by a user error, whatever the
    rows and the groups.  Without validation only the row vector is
    asserted, and an argument that is none is refused by an internal
    error.  A validated call that succeeds has seen an argument of this
    shape whose selected sketch rows have no null sketch field. *)
Theorem addIntermediate_validates_input (group : GroupArgument)
    (rows : SelectivityVector) input this store :
  (~ intermediateShape input ->
   exists message,
     addIntermediate true group rows [input] this store
     = Failed (UserError message))
  /\ (input_isRowVector input = false ->
      exists message,
        addIntermediate false group rows [input] this store
        = Failed (RuntimeError message))
  /\ (forall outcome,
        addIntermediate true group rows [input] this store = Ok outcome ->
        intermediateShape input /\ sketchFieldsPresent input rows).
Proof.
  split; [|split].
  - intros Hshape. rewrite addIntermediate_Impl. unfold addIntermediateImpl.
    destruct (input_isRowVector input) eqn:Hrow; simpl; [|eauto].
    destruct (checkEncodings input) as [[]|e] eqn:Hencodings; simpl.
    + exfalso. apply Hshape. split; [exact Hrow|].
      exact (checkEncodings_Ok _ Hencodings).
    + destruct (checkEncodings_Failed _ _ Hencodings) as [message ->]. eauto.
  - intros Hrow. rewrite addIntermediate_Impl. unfold addIntermediateImpl.
    rewrite Hrow. simpl. eauto.
  - intros [this' store'] Hcall. rewrite addIntermediate_Impl in Hcall.
    destruct (addIntermediateImpl_Ok _ _ _ _ _ _ _ _ Hcall)
      as (rawItems & rawLevels & s & _ & _ & Hrow & Hencodings & Hwalk & _ & _).
    split.
    + split; [exact Hrow|]. apply checkEncodings_Ok.
      exact (Hencodings eq_refl).
    + destruct group as [group|groups].
      * destruct (singleRows_Ok _ _ _ _ _ _ _ _ Hwalk) as (_ & _ & _ & Hpresent & _).
        exact (Hpresent eq_refl).
      * destruct (groupsRows_Ok _ _ _ _ _ _ _ _ Hwalk)
          as (_ & _ & _ & _ & Hpresent & _).
        exact (Hpresent eq_refl).
Qed.

End IntermediateFacts.

(** ** Intermediate rows written and read back *)

Section ReadBackFacts.

Context {T : Type} `{!Inhabited T} {L : kll.Library T}.

Implicit Types (this : ApproxPercentileAggregate T) (store : RowContainer T).

Lemma to_uint32_to_int32 (z : Z) : 0 <= z < 2 ^ 32 -> to_uint32 (to_int32 z) = Z.to_N z.
Proof.
  intros Hz. unfold to_uint32, to_int32. f_equal.
  rewrite Zminus_mod_idemp_l. replace (z + 2 ^ 31 - 2 ^ 31) with z by lia.
  apply Z.mod_small. exact Hz.
Qed.

Lemma to_size_t_to_int64 (z : Z) : 0 <= z < 2 ^ 64 -> to_size_t (to_int64 z) = Z.to_N z.
Proof.
  intros Hz. unfold to_size_t, to_int64. f_equal.
  rewrite Zminus_mod_idemp_l. replace (z + 2 ^ 63 - 2 ^ 63) with z by lia.
  apply Z.mod_small. exact Hz.
Qed.

Lemma levels_read_back (levels : list N) :
  Forall (fun level => (level < 2 ^ 32)%N) levels ->
  map to_uint32 (map (fun l => to_int32 (Z.of_N l)) levels) = levels.
Proof.
  induction 1 as [|level levels Hlevel _ IH]; simpl; [reflexivity|].
  rewrite IH, to_uint32_to_int32 by lia. rewrite N2Z.id. reflexivity.
Qed.

(** A range of the raw values that holds [src] reads as [src]. *)
Lemma rangeOf_holds {V} (raw src : list V) (offset : nat) :
  (forall k x, src !! k = Some x -> raw !! (offset + k)%nat = Some x) ->
  rangeOf raw offset (length src) = src.
Proof.
  intros Hholds. unfold rangeOf. apply list_eq. intros k.
  destruct (src !! k) as [x|] eqn:Hk.
  - rewrite lookup_take_lt by (apply lookup_lt_Some in Hk; exact Hk).
    rewrite lookup_drop. apply Hholds. exact Hk.
  - apply lookup_ge_None in Hk. apply lookup_ge_None.
    rewrite length_take. lia.
Qed.

(** A flat child that is set at a row reads not null there, and as
    before elsewhere. *)
Lemma flat_set_nullAt {V} (i k : nat) (x : V) (f : FlatVector V) :
  nullAt (flat_nulls (flat_set i x f)) k
  = if (k =? i)%nat then false else nullAt (flat_nulls f) k.
Proof.
  unfold flat_set. simpl. destruct (flat_nulls f) as [flags|]; simpl.
  - rewrite !nth_lookup. destruct (Nat.eqb_spec k i) as [->|Hne].
    + destruct (decide (i < length flags)%nat) as [Hlt|Hge].
      * rewrite list_lookup_insert_eq by exact Hlt. reflexivity.
      * rewrite (proj2 (lookup_ge_None _ _)); [reflexivity|].
        rewrite length_insert. lia.
    + rewrite list_lookup_insert_ne by congruence. reflexivity.
  - destruct (k =? i)%nat; reflexivity.
Qed.

(** The serialization loop on a flat child that every sketch row sets
    at its own index. *)
Lemma serializeSketches_flat {V} (child : RowVector T -> FlatVector V)
    (field : kll.View T -> V) :
  (forall i v s,
     child (ser_rowResult (serializeSketch i v s))
     = if (kll.view_n v =? 0)%N then child (ser_rowResult s)
       else flat_set i (field v) (child (ser_rowResult s))) ->
  forall (sketches : list (kll.KllSketch StdAllocator)) (i : nat)
    (s : Serialization),
    let f := child (ser_rowResult s) in
    let f' := child (ser_rowResult (serializeSketches sketches i s)) in
    length (flat_values f') = length (flat_values f)
    /\ (forall k, (k < i)%nat ->
          flat_values f' !! k = flat_values f !! k
          /\ nullAt (flat_nulls f') k = nullAt (flat_nulls f) k)
    /\ (forall j sketch,
          sketches !! j = Some sketch ->
          kll.view_n (kll.toView sketch) <> 0%N ->
          (i + j < length (flat_values f))%nat ->
          flat_values f' !! (i + j)%nat = Some (field (kll.toView sketch))
          /\ nullAt (flat_nulls f') (i + j)%nat = false).
Proof.
  intros Hchild. induction sketches as [|sketch sketches IH]; intros i s; simpl.
  - split; [reflexivity|]. split; [auto|].
    intros j sketch Hj. rewrite lookup_nil in Hj. discriminate.
  - destruct (IH (S i) (serializeSketch i (kll.toView sketch) s))
      as (Hvalues & Hbefore & Hat).
    rewrite Hchild in Hvalues, Hbefore, Hat.
    destruct (kll.view_n (kll.toView sketch) =? 0)%N eqn:Hn.
    + split; [exact Hvalues|].
      split; [intros k Hk; apply Hbefore; lia|].
      intros [|j] sketch' Hj Hn' Hlt; simpl in Hj.
      * injection Hj as <-. apply N.eqb_eq in Hn. contradiction.
      * replace (i + S j)%nat with (S i + j)%nat by lia.
        apply (Hat j sketch' Hj Hn'); lia.
    + assert (Hset : forall k,
                 flat_values (flat_set i (field (kll.toView sketch))
                                (child (ser_rowResult s))) !! k
                 = <[i := field (kll.toView sketch)]>
                     (flat_values (child (ser_rowResult s))) !! k)
        by reflexivity.
      assert (Hlen : length (flat_values
                               (flat_set i (field (kll.toView sketch))
                                  (child (ser_rowResult s))))
                     = length (flat_values (child (ser_rowResult s))))
        by (simpl; apply length_insert).
      split; [congruence|]. split.
      { intros k Hk. destruct (Hbefore k) as [Hv Hb]; [lia|].
        rewrite Hv, Hb, Hset, flat_set_nullAt.
        rewrite list_lookup_insert_ne by lia.
        destruct (Nat.eqb_spec k i); [lia | auto]. }
      intros [|j] sketch' Hj Hn' Hlt; simpl in Hj.
      * injection Hj as <-. rewrite Nat.add_0_r in *.
        destruct (Hbefore i) as [Hv Hb]; [lia|].
        rewrite Hv, Hb, Hset, flat_set_nullAt, Nat.eqb_refl.
        rewrite list_lookup_insert_eq by lia. auto.
      * replace (i + S j)%nat with (S i + j)%nat by lia.
        apply (Hat j sketch' Hj Hn'). rewrite Hlen. lia.
Qed.

(** Row by row: what [addIntermediate] reads in a row
    [extractAccumulators] wrote. *)
Lemma extractAccumulators_rows_read_back
    (ensureWritable : nat -> RowVector T -> RowVector T)
    this (p : Percentiles) (groups : list nat) (rowResult : RowVector T) store :
  percentiles_ this = Some p ->
  groupsInContainer groups store = true ->
  Z.of_nat (allItems (compactedViews (fixedRandomSeed_ this) groups store))
  <= int32_max ->
  Z.of_nat (allLevels (compactedViews (fixedRandomSeed_ this) groups store))
  <= int32_max ->
  Forall viewInRange (compactedViews (fixedRandomSeed_ this) groups store) ->
  exists out,
    extractAccumulators ensureWritable groups rowResult this store = Ok (store, out)
    /\ forall i v,
         compactedViews (fixedRandomSeed_ this) groups store !! i = Some v ->
         carriesSketch (readBack out) i = negb (kll.view_n v =? 0)%N
         /\ (kll.view_n v <> 0%N ->
             viewAt (readBack out) (array_elements (child_kItems out))
               (array_elements (child_kLevels out)) i = v).
Proof.
  intros Hp Hin Hitems Hlevels Hrange.
  destruct (extractAccumulators_outcome ensureWritable this groups rowResult store Hin)
    as (sketches & Hviews & Hlen & Hextract).
  rewrite Hextract, Hp. cbv zeta.
  set (views := compactedViews (fixedRandomSeed_ this) groups store) in *.
  rewrite (countItemsAndLevels_total sketches 0 0) by (rewrite ?Hviews; lia).
  rewrite Hviews. simpl fst. simpl snd. rewrite ?Nat.add_0_l, ?Z.add_0_l.
  destruct (Z.leb_spec (Z.of_nat (allItems views)) int32_max) as [_|Hbad]; [|lia].
  eexists. split; [reflexivity|].
  unfold prepareRowResult. rewrite Nat2Z.id.
  match goal with
  | |- context [serializeSketches sketches 0 ?s0] => set (start := s0)
  end.
  destruct (serializeSketches_items sketches 0 start) as [Hitems_child _].
  pose proof (serializeSketches_levels sketches 0 start) as Hlevels_child.
  destruct (serializeSketches_rows sketches 0 start)
    as (_ & Hflag & _ & _ & _ & Hrows).
  destruct (serializeSketches_flat child_kK
              (fun v => to_int32 (Z.of_N (kll.view_k v)))
              ltac:(intros i v s; unfold serializeSketch;
                    destruct (kll.view_n v =? 0)%N; reflexivity)
              sketches 0%nat start) as (_ & _ & HkAt).
  destruct (serializeSketches_flat child_kN
              (fun v => to_int64 (Z.of_N (kll.view_n v)))
              ltac:(intros i v s; unfold serializeSketch;
                    destruct (kll.view_n v =? 0)%N; reflexivity)
              sketches 0%nat start) as (_ & _ & HnAt).
  destruct (serializeSketches_flat child_kMinValue kll.view_minValue
              ltac:(intros i v s; unfold serializeSketch;
                    destruct (kll.view_n v =? 0)%N; reflexivity)
              sketches 0%nat start) as (_ & _ & HminAt).
  destruct (serializeSketches_flat child_kMaxValue kll.view_maxValue
              ltac:(intros i v s; unfold serializeSketch;
                    destruct (kll.view_n v =? 0)%N; reflexivity)
              sketches 0%nat start) as (_ & _ & HmaxAt).
  rewrite Hviews in Hitems_child. rewrite Hviews in Hlevels_child.
  pose proof (itemsSlices_total views) as Hitems_total.
  pose proof (levelsSlices_total views) as Hlevels_total.
  assert (Hlevels_bound :
            ser_levelsCount start
            + Z.of_nat (elementsBefore (levelsSlices views)
                          (length (levelsSlices views))) <= int32_max)
    by (simpl; lia).
  assert (Hlevels_start : 0 <= ser_levelsCount start) by (simpl; lia).
  specialize (Hlevels_child Hlevels_start Hlevels_bound).
  assert (Hviews_len : length views = length groups).
  { rewrite <- Hviews, length_map. exact Hlen. }
  intros i v Hi.
  assert (Hi_lt : (i < length groups)%nat).
  { rewrite <- Hviews_len. apply lookup_lt_Some in Hi. exact Hi. }
  assert (Hsketch : exists sketch,
             sketches !! i = Some sketch /\ kll.toView sketch = v).
  { destruct (sketches !! i) as [sketch|] eqn:Hsk.
    - exists sketch. split; [reflexivity|]. rewrite <- Hviews in Hi.
      rewrite (map_lookup_Some kll.toView sketches i sketch Hsk) in Hi.
      congruence.
    - apply lookup_ge_None in Hsk. lia. }
  destruct Hsketch as (sketch & Hsk & Hv).
  assert (Hnull : nth i (row_nulls (ser_rowResult (serializeSketches sketches 0 start)))
                    false = (kll.view_n v =? 0)%N).
  { apply nth_lookup_Some. rewrite <- Hv.
    apply (Hrows i sketch Hsk). simpl. rewrite length_resize. exact Hi_lt. }
  split.
  { unfold carriesSketch, readBack. cbn [input_isNullAt input_index
      input_percentileIsArray constantAsSimple simple_isNullAt].
    rewrite Hnull, Hflag. simpl. rewrite andb_true_r. reflexivity. }
  intros Hn.
  assert (Hn' : kll.view_n (kll.toView sketch) <> 0%N) by (rewrite Hv; exact Hn).
  apply N.eqb_neq in Hn.
  destruct (Forall_lookup_1 _ _ _ _ Hrange Hi) as (Hk32 & Hn64 & Hl32).
  assert (HitemsAt : itemsSlices views !! i = Some (Some (kll.view_items v))).
  { unfold itemsSlices. rewrite (map_lookup_Some _ views i v Hi), Hn. reflexivity. }
  assert (HlevelsAt : levelsSlices views !! i
                      = Some (Some (map (fun l => to_int32 (Z.of_N l))
                                        (kll.view_levels v)))).
  { unfold levelsSlices. rewrite (map_lookup_Some _ views i v Hi), Hn. reflexivity. }
  destruct (elementsBefore_bound (itemsSlices views) i) as [_ HiB].
  specialize (HiB _ HitemsAt).
  destruct (elementsBefore_bound (levelsSlices views) i) as [_ HlB].
  specialize (HlB _ HlevelsAt). rewrite length_map in HlB.
  destruct (writeRows_outcome (itemsSlices views) 0 (ser_itemsCount start)
              (child_kItems (ser_rowResult start)))
    as (_ & _ & _ & _ & _ & _ & _ & HitemsSome).
  destruct (writeRows_outcome (levelsSlices views) 0
              (Z.to_nat (ser_levelsCount start))
              (child_kLevels (ser_rowResult start)))
    as (_ & _ & _ & _ & _ & _ & _ & HlevelsSome).
  rewrite <- Hitems_child in HitemsSome. rewrite <- Hlevels_child in HlevelsSome.
  destruct (HitemsSome i _ HitemsAt) as (Ho & Hs & Hcontent);
    [simpl; rewrite length_resize; exact Hi_lt
    |simpl; rewrite length_resize; exact Hi_lt|].
  destruct (HlevelsSome i _ HlevelsAt) as (Hlo & Hls & Hlcontent);
    [simpl; rewrite length_resize; exact Hi_lt
    |simpl; rewrite length_resize; exact Hi_lt|].
  simpl in Ho, Hs, Hcontent, Hlo, Hls, Hlcontent.
  rewrite length_map in Hls. rewrite length_map in Hlcontent.
  rewrite to_int32_small in Ho by lia. rewrite to_int32_small in Hs by lia.
  rewrite to_int32_small in Hlo by lia. rewrite to_int32_small in Hls by lia.
  rewrite length_resize in Hcontent. rewrite length_resize in Hlcontent.
  specialize (Hcontent ltac:(lia)). specialize (Hlcontent ltac:(lia)).
  destruct (HkAt i sketch Hsk Hn') as [Hkv _];
    [simpl; rewrite length_resize; exact Hi_lt|].
  destruct (HnAt i sketch Hsk Hn') as [Hnv _];
    [simpl; rewrite length_resize; exact Hi_lt|].
  destruct (HminAt i sketch Hsk Hn') as [Hminv _];
    [simpl; rewrite length_resize; exact Hi_lt|].
  destruct (HmaxAt i sketch Hsk Hn') as [Hmaxv _];
    [simpl; rewrite length_resize; exact Hi_lt|].
  simpl in Hkv, Hnv, Hminv, Hmaxv. rewrite Hv in Hkv, Hnv, Hminv, Hmaxv.
  unfold viewAt, readBack.
  cbn [input_k input_n input_minValue input_maxValue input_items input_levels
       flatAsSimple arrayAsReader simple_valueAt reader_offsetAt reader_sizeAt].
  rewrite (nth_lookup_Some _ _ _ _ Hkv), (nth_lookup_Some _ _ _ _ Hnv),
    (nth_lookup_Some _ _ _ _ Hminv), (nth_lookup_Some _ _ _ _ Hmaxv),
    (nth_lookup_Some _ _ _ _ Ho), (nth_lookup_Some _ _ _ _ Hs),
    (nth_lookup_Some _ _ _ _ Hlo), (nth_lookup_Some _ _ _ _ Hls).
  rewrite !Nat2Z.id.
  rewrite to_uint32_to_int32, to_size_t_to_int64, !N2Z.id by lia.
  rewrite (rangeOf_holds _ (kll.view_items v) _ Hcontent).
  rewrite <- (length_map (fun l => to_int32 (Z.of_N l)) (kll.view_levels v)).
  rewrite (rangeOf_holds _ _ _ Hlcontent).
  rewrite (levels_read_back _ Hl32).
  destruct v; reflexivity.
Qed.

Lemma decodeFlat_without_nulls {V} (dflt : V) (cells : list V) (i : nat) :
  isNullAt (decodeFlat dflt (map (fun cell => (false, cell)) cells)) i = false
  /\ valueAt (decodeFlat dflt (map (fun cell => (false, cell)) cells)) i
     = nth i cells dflt.
Proof.
  unfold decodeFlat. cbn [isNullAt valueAt]. rewrite !map_map. simpl.
  rewrite map_id. split; [|reflexivity].
  revert i. induction cells as [|cell cells IH]; intros [|i]; simpl; auto.
Qed.

(** Percentiles within [0, 1], held flat without nulls, are read as
    they are. *)
Lemma readPercentiles_flat (values : list double) :
  Forall (fun percentile => percentileInRange percentile = true) values ->
  forall before : list double,
    readPercentiles
      (decodeFlat 0%float
         (map (fun percentile => (false, percentile)) (before ++ values)))
      0 (length before) (length values)
    = Ok values.
Proof.
  induction 1 as [|percentile values Hin _ IH]; intros before;
    cbn [readPercentiles length]; [reflexivity|].
  cbv delta [double] in *.
  destruct (decodeFlat_without_nulls 0%float (before ++ percentile :: values)
              (length before)) as [-> _].
  destruct (decodeFlat_without_nulls 0%float (before ++ percentile :: values)
              (0 + length before)) as [_ ->].
  rewrite Nat.add_0_l, app_nth2 by lia. rewrite Nat.sub_diag. cbn [nth].
  unfold percentileInRange in Hin. apply andb_prop in Hin as [-> ->].
  cbn [negb VELOX_USER_CHECK mbind Result_bind].
  specialize (IH (before ++ [percentile])).
  rewrite <- app_assoc, length_app, Nat.add_comm in IH. simpl in IH.
  rewrite IH. reflexivity.
Qed.

(** The query-scope constants survive the shuffle: an operator without
    bound percentiles or accuracy that reads any row [extractAccumulators]
    wrote binds the percentiles, the array flag and the accuracy of the
    operator that wrote it; no accuracy is bound when the writer had
    none. *)
Theorem extractAccumulators_constants_read_back
    (ensureWritable : nat -> RowVector T -> RowVector T)
    this that (p : Percentiles) (groups : list nat) (rowResult : RowVector T)
    store (check : bool) (i : nat) :
  percentiles_ this = Some p ->
  percentilesInvariant this ->
  accuracyInvariant this ->
  groupsInContainer groups store = true ->
  Z.of_nat (allItems (compactedViews (fixedRandomSeed_ this) groups store))
  <= int32_max ->
  percentiles_ that = None ->
  accuracyIsSet that = false ->
  exists out,
    extractAccumulators ensureWritable groups rowResult this store = Ok (store, out)
    /\ resolveIntermediateRow check (readBack out) i that
       = Ok (if accuracyIsSet this
             then set_accuracy_ (accuracy_ this) (set_percentiles_ p that)
             else set_percentiles_ p that).
Proof.
  intros Hp Hpercentiles Haccuracy Hin Hitems Hnone Hunset.
  destruct (extractAccumulators_outcome ensureWritable this groups rowResult store Hin)
    as (sketches & Hviews & Hlen & Hextract).
  rewrite Hextract, Hp. cbv zeta. rewrite countItemsAndLevels_items, Hviews.
  destruct (Z.leb_spec (Z.of_nat (0 + allItems
              (compactedViews (fixedRandomSeed_ this) groups store))) int32_max)
    as [_|Hbad]; [|simpl in Hbad; lia].
  eexists. split; [reflexivity|].
  unfold resolveIntermediateRow, readBack.
  cbn [input_percentilesIndex input_percentilesBase input_percentileIsArray
       input_percentileElements input_accuracy].
  match goal with
  | |- context [serializeSketches sketches 0 ?s0] =>
      destruct (serializeSketches_rows sketches 0 s0) as (-> & -> & -> & _)
  end.
  cbn [ser_rowResult prepareRowResult child_kPercentiles child_kPercentilesIsArray
       child_kAccuracy makeConstant percentilesAsReader percentileValues
       constantAsSimple constant_value reader_rawValues reader_isNullAt
       reader_offsetAt reader_sizeAt simple_isNullAt simple_valueAt].
  destruct (Hpercentiles p Hp) as [Hnonempty Hrange].
  assert (Hchecks : (if check
                     then _ ← VELOX_USER_CHECK true "percentileBaseElements";
                          VELOX_USER_CHECK (negb false)
                            "!percentilesBase->isNullAt(indexInBaseVector)"
                     else Ok tt) = Ok tt) by (destruct check; reflexivity).
  rewrite Hchecks. cbn [mbind Result_bind].
  unfold checkSetPercentile. rewrite Hnone.
  assert (Hpositive : (0 <? length (values p))%nat = true)
    by (destruct (values p); [congruence | reflexivity]).
  rewrite Hpositive. cbn [VELOX_USER_CHECK mbind Result_bind].
  pose proof (readPercentiles_flat (values p) Hrange []) as Hread.
  cbn [app length] in Hread. rewrite Hread. cbn [mbind Result_bind].
  assert (Hrecord : {| values := values p; isArray := isArray p |} = p)
    by (destruct p; reflexivity).
  rewrite Hrecord.
  unfold accuracyInvariant in Haccuracy. unfold accuracyIsSet in *.
  destruct (accuracy_ this =? kMissingNormalizedValue)%float; simpl; [reflexivity|].
  rewrite checkSetAccuracy_cases. rewrite (Haccuracy eq_refl). simpl.
  unfold accuracyIsSet. simpl. rewrite Hunset. reflexivity.
Qed.

(** The rows [extractAccumulators] writes are read back by
    [addIntermediate] as the views they were written from: a group
    whose compacted sketch is empty gives a row that carries no sketch,
    any other group a row whose view has the [k], [n], minimum, maximum,
    items and levels of the compacted sketch. *)
Theorem extractAccumulators_views_read_back
    (ensureWritable : nat -> RowVector T -> RowVector T)
    this (p : Percentiles) (groups : list nat) (rowResult : RowVector T) store :
  percentiles_ this = Some p ->
  groupsInContainer groups store = true ->
  Z.of_nat (allItems (compactedViews (fixedRandomSeed_ this) groups store))
  <= int32_max ->
  Z.of_nat (allLevels (compactedViews (fixedRandomSeed_ this) groups store))
  <= int32_max ->
  Forall viewInRange (compactedViews (fixedRandomSeed_ this) groups store) ->
  exists out,
    extractAccumulators ensureWritable groups rowResult this store = Ok (store, out)
    /\ forall i v,
         compactedViews (fixedRandomSeed_ this) groups store !! i = Some v ->
         carriesSketch (readBack out) i = negb (kll.view_n v =? 0)%N
         /\ (kll.view_n v <> 0%N ->
             viewAt (readBack out) (array_elements (child_kItems out))
               (array_elements (child_kLevels out)) i = v).
Proof.
  intros Hp Hin Hitems Hlevels Hrange.
  destruct (extractAccumulators_rows_read_back ensureWritable this p groups
              rowResult store Hp Hin Hitems Hlevels Hrange)
    as (out & Hextract & Hrows).
  exists out. split; [exact Hextract|].
  intros i v Hi. destruct (Hrows i v Hi) as [Hcarries Hview].
  split; [exact Hcarries|]. intros Hn. apply Hview. exact Hn.
Qed.

(** What a row read back contributes to the accumulator it is merged
    into: appending the views of the sketch rows of a group is
    appending the compacted views shuffled to it. *)
Lemma appendSketchRows_shuffled (views : list (kll.View T))
    (input : IntermediateInput T) (rawItems : list T) (rawLevels : list Z)
    (that : ApproxPercentileAggregate T) (targets : list nat) (group : nat) :
  (forall i v,
     views !! i = Some v ->
     carriesSketch input i = negb (kll.view_n v =? 0)%N
     /\ (kll.view_n v <> 0%N -> viewAt input rawItems rawLevels (input_index input i) = v)) ->
  forall (rows : list nat) (accumulator : KllSketchAccumulator T),
    Forall (fun row => (row < length views)%nat) rows ->
    appendSketchRows input rawItems rawLevels that
      (sketchRowsOfGroup input targets rows group) accumulator
    = fold_left (fun accumulator v => appendView v (withAccuracy that accumulator))
        (shuffledViews views targets rows group) accumulator.
Proof.
  intros Hrows. unfold appendSketchRows, sketchRowsOfGroup, shuffledViews.
  induction rows as [|row rows IH]; intros accumulator Hbound; [reflexivity|].
  apply Forall_cons_1 in Hbound as [Hrow Hbound].
  destruct (lookup_lt_is_Some_2 views row Hrow) as [v Hv].
  destruct (Hrows row v Hv) as [Hcarries Hview].
  cbn [List.filter omap list_omap]. rewrite Hcarries, Hv.
  destruct (targets !! row) as [group'|];
    [|rewrite andb_false_r; apply IH; exact Hbound].
  destruct (kll.view_n v =? 0)%N eqn:Hn; cbn [negb andb];
    [apply IH; exact Hbound|].
  destruct (group' =? group)%nat; [|apply IH; exact Hbound].
  cbn [fold_left]. rewrite Hview by (apply N.eqb_neq; exact Hn).
  apply IH. exact Hbound.
Qed.

(** The shuffle end to end: when the rows [extractAccumulators] wrote
    for some groups are merged by [addIntermediateResults] into target
    groups, every target accumulator receives, one by one and in row
    order, the views of the compacted sketches of the source groups
    whose rows point to it; source groups without input contribute
    nothing. *)
Theorem extractAccumulators_then_addIntermediate
    (ensureWritable : nat -> RowVector T -> RowVector T)
    this (p : Percentiles) (groups : list nat) (rowResult : RowVector T) store
    (validate : bool) (targets : list nat) (rows : SelectivityVector)
    (that that' : ApproxPercentileAggregate T) (merged merged' : RowContainer T) :
  percentiles_ this = Some p ->
  groupsInContainer groups store = true ->
  Z.of_nat (allItems (compactedViews (fixedRandomSeed_ this) groups store))
  <= int32_max ->
  Z.of_nat (allLevels (compactedViews (fixedRandomSeed_ this) groups store))
  <= int32_max ->
  Forall viewInRange (compactedViews (fixedRandomSeed_ this) groups store) ->
  Forall (fun row => (row < length groups)%nat) rows ->
  exists out,
    extractAccumulators ensureWritable groups rowResult this store = Ok (store, out)
    /\ (addIntermediate validate (Groups targets) rows [readBack out] that merged
        = Ok (that', merged') ->
        length merged' = length merged
        /\ forall group accumulator,
             merged !! group = Some accumulator ->
             merged' !! group
             = Some (fold_left
                       (fun accumulator v =>
                          appendView v (withAccuracy that' accumulator))
                       (shuffledViews
                          (compactedViews (fixedRandomSeed_ this) groups store)
                          targets rows group)
                       accumulator)).
Proof.
  intros Hp Hin Hitems Hlevels Hrange Hbound.
  destruct (extractAccumulators_rows_read_back ensureWritable this p groups
              rowResult store Hp Hin Hitems Hlevels Hrange)
    as (out & Hextract & Hrows).
  exists out. split; [exact Hextract|].
  rewrite addIntermediate_Impl. intros Hcall.
  destruct (addIntermediateImpl_Ok _ _ _ _ _ _ _ _ Hcall)
    as (rawItems & rawLevels & s & HrawItems & HrawLevels & _ & _ & Hwalk
        & Happend & <-).
  destruct (groupsRows_Ok _ _ _ _ _ _ _ _ Hwalk)
    as (_ & _ & _ & Hlen & _ & Hgroups).
  simpl in Happend. injection Happend as <-.
  simpl in HrawItems, HrawLevels.
  injection HrawItems as <-. injection HrawLevels as <-.
  split; [exact Hlen|].
  intros group accumulator Hacc.
  rewrite (Hgroups group accumulator Hacc). f_equal.
  apply appendSketchRows_shuffled; [exact Hrows|].
  assert (Hviews : length (compactedViews (fixedRandomSeed_ this) groups store)
                   = length groups).
  { destruct (extractAccumulators_outcome ensureWritable this groups rowResult
                store Hin) as (sketches & Hviews & Hlen' & _).
    rewrite <- Hviews, length_map. exact Hlen'. }
  rewrite Hviews. exact Hbound.
Qed.

End ReadBackFacts.

(** ** Intermediate input on sample rows *)

Lemma addIntermediate_first_row_witness :
  resolveIntermediateRow false Examples.intermediateInput 0
    Examples.freshAggregate
  = Ok Examples.resolvedAggregate.
Proof.
  assert (Hcall : addIntermediate false (Groups [0; 1]%nat) [0; 1]%nat
                    [Examples.intermediateInput] Examples.freshAggregate
                    Examples.twoGroups
                  = Ok (Examples.resolvedAggregate,
                        [appendView Examples.sketchRowView
                           (newKllSketchAccumulator Examples.seed);
                         newKllSketchAccumulator Examples.seed]))
    by reflexivity.
  exact (addIntermediate_resolves_on_first_sketch_row false (Groups [0; 1]%nat)
           [0; 1]%nat Examples.intermediateInput Examples.freshAggregate
           Examples.twoGroups _ _ Hcall).
Defined.

Lemma addIntermediate_groups_witness :
  [appendView Examples.sketchRowView (newKllSketchAccumulator Examples.seed);
   newKllSketchAccumulator Examples.seed] !! 0%nat
  = Some (appendSketchRows Examples.intermediateInput [7] [0; 1]
            Examples.resolvedAggregate [0%nat]
            (newKllSketchAccumulator Examples.seed)).
Proof.
  assert (Hcall : addIntermediate false (Groups [0; 1]%nat) [0; 1]%nat
                    [Examples.intermediateInput] Examples.freshAggregate
                    Examples.twoGroups
                  = Ok (Examples.resolvedAggregate,
                        [appendView Examples.sketchRowView
                           (newKllSketchAccumulator Examples.seed);
                         newKllSketchAccumulator Examples.seed]))
    by reflexivity.
  destruct (addIntermediate_appends_each_group_its_views false [0; 1]%nat
              [0; 1]%nat Examples.intermediateInput Examples.freshAggregate
              Examples.twoGroups _ _ Hcall)
    as (rawItems & rawLevels & Hitems & Hlevels & _ & Hgroups).
  injection Hitems as <-. injection Hlevels as <-.
  exact (Hgroups 0%nat _ eq_refl).
Defined.

Lemma addIntermediate_single_group_witness :
  exists accumulator,
    Examples.twoGroups !! 0%nat = Some accumulator
    /\ [appendViews [Examples.sketchRowView]
          (newKllSketchAccumulator Examples.seed);
        newKllSketchAccumulator Examples.seed]
       = <[0%nat := appendViews [Examples.sketchRowView]
                      (withAccuracy Examples.resolvedAggregate accumulator)]>
           Examples.twoGroups.
Proof.
  assert (Hcall : addIntermediate false (SingleGroup 0) [0; 1]%nat
                    [Examples.intermediateInput] Examples.freshAggregate
                    Examples.twoGroups
                  = Ok (Examples.resolvedAggregate,
                        [appendViews [Examples.sketchRowView]
                           (newKllSketchAccumulator Examples.seed);
                         newKllSketchAccumulator Examples.seed]))
    by reflexivity.
  destruct (addIntermediate_single_group_appends_once false 0 [0; 1]%nat
              Examples.intermediateInput Examples.freshAggregate
              Examples.twoGroups _ _ Hcall)
    as (rawItems & rawLevels & Hitems & Hlevels & Hstore).
  injection Hitems as <-. injection Hlevels as <-.
  exact Hstore.
Defined.

Lemma addIntermediate_validates_witness :
  (exists message,
     addIntermediate true (Groups [0; 1]%nat) [0; 1]%nat
       [Examples.dictionaryKInput] Examples.freshAggregate Examples.twoGroups
     = Failed (UserError message))
  /\ sketchFieldsPresent Examples.intermediateInput [0; 1]%nat.
Proof.
  split.
  - destruct (addIntermediate_validates_input (Groups [0; 1]%nat) [0; 1]%nat
                Examples.dictionaryKInput Examples.freshAggregate
                Examples.twoGroups) as (Hrefused & _ & _).
    apply Hrefused. intros (_ & _ & Hflat & _).
    apply Forall_cons_1 in Hflat as [HkK _]. discriminate HkK.
  - assert (Hcall : addIntermediate true (Groups [0; 1]%nat) [0; 1]%nat
                      [Examples.intermediateInput] Examples.freshAggregate
                      Examples.twoGroups
                    = Ok (Examples.resolvedAggregate,
                          [appendView Examples.sketchRowView
                             (newKllSketchAccumulator Examples.seed);
                           newKllSketchAccumulator Examples.seed]))
      by reflexivity.
    destruct (addIntermediate_validates_input (Groups [0; 1]%nat) [0; 1]%nat
                Examples.intermediateInput Examples.freshAggregate
                Examples.twoGroups) as (_ & _ & Haccepted).
    exact (proj2 (Haccepted _ Hcall)).
Defined.

Lemma extractAccumulators_views_witness :
  exists out,
    extractAccumulators Examples.ensureWritable
      [0; 1; 2]%nat Examples.emptyRowVector Examples.resolvedAggregate
      Examples.threeGroups = Ok (Examples.threeGroups, out)
    /\ carriesSketch (readBack out) 1 = false
    /\ kll.view_items
         (viewAt (readBack out) (array_elements (child_kItems out))
            (array_elements (child_kLevels out)) 2) = [7].
Proof.
  destruct (extractAccumulators_views_read_back
              Examples.ensureWritable Examples.resolvedAggregate
              {| values := [0.5%float]; isArray := false |} [0; 1; 2]%nat
              Examples.emptyRowVector Examples.threeGroups)
    as (out & Hextract & Hrows);
    [reflexivity | reflexivity | apply Z.leb_le; reflexivity
    | apply Z.leb_le; reflexivity | |].
  - repeat (constructor;
            [split; [apply N.ltb_lt; reflexivity|];
             split; [apply N.ltb_lt; reflexivity|];
             repeat (constructor; [apply N.ltb_lt; reflexivity|]);
             constructor|]).
    constructor.
  - exists out. split; [exact Hextract|].
    destruct (Hrows 1%nat _ eq_refl) as [Hcarries _].
    destruct (Hrows 2%nat _ eq_refl) as [_ Hview].
    split; [exact Hcarries|].
    rewrite Hview by discriminate. reflexivity.
Defined.

Lemma extractAccumulators_constants_witness :
  exists out,
    extractAccumulators Examples.ensureWritable
      [0; 1; 2]%nat Examples.emptyRowVector Examples.resolvedAggregate
      Examples.threeGroups = Ok (Examples.threeGroups, out)
    /\ resolveIntermediateRow true (readBack out) 0 Examples.freshAggregate
       = Ok Examples.resolvedAggregate.
Proof.
  destruct (extractAccumulators_constants_read_back
              Examples.ensureWritable Examples.resolvedAggregate
              Examples.freshAggregate
              {| values := [0.5%float]; isArray := false |} [0; 1; 2]%nat
              Examples.emptyRowVector Examples.threeGroups true 0)
    as (out & Hextract & Hresolved);
    [reflexivity | | | reflexivity | apply Z.leb_le; reflexivity
    | reflexivity | reflexivity |].
  - intros p [= <-]. split; [discriminate|].
    constructor; [reflexivity | constructor].
  - intros Hset. discriminate Hset.
  - exists out. split; [exact Hextract | exact Hresolved].
Defined.

(** ** The values [extractValues] writes *)

Section ExtractedValuesFacts.

Context {T : Type} `{!Inhabited T} {L : kll.Library T}.

Implicit Types (this : ApproxPercentileAggregate T) (store : RowContainer T).

(** The loop of [extract] on a flat result. *)
Lemma flatLoop_values (percentiles : list double) (rawNulls : bool) store :
  forall (groups : list nat) (i : nat) (r : FlatExtract),
    groupsInContainer groups store = true ->
    exists r',
      extractLoop (fun i => fe_map (flat_setNull i true)) rawNulls
        (fun i => fe_map (flat_clearBit i))
        (flatExtractFunction percentiles) store groups i r = Ok r'
      /\ length (flat_values (fe_result r')) = length (flat_values (fe_result r))
      /\ (forall k, (k < i)%nat ->
            flat_values (fe_result r') !! k = flat_values (fe_result r) !! k)
      /\ (forall j group accumulator,
            groups !! j = Some group -> store !! group = Some accumulator ->
            kll.totalCount (sketch_ accumulator) <> 0%N ->
            (i + j < length (flat_values (fe_result r)))%nat ->
            flat_values (fe_result r') !! (i + j)%nat
            = Some (kll.estimateQuantile (sketch_ accumulator)
                      (List.last percentiles 0%float))).
Proof.
  induction groups as [|group groups IH]; intros i r Hin; simpl.
  - exists r. split; [reflexivity|]. split; [reflexivity|]. split; [auto|].
    intros j group accumulator Hj. rewrite lookup_nil in Hj. discriminate.
  - apply groupsInContainer_cons in Hin as [Hlt Hrest].
    destruct (lookup_lt_is_Some_2 store group Hlt) as [accumulator Hacc].
    rewrite (value_lookup _ _ _ Hacc). simpl. unfold getSketch.
    destruct (kll.totalCount (sketch_ accumulator) =? 0)%N eqn:Hcount.
    + destruct (IH (S i) (fe_map (flat_setNull i true) r) Hrest)
        as (r' & Hloop & Hlen & Hbefore & Hat).
      exists r'. split; [exact Hloop|]. split; [exact Hlen|].
      split; [intros k Hk; apply Hbefore; lia|].
      intros [|j] group' accumulator' Hj Hacc' Hpositive Hin'; simpl in Hj.
      * injection Hj as <-. rewrite Hacc in Hacc'. injection Hacc' as <-.
        apply N.eqb_eq in Hcount. contradiction.
      * replace (i + S j)%nat with (S i + j)%nat by lia.
        apply (Hat j group' accumulator' Hj Hacc' Hpositive). simpl. lia.
    + destruct (IH (S i)
                  (flatExtractFunction percentiles (sketch_ accumulator) i
                     (if rawNulls then fe_map (flat_clearBit i) r else r)) Hrest)
        as (r' & Hloop & Hlen & Hbefore & Hat).
      assert (Hsame : flat_values
                        (fe_result (if rawNulls then fe_map (flat_clearBit i) r
                                    else r))
                      = flat_values (fe_result r))
        by (destruct rawNulls; reflexivity).
      simpl in Hlen, Hbefore, Hat. rewrite Hsame in Hlen, Hbefore, Hat.
      rewrite length_insert in Hlen.
      exists r'. split; [exact Hloop|]. split; [exact Hlen|].
      split.
      { intros k Hk. rewrite Hbefore by lia.
        apply list_lookup_insert_ne. lia. }
      intros [|j] group' accumulator' Hj Hacc' Hpositive Hin'; simpl in Hj.
      * injection Hj as <-. rewrite Hacc in Hacc'. injection Hacc' as <-.
        rewrite Nat.add_0_r in *. rewrite Hbefore by lia.
        apply list_lookup_insert_eq. exact Hin'.
      * replace (i + S j)%nat with (S i + j)%nat by lia.
        apply (Hat j group' accumulator' Hj Hacc' Hpositive).
        rewrite length_insert. lia.
Qed.

(** [extractValues] under a scalar percentile, row by row. *)
Lemma extractValues_scalar_rows this (p : Percentiles)
    (groups : list nat) (flatResult : FlatVector T) store :
  percentiles_ this = Some p ->
  isArray p = false ->
  groupsInContainer groups store = true ->
  exists store' out calls,
    extractValues groups (FlatResult flatResult) this store
    = Ok (store', FlatResult out, calls)
    /\ flushGroups (fixedRandomSeed_ this) groups store = Ok store'
    /\ length (flat_values out) = length groups
    /\ forall i group accumulator,
         groups !! i = Some group -> store' !! group = Some accumulator ->
         kll.totalCount (sketch_ accumulator) <> 0%N ->
         flat_values out !! i
         = Some (kll.estimateQuantile (sketch_ accumulator)
                   (List.last (values p) 0%float)).
Proof.
  intros Hp Hscalar Hin.
  destruct (flushGroups_outcome (fixedRandomSeed_ this) groups store Hin)
    as (store' & Hflush & Hlen & _ & _).
  rewrite <- (groupsInContainer_length groups store store' Hlen) in Hin.
  unfold extractValues. rewrite Hflush, Hp. simpl. rewrite Hscalar.
  unfold extract.
  set (start := fe_map (flat_resize (length groups))
                  {| fe_result := flatResult; fe_calls := [] |}).
  destruct (flatLoop_values (values p) (flat_mayHaveNulls (fe_result start))
              store' groups 0 start Hin)
    as (r' & Hloop & Hlen' & _ & Hat).
  cbv zeta. rewrite Hloop. simpl. exists store', (fe_result r'), (fe_calls r').
  split; [reflexivity|]. split; [reflexivity|].
  simpl in Hlen', Hat. rewrite length_resize in Hlen', Hat.
  split; [exact Hlen'|].
  intros i group accumulator Hi Hacc Hpositive.
  apply (Hat i group accumulator Hi Hacc Hpositive).
  apply lookup_lt_Some in Hi. exact Hi.
Qed.

Lemma writeRows_sameLayout {V} (slices : list (option (list V))) :
  forall (i pos : nat) (a b : ArrayVector V),
    sameLayout a b ->
    sameLayout (writeRows slices i pos a) (writeRows slices i pos b).
Proof.
  induction slices as [|[src|] slices IH]; intros i pos a b Hsame; simpl;
    [exact Hsame| |apply IH; exact Hsame].
  apply IH. destruct Hsame as (Hoffsets & Hsizes & Helements).
  unfold sameLayout. simpl. rewrite Hoffsets, Hsizes, Helements. auto.
Qed.

Lemma estimateSlices_bound (percentiles : list double) store (groups : list nat) :
  (forall (digest : kll.KllSketch StlAllocator),
     length (kll.estimateQuantiles digest percentiles) = length percentiles) ->
  (elementsBefore (estimateSlices percentiles store groups)
     (length (estimateSlices percentiles store groups))
   <= length groups * length percentiles)%nat.
Proof.
  intros Hlaw. induction groups as [|group groups IH]; simpl; [lia|].
  destruct (store !! group) as [accumulator|]; [|simpl; lia].
  destruct (kll.totalCount (sketch_ accumulator) =? 0)%N; simpl; [lia|].
  rewrite Hlaw. lia.
Qed.

(** The counting loop of the array branch counts what the extraction
    loop writes. *)
Lemma countElements_total (percentiles : list double) store :
  (forall (digest : kll.KllSketch StlAllocator),
     length (kll.estimateQuantiles digest percentiles) = length percentiles) ->
  forall (groups : list nat) (elementsCount : Z),
    groupsInContainer groups store = true ->
    0 <= elementsCount ->
    elementsCount + Z.of_nat (length groups * length percentiles) <= int32_max ->
    countElements store groups (Z.of_nat (length percentiles)) elementsCount
    = Ok (elementsCount
          + Z.of_nat (elementsBefore (estimateSlices percentiles store groups)
                        (length (estimateSlices percentiles store groups)))).
Proof.
  intros Hlaw. induction groups as [|group groups IH];
    intros elementsCount Hin Hlow Hhigh; simpl.
  - rewrite Z.add_0_r. reflexivity.
  - apply groupsInContainer_cons in Hin as [Hlt Hrest].
    destruct (lookup_lt_is_Some_2 store group Hlt) as [accumulator Hacc].
    rewrite (value_lookup _ _ _ Hacc), Hacc. simpl in Hhigh |- *.
    unfold getSketch.
    destruct (N.eqb_spec (kll.totalCount (sketch_ accumulator)) 0) as [Hzero|Hpositive].
    + rewrite Hzero. simpl. rewrite IH by (assumption || lia). reflexivity.
    + destruct (N.ltb_spec 0 (kll.totalCount (sketch_ accumulator))) as [_|Hle];
        [|lia].
      rewrite to_int32_small by lia. rewrite IH by (assumption || lia).
      simpl. rewrite Hlaw. f_equal. lia.
Qed.

(** The extraction loop of the array branch lays the estimates out as
    [writeRows] does. *)
Lemma arrayLoop_layout (percentiles : list double) (rawNulls : bool) store :
  (forall (digest : kll.KllSketch StlAllocator),
     length (kll.estimateQuantiles digest percentiles) = length percentiles) ->
  forall (groups : list nat) (i : nat) (r : ArrayExtract),
    groupsInContainer groups store = true ->
    0 <= ae_elementsCount r ->
    ae_elementsCount r + Z.of_nat (length groups * length percentiles)
    <= int32_max ->
    exists r',
      extractLoop (fun i => ae_map (array_setNull i true)) rawNulls
        (fun i => ae_map (array_clearBit i))
        (arrayExtractFunction percentiles) store groups i r = Ok r'
      /\ sameLayout (ae_result r')
           (writeRows (estimateSlices percentiles store groups) i
              (Z.to_nat (ae_elementsCount r)) (ae_result r)).
Proof.
  intros Hlaw. induction groups as [|group groups IH];
    intros i r Hin Hlow Hhigh; simpl.
  - exists r. split; [reflexivity|]. unfold sameLayout. auto.
  - apply groupsInContainer_cons in Hin as [Hlt Hrest].
    destruct (lookup_lt_is_Some_2 store group Hlt) as [accumulator Hacc].
    rewrite (value_lookup _ _ _ Hacc), Hacc. simpl in Hhigh |- *.
    unfold getSketch.
    destruct (kll.totalCount (sketch_ accumulator) =? 0)%N.
    + destruct (IH (S i) (ae_map (array_setNull i true) r) Hrest)
        as (r' & Hloop & Hsame); [exact Hlow | simpl; lia|].
      exists r'. split; [exact Hloop|].
      destruct Hsame as (Hoffsets & Hsizes & Helements).
      destruct (writeRows_sameLayout (estimateSlices percentiles store groups)
                  (S i) (Z.to_nat (ae_elementsCount r))
                  (array_setNull i true (ae_result r)) (ae_result r))
        as (Hoffsets' & Hsizes' & Helements'); [unfold sameLayout; auto|].
      simpl in Hoffsets, Hsizes, Helements.
      unfold sameLayout. rewrite Hoffsets, Hsizes, Helements. auto.
    + set (estimates := kll.estimateQuantiles (sketch_ accumulator) percentiles).
      set (r0 := if rawNulls then ae_map (array_clearBit i) r else r).
      assert (Hr0 : ae_elementsCount r0 = ae_elementsCount r
                    /\ sameLayout (ae_result r0) (ae_result r))
        by (unfold r0, sameLayout; destruct rawNulls; simpl; auto).
      destruct Hr0 as (Hcount0 & Hoffsets0 & Hsizes0 & Helements0).
      set (r1 := arrayExtractFunction percentiles (sketch_ accumulator) i r0).
      assert (Hcount : ae_elementsCount r1
                       = ae_elementsCount r + Z.of_nat (length estimates)).
      { unfold r1, arrayExtractFunction, estimates. simpl.
        rewrite Hlaw, Hcount0. apply to_int32_small. lia. }
      destruct (IH (S i) r1 Hrest) as (r' & Hloop & Hsame);
        [rewrite Hcount; lia
        |rewrite Hcount; unfold estimates; rewrite Hlaw; lia|].
      exists r'. split; [exact Hloop|].
      destruct Hsame as (Hoffsets & Hsizes & Helements).
      destruct (writeRows_sameLayout (estimateSlices percentiles store groups)
                  (S i) (Z.to_nat (ae_elementsCount r1)) (ae_result r1)
                  (array_setOffsetAndSize i
                     (to_int32 (Z.of_nat (Z.to_nat (ae_elementsCount r))))
                     (to_int32 (Z.of_nat (length estimates)))
                     (array_writeElements (Z.to_nat (ae_elementsCount r)) estimates
                        (ae_result r))))
        as (Hoffsets' & Hsizes' & Helements').
      { assert (Hestimates : length estimates = length percentiles)
          by apply Hlaw.
        unfold r1, arrayExtractFunction, sameLayout. simpl. fold estimates.
        rewrite Hcount0, Hoffsets0, Hsizes0, Helements0.
        rewrite Z2Nat.id by lia. rewrite Hestimates.
        rewrite (to_int32_small (ae_elementsCount r)) by lia. auto. }
      replace (Z.to_nat (ae_elementsCount r) + length estimates)%nat
        with (Z.to_nat (ae_elementsCount r1)) by (rewrite Hcount; lia).
      unfold sameLayout. rewrite Hoffsets, Hsizes, Helements. auto.
Qed.

(** [extractValues] under array percentiles, row by row. *)
Lemma extractValues_array_rows this (p : Percentiles)
    (groups : list nat) (arrayResult : ArrayVector T) store :
  (forall (digest : kll.KllSketch StlAllocator),
     length (kll.estimateQuantiles digest (values p)) = length (values p)) ->
  percentiles_ this = Some p ->
  isArray p = true ->
  groupsInContainer groups store = true ->
  Z.of_nat (length groups * length (values p)) <= int32_max ->
  exists store' out calls,
    extractValues groups (ArrayResult arrayResult) this store
    = Ok (store', ArrayResult out, calls)
    /\ flushGroups (fixedRandomSeed_ this) groups store = Ok store'
    /\ forall i group accumulator,
         groups !! i = Some group -> store' !! group = Some accumulator ->
         kll.totalCount (sketch_ accumulator) <> 0%N ->
         let offset := elementsBefore (estimateSlices (values p) store' groups) i in
         array_offsets out !! i = Some (Z.of_nat offset)
         /\ array_sizes out !! i = Some (Z.of_nat (length (values p)))
         /\ forall k x,
              kll.estimateQuantiles (sketch_ accumulator) (values p) !! k = Some x ->
              array_elements out !! (offset + k)%nat = Some x.
Proof.
  intros Hlaw Hp Harray Hin Hbound.
  destruct (flushGroups_outcome (fixedRandomSeed_ this) groups store Hin)
    as (store' & Hflush & Hlen & _ & _).
  rewrite <- (groupsInContainer_length groups store store' Hlen) in Hin.
  unfold extractValues. rewrite Hflush, Hp. simpl. rewrite Harray.
  rewrite (countElements_total (values p) store' Hlaw groups 0 Hin) by lia.
  simpl. unfold extract. rewrite Z.add_0_l, Nat2Z.id.
  set (slices := estimateSlices (values p) store' groups).
  set (total := elementsBefore slices (length slices)).
  set (start := ae_map (array_resize (length groups))
                  {| ae_result := array_resizeElements total arrayResult;
                     ae_elementsCount := 0;
                     ae_calls := [] |}).
  destruct (arrayLoop_layout (values p) (array_mayHaveNulls (ae_result start))
              store' Hlaw groups 0 start Hin)
    as (r' & Hloop & Hoffsets & Hsizes & Helements); [simpl; lia | simpl; lia|].
  cbv zeta. rewrite Hloop. simpl. exists store', (ae_result r'), (ae_calls r').
  split; [reflexivity|]. split; [reflexivity|].
  intros i group accumulator Hi Hacc Hpositive.
  simpl in Hoffsets, Hsizes, Helements. fold slices in Hoffsets, Hsizes, Helements.
  change (Z.to_nat 0) with 0%nat in Hoffsets, Hsizes, Helements.
  assert (Hslice : slices !! i
                   = Some (Some (kll.estimateQuantiles (sketch_ accumulator)
                                   (values p)))).
  { unfold slices, estimateSlices.
    rewrite (map_lookup_Some _ groups i group Hi), Hacc.
    apply N.eqb_neq in Hpositive. rewrite Hpositive. reflexivity. }
  destruct (writeRows_outcome slices 0 0
              (array_resize (length groups)
                 (array_resizeElements total arrayResult)))
    as (_ & _ & _ & _ & _ & _ & _ & Hsome).
  destruct (Hsome i _ Hslice) as (Hoffset & Hsize & Hcontent);
    [simpl; rewrite length_resize; apply lookup_lt_Some in Hi; exact Hi
    |simpl; rewrite length_resize; apply lookup_lt_Some in Hi; exact Hi|].
  simpl in Hoffset, Hsize, Hcontent.
  pose proof (estimateSlices_bound (values p) store' groups Hlaw) as Htotal.
  destruct (elementsBefore_bound slices i) as [_ Hbefore].
  specialize (Hbefore _ Hslice). fold slices in Htotal. fold total in Hbefore, Htotal.
  rewrite Hlaw in Hsize, Hbefore.
  rewrite to_int32_small in Hoffset by lia.
  rewrite to_int32_small in Hsize by lia.
  rewrite Hoffsets, Hsizes, Helements.
  split; [exact Hoffset|]. split; [exact Hsize|].
  intros k x Hk. apply Hcontent; [|exact Hk].
  rewrite length_resize, Hlaw. exact Hbefore.
Qed.

(** Under a scalar percentile the row of a group with input holds the
    estimate of the group's flushed sketch at this percentile, whatever
    the result vector held before; the result has one row per group,
    and a group may be extracted in several rows. *)
Theorem extractValues_scalar_estimates this (p : Percentiles)
    (groups : list nat) (flatResult : FlatVector T) store :
  percentiles_ this = Some p ->
  isArray p = false ->
  groupsInContainer groups store = true ->
  exists store' out calls,
    extractValues groups (FlatResult flatResult) this store
    = Ok (store', FlatResult out, calls)
    /\ flushGroups (fixedRandomSeed_ this) groups store = Ok store'
    /\ length (flat_values out) = length groups
    /\ forall i group accumulator,
         groups !! i = Some group -> store' !! group = Some accumulator ->
         kll.totalCount (sketch_ accumulator) <> 0%N ->
         flat_values out !! i
         = Some (kll.estimateQuantile (sketch_ accumulator)
                   (List.last (values p) 0%float)).
Proof.
  intros Hp Hscalar Hin.
  destruct (extractValues_scalar_rows this p groups flatResult store Hp Hscalar Hin)
    as (store' & out & calls & Hextract & Hflush & Hlen & Hrows).
  exists store', out, calls. split; [exact Hextract|]. split; [exact Hflush|].
  split; [exact Hlen|].
  intros i group accumulator Hi Hacc Hpositive.
  exact (Hrows i group accumulator Hi Hacc Hpositive).
Qed.

(** Under array percentiles the row of a group with input is an array of
    as many elements as there are percentiles, placed right after the
    estimates of the groups before it, and its elements are the
    estimates of the group's flushed sketch at the percentiles, in
    their order. *)
Theorem extractValues_array_layout this (p : Percentiles)
    (groups : list nat) (arrayResult : ArrayVector T) store :
  (forall (digest : kll.KllSketch StlAllocator),
     length (kll.estimateQuantiles digest (values p)) = length (values p)) ->
  percentiles_ this = Some p ->
  isArray p = true ->
  groupsInContainer groups store = true ->
  Z.of_nat (length groups * length (values p)) <= int32_max ->
  exists store' out calls,
    extractValues groups (ArrayResult arrayResult) this store
    = Ok (store', ArrayResult out, calls)
    /\ flushGroups (fixedRandomSeed_ this) groups store = Ok store'
    /\ forall i group accumulator,
         groups !! i = Some group -> store' !! group = Some accumulator ->
         kll.totalCount (sketch_ accumulator) <> 0%N ->
         let offset := elementsBefore (estimateSlices (values p) store' groups) i in
         array_offsets out !! i = Some (Z.of_nat offset)
         /\ array_sizes out !! i = Some (Z.of_nat (length (values p)))
         /\ forall k x,
              kll.estimateQuantiles (sketch_ accumulator) (values p) !! k = Some x ->
              array_elements out !! (offset + k)%nat = Some x.
Proof.
  intros Hlaw Hp Harray Hin Hbound.
  destruct (extractValues_array_rows this p groups arrayResult store
              Hlaw Hp Harray Hin Hbound)
    as (store' & out & calls & Hextract & Hflush & Hrows).
  exists store', out, calls. split; [exact Hextract|]. split; [exact Hflush|].
  intros i group accumulator Hi Hacc Hpositive.
  exact (Hrows i group accumulator Hi Hacc Hpositive).
Qed.

(** C4: when the percentiles were never resolved, [extractValues]
    returns a null constant of one row per group.  Otherwise the entry
    of every group whose flushed sketch has total count 0 is null, and
    the entry of every group with a positive total count is not null and
    holds the estimates of the group's flushed sketch: the estimate at
    the percentile under a scalar percentile, the estimates at the
    percentiles, in their order, under array percentiles.  This holds
    whether or not the result vector comes with a nulls buffer and
    whatever it held. *)
Theorem extractValues_null_iff_no_input this (groups : list nat)
    (result : ResultVector T) store :
  groupsInContainer groups store = true ->
  resultFitsPercentiles this result = true ->
  exists store' out calls,
    extractValues groups result this store = Ok (store', out, calls)
    /\ flushGroups (fixedRandomSeed_ this) groups store = Ok store'
    /\ (percentiles_ this = None ->
        out = NullConstantResult (length groups)
        /\ forall i, (i < length groups)%nat -> resultIsNullAt out i = Some true)
    /\ (forall p, percentiles_ this = Some p ->
        forall i group accumulator,
          groups !! i = Some group -> store' !! group = Some accumulator ->
          (kll.totalCount (sketch_ accumulator) = 0%N ->
             resultIsNullAt out i = Some true)
          /\ ((0 < kll.totalCount (sketch_ accumulator))%N ->
             resultIsNullAt out i = Some false
             /\ (estimatesFit p groups ->
                 resultEstimatesAt out i
                 = Some (estimatesOf p (sketch_ accumulator))))).
Proof.
  intros Hin Hfits.
  destruct (extractValues_outcome this groups result store Hin Hfits)
    as (store' & out & calls & Hextract & Hflush & Hout).
  exists store', out, calls. split; [exact Hextract|]. split; [exact Hflush|].
  split.
  - intros Hnone. rewrite Hnone in Hout. destruct Hout as [-> _].
    split; [reflexivity|].
    intros i Hi. simpl. destruct (Nat.ltb_spec i (length groups)); [reflexivity | lia].
  - intros p Hp i group accumulator Hi Hacc. rewrite Hp in Hout.
    destruct Hout as [_ Hrows]. rewrite (Hrows i group accumulator Hi Hacc).
    split; [intros ->; reflexivity|].
    intros Hpositive.
    assert (Hcount : kll.totalCount (sketch_ accumulator) <> 0%N) by lia.
    split; [apply N.eqb_neq in Hcount; rewrite Hcount; reflexivity|].
    intros Hfit. unfold resultFitsPercentiles in Hfits. rewrite Hp in Hfits.
    unfold estimatesFit in Hfit. unfold estimatesOf.
    destruct (isArray p) eqn:HisArray.
    + destruct (Hfit eq_refl) as [Hlaw Hbound].
      destruct result as [size|flatResult|arrayResult]; try discriminate.
      destruct (extractValues_array_rows this p groups arrayResult store
                  Hlaw Hp HisArray Hin Hbound)
        as (store'' & out' & calls' & Hextract' & Hflush' & Hlayout).
      pose proof (eq_trans (eq_sym Hextract) Hextract') as Hsame.
      injection Hsame as <- -> <-.
      destruct (Hlayout i group accumulator Hi Hacc Hcount)
        as (Hoffset & Hsize & Helements).
      simpl. rewrite Hoffset, Hsize, !Nat2Z.id. f_equal.
      rewrite <- (Hlaw (sketch_ accumulator)).
      apply rangeOf_holds. exact Helements.
    + destruct result as [size|flatResult|arrayResult]; try discriminate.
      destruct (extractValues_scalar_rows this p groups flatResult store
                  Hp HisArray Hin)
        as (store'' & out' & calls' & Hextract' & Hflush' & _ & Hvalues).
      pose proof (eq_trans (eq_sym Hextract) Hextract') as Hsame.
      injection Hsame as <- -> <-.
      simpl. rewrite (Hvalues i group accumulator Hi Hacc Hcount). reflexivity.
Qed.

End ExtractedValuesFacts.

(** ** Extracted values and the shuffle on sample groups *)

Lemma Examples_estimateQuantiles_length (percentiles : list double)
    (digest : kll.KllSketch StlAllocator) :
  length (kll.estimateQuantiles digest percentiles) = length percentiles.
Proof. apply length_map. Qed.

Lemma extractValues_null_witness :
  exists store' out calls,
    extractValues [0; 1; 2]%nat Examples.reusedArrayResult
      Examples.arrayAggregate Examples.threeGroups = Ok (store', out, calls)
    /\ resultIsNullAt out 0 = Some false
    /\ resultIsNullAt out 1 = Some true
    /\ resultIsNullAt out 2 = Some false
    /\ resultEstimatesAt out 2 = Some [7; 7].
Proof.
  destruct (extractValues_null_iff_no_input
              Examples.arrayAggregate [0; 1; 2]%nat Examples.reusedArrayResult
              Examples.threeGroups eq_refl eq_refl)
    as (store' & out & calls & Hextract & Hflush & _ & Hrows).
  exists store', out, calls. split; [exact Hextract|].
  assert (Hflushed : flushGroups Examples.seed [0; 1; 2]%nat Examples.threeGroups
                     = Ok (map (flush Examples.seed) Examples.threeGroups))
    by reflexivity.
  pose proof (eq_trans (eq_sym Hflush) Hflushed) as Hstore.
  injection Hstore as ->.
  specialize (Hrows {| values := [0.25%float; 0.5%float]; isArray := true |}
                eq_refl).
  assert (Hfit : estimatesFit
                   {| values := [0.25%float; 0.5%float]; isArray := true |}
                   [0; 1; 2]%nat).
  { intros _. split; [apply Examples_estimateQuantiles_length|].
    apply Z.leb_le. reflexivity. }
  destruct (Hrows 0%nat 0%nat _ eq_refl eq_refl) as [_ Hrow0].
  destruct (Hrows 1%nat 1%nat _ eq_refl eq_refl) as [Hrow1 _].
  destruct (Hrows 2%nat 2%nat _ eq_refl eq_refl) as [_ Hrow2].
  destruct (Hrow0 eq_refl) as [Hnull0 _].
  destruct (Hrow2 eq_refl) as [Hnull2 Hestimates2].
  split; [exact Hnull0|]. split; [apply Hrow1; reflexivity|].
  split; [exact Hnull2|].
  rewrite (Hestimates2 Hfit). reflexivity.
Defined.

Lemma extractValues_scalar_witness :
  exists store' out calls,
    extractValues [0; 1; 2]%nat Examples.emptyFlatResult
      Examples.resolvedAggregate Examples.threeGroups
    = Ok (store', FlatResult out, calls)
    /\ length (flat_values out) = 3%nat
    /\ flat_values out !! 2%nat = Some 7.
Proof.
  destruct (extractValues_scalar_estimates Examples.resolvedAggregate
              {| values := [0.5%float]; isArray := false |} [0; 1; 2]%nat
              {| flat_nulls := None; flat_values := [] |} Examples.threeGroups
              eq_refl eq_refl eq_refl)
    as (store' & out & calls & Hextract & Hflush & Hlen & Hrows).
  exists store', out, calls. split; [exact Hextract|]. split; [exact Hlen|].
  assert (Hflushed : flushGroups Examples.seed [0; 1; 2]%nat Examples.threeGroups
                     = Ok (map (flush Examples.seed) Examples.threeGroups))
    by reflexivity.
  pose proof (eq_trans (eq_sym Hflush) Hflushed) as Hstore.
  injection Hstore as ->.
  rewrite (Hrows 2%nat 2%nat _ eq_refl eq_refl); [reflexivity|].
  apply N.eqb_neq. reflexivity.
Defined.

Lemma extractValues_array_witness :
  exists store' out calls,
    extractValues [0; 1; 2]%nat (ArrayResult Examples.emptyArray)
      Examples.arrayAggregate Examples.threeGroups
    = Ok (store', ArrayResult out, calls)
    /\ array_offsets out !! 2%nat = Some 2
    /\ array_sizes out !! 2%nat = Some 2.
Proof.
  destruct (extractValues_array_layout Examples.arrayAggregate
              {| values := [0.25%float; 0.5%float]; isArray := true |}
              [0; 1; 2]%nat Examples.emptyArray Examples.threeGroups
              (Examples_estimateQuantiles_length _) eq_refl eq_refl eq_refl)
    as (store' & out & calls & Hextract & Hflush & Hrows);
    [apply Z.leb_le; reflexivity|].
  exists store', out, calls. split; [exact Hextract|].
  assert (Hflushed : flushGroups Examples.seed [0; 1; 2]%nat Examples.threeGroups
                     = Ok (map (flush Examples.seed) Examples.threeGroups))
    by reflexivity.
  pose proof (eq_trans (eq_sym Hflush) Hflushed) as Hstore.
  injection Hstore as ->.
  destruct (Hrows 2%nat 2%nat _ eq_refl eq_refl) as (Hoffset & Hsize & _);
    [apply N.eqb_neq; reflexivity|].
  split; [exact Hoffset | exact Hsize].
Defined.

Lemma extractAccumulators_shuffle_witness :
  exists out merged',
    extractAccumulators Examples.ensureWritable
      [0; 1; 2]%nat Examples.emptyRowVector Examples.resolvedAggregate
      Examples.threeGroups = Ok (Examples.threeGroups, out)
    /\ addIntermediate false (Groups [0; 0; 0]%nat) [0; 1; 2]%nat [readBack out]
         Examples.freshAggregate Examples.twoGroups
       = Ok (Examples.resolvedAggregate, merged')
    /\ length merged' = 2%nat
    /\ merged' !! 1%nat = Some (newKllSketchAccumulator Examples.seed).
Proof.
  assert (Hviews : Forall viewInRange
                     (compactedViews Examples.seed [0; 1; 2]%nat
                        Examples.threeGroups)).
  { repeat (constructor;
            [split; [apply N.ltb_lt; reflexivity|];
             split; [apply N.ltb_lt; reflexivity|];
             repeat (constructor; [apply N.ltb_lt; reflexivity|]);
             constructor|]).
    constructor. }
  assert (Hrows : Forall (fun row => (row < 3)%nat) [0; 1; 2]%nat)
    by (repeat constructor).
  set (merged' :=
         match addIntermediate false (Groups [0; 0; 0]%nat) [0; 1; 2]%nat
                 [readBack Examples.threeGroupsRows] Examples.freshAggregate
                 Examples.twoGroups with
         | Ok (_, merged') => merged'
         | Failed _ => []
         end).
  destruct (extractAccumulators_then_addIntermediate
              Examples.ensureWritable Examples.resolvedAggregate
              {| values := [0.5%float]; isArray := false |} [0; 1; 2]%nat
              Examples.emptyRowVector Examples.threeGroups false [0; 0; 0]%nat
              [0; 1; 2]%nat Examples.freshAggregate Examples.resolvedAggregate
              Examples.twoGroups merged'
              eq_refl eq_refl ltac:(apply Z.leb_le; reflexivity)
              ltac:(apply Z.leb_le; reflexivity) Hviews Hrows)
    as (out & Hextract & Hmerged).
  assert (Hout : out = Examples.threeGroupsRows).
  { unfold Examples.threeGroupsRows. rewrite Hextract. reflexivity. }
  subst out.
  assert (Hcall : addIntermediate false (Groups [0; 0; 0]%nat) [0; 1; 2]%nat
                    [readBack Examples.threeGroupsRows] Examples.freshAggregate
                    Examples.twoGroups
                  = Ok (Examples.resolvedAggregate, merged'))
    by reflexivity.
  exists Examples.threeGroupsRows, merged'.
  split; [exact Hextract|]. split; [exact Hcall|].
  destruct (Hmerged Hcall) as [Hlen Hgroups].
  split; [exact Hlen|]. exact (Hgroups 1%nat _ eq_refl).
Defined.

(** ** New groups *)

Section NewGroupsFacts.

Context {T : Type} `{!Inhabited T} {L : kll.Library T}.

Implicit Types (this : ApproxPercentileAggregate T) (store : RowContainer T).

(** After [initializeNewGroupsInternal] the row container has its size
    and every group named holds an accumulator without input. *)
Lemma initializeNewGroupsInternal_outcome this (groups : list nat) :
  (forall a k seed, kll.totalCount (kll.create a k seed) = 0%N) ->
  forall (indices : list nat) store store',
    initializeNewGroupsInternal this groups indices store = Ok store' ->
    length store' = length store
    /\ groupsInContainer (groupsAt groups indices) store' = true
    /\ (forall group accumulator,
          store' !! group = Some accumulator ->
          withoutInput accumulator \/ store !! group = Some accumulator)
    /\ forall group,
         group ∈ groupsAt groups indices ->
         exists accumulator,
           store' !! group = Some accumulator /\ withoutInput accumulator.
Proof.
  intros Hcreate. unfold initializeNewGroupsInternal, groupsAt.
  induction indices as [|i indices IH]; intros store store'; simpl.
  - intros [= <-]. split; [reflexivity|]. split; [reflexivity|].
    split; [auto|]. intros group Hel. inversion Hel.
  - unfold groupAt. destruct (groups !! i) as [group|] eqn:Hgroup; simpl;
      [|discriminate].
    unfold value. destruct (store !! group) as [old|] eqn:Hold; simpl;
      [|discriminate].
    intros Hrest. destruct (IH _ _ Hrest) as (Hlen & Hin & Hslots & Hnew).
    rewrite length_insert in Hlen.
    assert (Hfresh : withoutInput
                       (newKllSketchAccumulator (T := T) (fixedRandomSeed_ this)))
      by (split; [apply Hcreate | reflexivity]).
    assert (Hslots' : forall group' accumulator,
               store' !! group' = Some accumulator ->
               withoutInput accumulator \/ store !! group' = Some accumulator).
    { intros group' accumulator Hlookup.
      destruct (Hslots group' accumulator Hlookup) as [Hwithout|Hbefore];
        [left; exact Hwithout|].
      destruct (decide (group = group')) as [->|Hne].
      - rewrite list_lookup_insert_eq in Hbefore
          by (apply lookup_lt_Some in Hold; exact Hold).
        injection Hbefore as <-. left. exact Hfresh.
      - rewrite list_lookup_insert_ne in Hbefore by exact Hne. right. exact Hbefore. }
    assert (Hgroup' : exists accumulator,
               store' !! group = Some accumulator /\ withoutInput accumulator).
    { destruct (lookup_lt_is_Some_2 store' group) as [accumulator Hlookup];
        [rewrite Hlen; apply lookup_lt_Some in Hold; exact Hold|].
      exists accumulator. split; [exact Hlookup|].
      destruct (Hslots group accumulator Hlookup) as [Hwithout|Hbefore];
        [exact Hwithout|].
      rewrite list_lookup_insert_eq in Hbefore
        by (apply lookup_lt_Some in Hold; exact Hold).
      injection Hbefore as <-. exact Hfresh. }
    split; [exact Hlen|]. split.
    { apply andb_true_intro. split; [|exact Hin].
      apply Nat.ltb_lt. rewrite Hlen. apply lookup_lt_Some in Hold. exact Hold. }
    split; [exact Hslots'|].
    intros group' [->|Hel]%elem_of_cons; [exact Hgroup' | apply Hnew; exact Hel].
Qed.

(** Flushing keeps accumulators without input as they are counted. *)
Lemma flushGroups_withoutInput (seed : option N) :
  (forall a (s : kll.KllSketch a), kll.totalCount (kll.finish s) = kll.totalCount s) ->
  forall (groups : list nat) store store',
    flushGroups seed groups store = Ok store' ->
    forall slot accumulator,
      store !! slot = Some accumulator -> withoutInput accumulator ->
      exists accumulator',
        store' !! slot = Some accumulator' /\ withoutInput accumulator'.
Proof.
  intros Hfinish. induction groups as [|group groups IH]; intros store store'; simpl.
  - intros [= <-] slot accumulator Hslot Hwithout. eauto.
  - unfold value. destruct (store !! group) as [old|] eqn:Hold; simpl;
      [|discriminate].
    intros Hrest slot accumulator Hslot Hwithout.
    destruct (decide (group = slot)) as [->|Hne].
    + apply (IH _ _ Hrest slot (flush seed accumulator)).
      * rewrite Hold in Hslot. injection Hslot as ->.
        apply list_lookup_insert_eq. apply lookup_lt_Some in Hold. exact Hold.
      * destruct Hwithout as [Hcount Hbuffer]. split; [|reflexivity].
        rewrite flush_sketch. unfold mergeLargeCountValuesIntoSketch.
        rewrite Hbuffer, Hfinish. exact Hcount.
    + apply (IH _ _ Hrest slot accumulator); [|exact Hwithout].
      rewrite list_lookup_insert_ne by exact Hne. exact Hslot.
Qed.

(** Groups that were initialized and received no input are extracted as
    null rows, whatever the percentiles: [extractValues] right after
    [initializeNewGroupsInternal] yields one null row per group. *)
Theorem initialized_groups_extract_as_null this (groups indices : list nat)
    (result : ResultVector T) store initialized :
  (forall a k seed, kll.totalCount (kll.create a k seed) = 0%N) ->
  (forall a (s : kll.KllSketch a), kll.totalCount (kll.finish s) = kll.totalCount s) ->
  initializeNewGroupsInternal this groups indices store = Ok initialized ->
  resultFitsPercentiles this result = true ->
  exists store' out calls,
    extractValues (groupsAt groups indices) result this initialized
    = Ok (store', out, calls)
    /\ calls = []
    /\ forall i, (i < length (groupsAt groups indices))%nat ->
                 resultIsNullAt out i = Some true.
Proof.
  intros Hcreate Hfinish Hinit Hfits.
  destruct (initializeNewGroupsInternal_outcome this groups Hcreate indices store
              initialized Hinit) as (_ & Hin & _ & Hnew).
  destruct (extractValues_outcome this (groupsAt groups indices) result initialized
              Hin Hfits) as (store' & out & calls & Hextract & Hflush & Hout).
  exists store', out, calls. split; [exact Hextract|].
  assert (Hflushed : forall group,
             group ∈ groupsAt groups indices ->
             exists accumulator,
               store' !! group = Some accumulator /\ withoutInput accumulator).
  { intros group Hel. destruct (Hnew group Hel) as (accumulator & Hslot & Hwithout).
    exact (flushGroups_withoutInput _ Hfinish _ _ _ Hflush group accumulator
             Hslot Hwithout). }
  destruct (percentiles_ this) as [p|].
  - destruct Hout as [-> Hrows]. split.
    + clear Hrows Hextract Hin Hnew Hflush. revert Hflushed.
      generalize (groupsAt groups indices) as selected.
      induction selected as [|group rest IH]; intros Hflushed; [reflexivity|].
      simpl. destruct (Hflushed group) as (accumulator & -> & Hcount & _);
        [apply elem_of_cons; left; reflexivity|].
      rewrite Hcount. simpl. apply IH.
      intros group' Hel. apply Hflushed. apply elem_of_cons. right. exact Hel.
    + intros i Hi.
      destruct (lookup_lt_is_Some_2 (groupsAt groups indices) i Hi)
        as [group Hgroup].
      destruct (Hflushed group) as (accumulator & Hslot & Hcount & _);
        [apply (list_elem_of_lookup_2 _ i); exact Hgroup|].
      rewrite (Hrows i group accumulator Hgroup Hslot), Hcount. reflexivity.
  - destruct Hout as [-> ->]. split; [reflexivity|].
    intros i Hi. simpl. destruct (Nat.ltb_spec i (length (groupsAt groups indices)));
      [reflexivity | lia].
Qed.

End NewGroupsFacts.

(** ** New groups on sample groups *)

Lemma initialized_groups_witness :
  exists store' out calls,
    extractValues [2; 0]%nat Examples.emptyFlatResult
      Examples.resolvedAggregate
      (<[0%nat := newKllSketchAccumulator Examples.seed]>
         (<[2%nat := newKllSketchAccumulator Examples.seed]> Examples.threeGroups))
    = Ok (store', out, calls)
    /\ calls = []
    /\ resultIsNullAt out 0 = Some true
    /\ resultIsNullAt out 1 = Some true.
Proof.
  destruct (initialized_groups_extract_as_null Examples.resolvedAggregate
              [0; 1; 2]%nat [2; 0]%nat Examples.emptyFlatResult
              Examples.threeGroups
              (<[0%nat := newKllSketchAccumulator Examples.seed]>
                 (<[2%nat := newKllSketchAccumulator Examples.seed]>
                    Examples.threeGroups))
              (fun a k seed => eq_refl) (fun a s => eq_refl) eq_refl eq_refl)
    as (store' & out & calls & Hextract & Hcalls & Hrows).
  exists store', out, calls. split; [exact Hextract|]. split; [exact Hcalls|].
  split; apply Hrows; simpl; lia.
Defined.
